(** * TabRF signal parser: a shallow embedding of [signal_parser.h]

    The class [SignalParser] recognises patterns in streams of pulse
    durations with the help of a protocol table and a code table, and
    composes duration lists from textual sequences.  This file embeds

    - the two tables and their registration functions
      ([newProtocol], [newCode]),
    - the matcher ([parse], with its scan over the code table and
      [_resetCode]),
    - the composer ([compose]),

    and proves properties of them.

    Conventions of the embedding.

    - Every C integer is a [Z]; the conversions to [uint8_t], [int8_t] and
      [uint16_t] that the C code performs on assignment are written out
      ([uint8], [int8], [uint16]).  [int] arithmetic is exact (the values
      that occur stay far below 2^31).
    - A pointer into the protocol table is the index of the entry
      ([nat]); the null pointer is [None].  Dereferencing a null pointer
      and calling a null callback are the outcome [Fault].
    - The callback is an effect: [parse] returns the list of texts passed
      to the callback, in order.  [_callbackFunc] records whether a
      callback is attached.
    - [_seq] holds the characters stored at the indices below
      [_seq_length] of the C buffer; the C code keeps a NUL at index
      [_seq_length].  Printing with [%s] stops at the first NUL ([cstr]).
    - The timing arrays of a code are the lists of the slots that
      [newCode] wrote.  The content of the slots behind them is not
      determined by the source; a read there yields 0 in the model ([rd]).
      Only a code registered without any slot is read there; the last
      section shows that the scan stays inside the stored slots for every
      other table.
    - The logging macros of [debugout.h] ([TRACE_MSG], [ERROR_MSG]) have
      no effect on the parser and are left out. *)

From Stdlib Require Import ZArith List Bool Ascii String Lia DecimalString.
Import ListNotations.
Open Scope Z_scope.

(** ** Constants *)

Definition NUL : ascii := Ascii.zero.
Definition SPACE : ascii := " "%char.

Definition MAX_CODELENGTH : Z := 8.
Definition MAX_SEQUENCE_LENGTH : Z := 120.
Definition MAX_TIMING_LENGTH : Z := MAX_CODELENGTH * MAX_SEQUENCE_LENGTH.
Definition PROTNAME_LEN : Z := 12.

Definition SP_START : Z := 1.
Definition SP_DATA : Z := 2.
Definition SP_END : Z := 4.
Definition SP_ANY : Z := Z.lor SP_DATA SP_END.

(** ** Machine integers *)

Definition uint8 (x : Z) : Z := x mod 256.
Definition uint16 (x : Z) : Z := x mod 65536.
Definition int8 (x : Z) : Z := (x + 128) mod 256 - 128.

(** ** Outcomes of a computation *)

Inductive Result (A : Type) : Type :=
| Done (a : A)
| Fault
| OutOfFuel.
Arguments Done {A} a.
Arguments Fault {A}.
Arguments OutOfFuel {A}.

Definition bind {A B : Type} (r : Result A) (k : A -> Result B) : Result B :=
  match r with
  | Done a => k a
  | Fault => Fault
  | OutOfFuel => OutOfFuel
  end.

Notation "x <- r ;; k" := (bind r (fun x => k))
  (at level 61, r at next level, right associativity).
Notation "' p <- r ;; k" := (bind r (fun p => k))
  (at level 61, p pattern, r at next level, right associativity).

(** ** Strings *)

(** The first [n] characters of [s]. *)
Fixpoint take (n : nat) (s : string) : string :=
  match n, s with
  | S n', String c s' => String c (take n' s')
  | _, _ => EmptyString
  end.

(** The characters of [s] before the first occurrence of [stop]. *)
Fixpoint upto (stop : ascii) (s : string) : string :=
  match s with
  | EmptyString => EmptyString
  | String c s' => if Ascii.eqb c stop then EmptyString else String c (upto stop s')
  end.

(** [strchr s ch + 1]: the text after the first occurrence of [ch], [None]
    when [strchr] returns the null pointer. *)
Fixpoint after (stop : ascii) (s : string) : option string :=
  match s with
  | EmptyString => None
  | String c s' => if Ascii.eqb c stop then Some s' else after stop s'
  end.

(** What [%s] prints of a character buffer. *)
Definition cstr (s : string) : string := upto NUL s.

(** What [%d] prints. *)
Definition decimal (z : Z) : string := NilZero.string_of_int (Z.to_int z).

(** [snprintf(buffer, size, ...)] keeps at most [size - 1] characters. *)
Definition snprintf (size : nat) (text : string) : string := take (size - 1) text.

(** Appending one character. *)
Definition snoc (s : string) (c : ascii) : string := (s ++ String c EmptyString)%string.

(** ** The data model *)

Module Code.
Record t : Type := mk {
    protId : Z;            (* uint8_t *)
    type : Z;              (* CodeType = int *)
    name : ascii;
    length : Z;            (* uint8_t *)
    minTime : list Z;      (* CodeTime[MAX_CODELENGTH] *)
    maxTime : list Z;      (* CodeTime[MAX_CODELENGTH] *)
    cnt : Z;               (* uint8_t *)
    valid : bool           (* uint8_t holding true or false *)
}.
End Code.
Abbreviation Code := Code.t.

Module Protocol.
Record t : Type := mk {
    id : Z;                (* uint8_t *)
    name : string;         (* char[PROTNAME_LEN] *)
    minCodeLen : Z;        (* uint8_t *)
    maxCodeLen : Z;        (* uint8_t *)
    tolerance : Z;         (* uint8_t *)
    sendRepeat : Z;        (* uint8_t *)
    length : Z             (* uint8_t *)
}.
End Protocol.
Abbreviation Protocol := Protocol.t.

(** The member variables of the class.  [_protocolCount] and [_codeCount]
    are the lengths of the two tables. *)
Record SignalParser : Type := mkParser {
  _debugMode : bool;
  _protocol : list Protocol;
  _code : list Code;
  _seq : string;
  _seq_length : Z;               (* uint8_t *)
  _seq_codelength : Z;           (* uint8_t *)
  _seq_protocol : option nat;    (* Protocol * *)
  _callbackFunc : bool
}.

(** The zero-initialised object. *)
Definition empty_parser : SignalParser :=
  mkParser false [] [] EmptyString 0 0 None false.

Definition set_protocol (st : SignalParser) (ps : list Protocol) : SignalParser :=
  mkParser (_debugMode st) ps (_code st) (_seq st) (_seq_length st)
           (_seq_codelength st) (_seq_protocol st) (_callbackFunc st).

Definition set_code (st : SignalParser) (cs : list Code) : SignalParser :=
  mkParser (_debugMode st) (_protocol st) cs (_seq st) (_seq_length st)
           (_seq_codelength st) (_seq_protocol st) (_callbackFunc st).

Definition set_seq (st : SignalParser) (s : string) (n : Z) : SignalParser :=
  mkParser (_debugMode st) (_protocol st) (_code st) s n
           (_seq_codelength st) (_seq_protocol st) (_callbackFunc st).

Definition set_seq_codelength (st : SignalParser) (n : Z) : SignalParser :=
  mkParser (_debugMode st) (_protocol st) (_code st) (_seq st) (_seq_length st)
           n (_seq_protocol st) (_callbackFunc st).

Definition set_seq_protocol (st : SignalParser) (p : option nat) : SignalParser :=
  mkParser (_debugMode st) (_protocol st) (_code st) (_seq st) (_seq_length st)
           (_seq_codelength st) p (_callbackFunc st).

Definition code_set_valid (c : Code) (v : bool) : Code :=
  Code.mk (Code.protId c) (Code.type c) (Code.name c) (Code.length c)
          (Code.minTime c) (Code.maxTime c) (Code.cnt c) v.

Definition code_set_cnt (c : Code) (n : Z) : Code :=
  Code.mk (Code.protId c) (Code.type c) (Code.name c) (Code.length c)
          (Code.minTime c) (Code.maxTime c) n (Code.valid c).

(** [a[i]] for one of the two timing arrays.  The lists hold the slots
    that [newCode] wrote.  An index outside them reads storage that
    [newCode] never wrote, whose content the source does not determine;
    the model reads 0 there.  The scan reads there only for a code that
    was registered without any slot (all eight times 0): for every other
    table the index stays inside the stored slots (section on the scan,
    at the end). *)
Definition rd (a : list Z) (i : Z) : Z :=
  if i <? 0 then 0 else nth (Z.to_nat i) a 0.

(** [c->type & mask] as a condition. *)
Definition has (c : Code) (mask : Z) : bool :=
  negb (Z.land (Code.type c) mask =? 0).

(** ** Private core functions *)

Fixpoint find_index {A : Type} (f : A -> bool) (l : list A) : option nat :=
  match l with
  | [] => None
  | x :: l' => if f x then Some 0%nat
               else match find_index f l' with
                    | Some k => Some (S k)
                    | None => None
                    end
  end.

(** find protocol by ID *)
Definition _findProt (st : SignalParser) (protId : Z) : option nat :=
  find_index (fun p => Protocol.id p =? protId) (_protocol st).

(** find protocol by name *)
Definition _findProt_name (st : SignalParser) (name : string) : option nat :=
  find_index (fun p => String.eqb name (Protocol.name p)) (_protocol st).

Definition _findCode (st : SignalParser) (protId : Z) (codeName : ascii) : option Code :=
  find (fun c => (Code.protId c =? protId) && Ascii.eqb (Code.name c) codeName)
       (_code st).

(** [*p] for a pointer into the protocol table. *)
Definition deref (st : SignalParser) (p : option nat) : Result Protocol :=
  match p with
  | None => Fault
  | Some k => match nth_error (_protocol st) k with
              | Some pr => Done pr
              | None => Fault
              end
  end.

Definition reset_one (c : Code) : Code :=
  code_set_valid (code_set_cnt c 0) true.

(** Reset all counters in the code table and, with [all], the received
    sequence. *)
Definition _resetCode (all : bool) (st : SignalParser) : SignalParser :=
  let st1 := set_code st (map reset_one (_code st)) in
  if all then
    set_seq (set_seq_codelength (set_seq_protocol st1 None) 0) EmptyString 0
  else st1.

(** ** Public functions: configuration *)

Definition init (st : SignalParser) (debugMode : bool) : SignalParser :=
  mkParser debugMode (_protocol st) (_code st) (_seq st) (_seq_length st)
           (_seq_codelength st) (_seq_protocol st) (_callbackFunc st).

(** [newFunction] tells whether the pointer passed is non-null. *)
Definition attachCallback (st : SignalParser) (newFunction : bool) : SignalParser :=
  mkParser (_debugMode st) (_protocol st) (_code st) (_seq st) (_seq_length st)
           (_seq_codelength st) (_seq_protocol st) newFunction.

(** Register a new protocol; returns the parser and the protocol id or 0. *)
Definition newProtocol (st : SignalParser) (name : string)
    (minLen maxLen tolerance repeat : Z) : SignalParser * Z :=
  if (minLen >? maxLen) || (maxLen >=? MAX_SEQUENCE_LENGTH) then (st, 0)
  else
    let count := Z.of_nat (List.length (_protocol st)) + 1 in
    let p := Protocol.mk (uint8 count)
                         (take (Z.to_nat (PROTNAME_LEN - 1)) name)
                         minLen maxLen tolerance repeat 0 in
    (set_protocol st (_protocol st ++ [p]), uint8 count).

(** The chain [if (tk > 0) c->minTime[l++] = tk]. *)
Definition slots (ts : list Z) : list Z := filter (fun t => t >? 0) ts.

(** [radius = (t * p->tolerance) / 100], a [uint16_t]. *)
Definition radius (t tolerance : Z) : Z := uint16 ((t * tolerance) / 100).

(** The entry that [newCode] fills in, from the non-zero times [ts]. *)
Definition registered_code (protId : Z) (ch : ascii) (type : Z) (tolerance : Z)
    (ts : list Z) : Code :=
  Code.mk protId type ch (Z.of_nat (List.length ts))
    (map (fun t => uint16 (t - radius t tolerance)) ts)
    (map (fun t => uint16 (t + radius t tolerance)) ts)
    0 true.

Definition newCode (st : SignalParser) (protId : Z) (ch : ascii) (type : Z)
    (t1 t2 t3 t4 t5 t6 t7 t8 : Z) : SignalParser :=
  match deref st (_findProt st protId) with
  | Done p =>
      let ts := slots [t1; t2; t3; t4; t5; t6; t7; t8] in
      set_code st (_code st
                   ++ [registered_code protId ch type (Protocol.tolerance p) ts])
  | _ => st
  end.

Definition getSendRepeat (st : SignalParser) (name : string) : Z :=
  match deref st (_findProt_name st name) with
  | Done p => Protocol.sendRepeat p
  | _ => 0
  end.

(** ** Public functions: the matcher *)

(** The local variables of [parse].  [foundCode] points into the code
    table; the model holds the entry as it is when the loop is left.
    [parse] reads its [type], [protId] and [name] only, which no reset
    changes. *)
Record Locals : Type := mkLocals {
  foundCode : option Code;
  matched : bool;            (* match *)
  retryCandidate : bool
}.

Definition locals0 : Locals := mkLocals None false false.

(** The condition chain of the scan ("1. check conditions") for one code:
    the value of the local [valid], and whether the chain sets
    [retryCandidate].  [_seq_protocol] is dereferenced only behind
    [_seq_length > 0]. *)
Definition check (st : SignalParser) (c : Code) (duration : Z) : Result (bool * bool) :=
  let i := int8 (Code.cnt c) in
  if (_seq_length st =? 0) && negb (has c SP_START) then Done (false, false)
  else
    other <- (if _seq_length st >? 0
              then p <- deref st (_seq_protocol st) ;;
                   Done (negb (Code.protId c =? Protocol.id p))
              else Done false) ;;
    if other then Done (false, false)
    else if (_seq_length st >? 0) && negb (has c SP_ANY) then Done (false, false)
    else if has c SP_END && (i =? Code.length c - 1)
            && (duration >? rd (Code.minTime c) i) then Done (true, false)
    else if (duration <? rd (Code.minTime c) i)
            || (duration >? rd (Code.maxTime c) i)
         then Done (false, (i >? 0) && (_seq_length st =? 0))
    else Done (true, false).

Definition raise_retry (loc : Locals) (r : bool) : Locals :=
  mkLocals (foundCode loc) (matched loc) (retryCandidate loc || r).

Definition set_matched (loc : Locals) : Locals :=
  mkLocals (foundCode loc) true (retryCandidate loc).

Definition set_found (loc : Locals) (c : Code) : Locals :=
  mkLocals (Some c) (matched loc) (retryCandidate loc).

(** The loop over the code table, from the entry [c] on ([todo] is the
    rest of the table).  It returns the entries as the loop leaves them
    and the locals.  At a completed code the loop is left ([break]); the
    three statements before the [break] are in [scan_codes]. *)
Fixpoint scan (st : SignalParser) (duration : Z) (todo : list Code) (loc : Locals)
  : Result (list Code * Locals) :=
  match todo with
  | [] => Done ([], loc)
  | c :: rest =>
      if Code.valid c then
        '(valid, retry) <- check st c duration ;;
        let c1 := code_set_valid c valid in
        let loc1 := raise_retry loc retry in
        if valid then
          let i := int8 (int8 (Code.cnt c) + 1) in
          let c2 := code_set_cnt c1 (uint8 i) in
          let loc2 := set_matched loc1 in
          if i =? Code.length c then Done (c2 :: rest, set_found loc2 c2)
          else '(rest', loc') <- scan st duration rest loc2 ;;
               Done (c2 :: rest', loc')
        else '(rest', loc') <- scan st duration rest loc1 ;;
             Done (c1 :: rest', loc')
      else '(rest', loc') <- scan st duration rest loc ;;
           Done (c :: rest', loc')
  end.

(** The whole loop: the scan, and for a completed code the append of its
    name to [_seq] and [_resetCode(false)]. *)
Definition scan_codes (st : SignalParser) (duration : Z) : Result (SignalParser * Locals) :=
  '(cs, loc) <- scan st duration (_code st) locals0 ;;
  let st1 := set_code st cs in
  match foundCode loc with
  | Some c =>
      Done (_resetCode false
              (set_seq st1 (snoc (_seq st1) (Code.name c)) (uint8 (_seq_length st1 + 1))),
            loc)
  | None => Done (st1, loc)
  end.

(** The diagnostic text of an aborted attempt. *)
Definition diag_text (st : SignalParser) : string :=
  snprintf 16 ("*" ++ decimal (_seq_codelength st) ++ "," ++ decimal (_seq_length st)).

(** The text of a completed sequence. *)
Definition sequence_text (p : Protocol) (st : SignalParser) : string :=
  snprintf 64 (cstr (Protocol.name p) ++ " " ++ cstr (_seq st)).

(** What [parse] does after the loop when a code was found. *)
Definition found_code (st : SignalParser) (fc : Code) : Result (SignalParser * list string) :=
  if _seq_length st =? 1 then
    if negb (has fc SP_START) then Done (_resetCode true st, [])
    else Done (set_seq_protocol st (_findProt st (Code.protId fc)), [])
  else
    last <- (if has fc SP_END then Done true
             else p <- deref st (_seq_protocol st) ;;
                  Done (_seq_length st =? Protocol.maxCodeLen p)) ;;
    if last then
      out <- (if _callbackFunc st
              then p <- deref st (_seq_protocol st) ;;
                   Done (if _seq_length st >=? Protocol.minCodeLen p
                         then [sequence_text p st] else [])
              else Done []) ;;
      Done (_resetCode true st, out)
    else if _seq_length st =? MAX_SEQUENCE_LENGTH - 2 then Done (_resetCode true st, [])
    else Done (st, []).

(** [parse(CodeTime duration)].  The function calls itself for the retry;
    [fuel] bounds the depth of the calls. *)
Fixpoint parse_fuel (fuel : nat) (st : SignalParser) (duration : Z)
  : Result (SignalParser * list string) :=
  match fuel with
  | O => OutOfFuel
  | S fuel' =>
      match _protocol st with
      | [] => Done (st, [])
      | _ :: _ =>
          '(st1, loc) <- scan_codes st duration ;;
          if negb (matched loc) then
            out <- (if _debugMode st1 && (_seq_length st1 >? 10)
                    then if _callbackFunc st1 then Done [diag_text st1] else Fault
                    else Done []) ;;
            let st2 := _resetCode true st1 in
            if retryCandidate loc then
              '(st3, out') <- parse_fuel fuel' st2 duration ;;
              Done (st3, out ++ out')
            else Done (st2, out)
          else
            let st2 := set_seq_codelength st1 (uint8 (_seq_codelength st1 + 1)) in
            match foundCode loc with
            | Some fc => found_code st2 fc
            | None => Done (st2, [])
            end
      end
  end.

(** [parse] with the two levels of calls that it uses at most (see the
    section on the retry). *)
Definition parse (st : SignalParser) (duration : Z) : Result (SignalParser * list string) :=
  parse_fuel 2 st duration.

(** [parse(CodeTime *durations)]: the durations up to the terminating 0. *)
Fixpoint parse_all (st : SignalParser) (durations : list Z)
  : Result (SignalParser * list string) :=
  match durations with
  | [] => Done (st, [])
  | d :: rest =>
      if d =? 0 then Done (st, [])
      else '(st1, out1) <- parse st d ;;
           '(st2, out2) <- parse_all st1 rest ;;
           Done (st2, out1 ++ out2)
  end.

(** ** Public functions: the composer *)

(** The midpoints of the slots of a code, one per slot. *)
Definition midpoints (c : Code) : list Z :=
  map (fun k => uint16 ((rd (Code.minTime c) (Z.of_nat k)
                         + rd (Code.maxTime c) (Z.of_nat k)) / 2))
      (seq 0 (Z.to_nat (Code.length c))).

(** The loop of [compose] over the code characters, which runs while the
    character is not NUL and [len] is not 0: what it writes. *)
Fixpoint compose_loop (st : SignalParser) (protId : Z) (s : string) (len : Z) : list Z :=
  match s with
  | EmptyString => []
  | String ch s' =>
      if Ascii.eqb ch NUL || (len =? 0) then []
      else
        (match _findCode st protId ch with
         | Some c => midpoints c
         | None => []
         end) ++ compose_loop st protId s' (len - 1)
  end.

(** [compose(sequence, timings, len)]: the values written to [timings], in
    order.  [timings] tells whether the buffer pointer is non-null. *)
Definition compose (st : SignalParser) (sequence : string) (timings : bool) (len : Z)
  : Result (list Z) :=
  let protname := upto SPACE (take 11 sequence) in
  let s := after SPACE sequence in
  match deref st (_findProt_name st protname) with
  | Done p =>
      if timings then
        match s with
        | Some s' => Done (compose_loop st (Protocol.id p) s' len ++ [0])
        | None => Fault
        end
      else Done []
  | _ => Done []
  end.

(** ** A table for the examples

    The protocol [it2] with a start code, two data codes and an end
    code, a callback attached. *)

Definition it2_parser (minLen maxLen : Z) : SignalParser :=
  let st := attachCallback empty_parser true in
  let '(st, id) := newProtocol st "it2" minLen maxLen 25 3 in
  let st := newCode st id "s" SP_START 283 2658 0 0 0 0 0 0 in
  let st := newCode st id "_" SP_DATA 286 255 296 1269 0 0 0 0 in
  let st := newCode st id "#" SP_DATA 286 1269 287 267 0 0 0 0 in
  newCode st id "x" SP_END 286 10000 0 0 0 0 0 0.

(** The state and the output of a run, when it ends regularly. *)
Definition outputs {A : Type} (r : Result (A * list string)) : option (list string) :=
  match r with
  | Done (_, out) => Some out
  | _ => None
  end.

Definition final {A B : Type} (r : Result (A * B)) : option A :=
  match r with
  | Done (st, _) => Some st
  | _ => None
  end.

(** ** Notions used in the statements *)

(** The registration used to fill a protocol table with [n] entries. *)
Definition register_many (n : nat) (st : SignalParser) : SignalParser :=
  Nat.iter n (fun s => fst (newProtocol s "p" 1 2 25 3)) st.

(** A code that passes the eligibility conditions of the scan: a start
    code while the sequence is empty, a data or end code of the locked
    protocol afterwards. *)
Definition eligible (st : SignalParser) (c : Code) : Prop :=
  (_seq_length st = 0 /\ has c SP_START = true)
  \/ (_seq_length st > 0
      /\ exists p, deref st (_seq_protocol st) = Done p
                   /\ Code.protId c = Protocol.id p
                   /\ has c SP_ANY = true).

(** The scan accepts [duration] for the code [c]. *)
Definition accepts (st : SignalParser) (c : Code) (duration : Z) : bool :=
  match check st c duration with
  | Done (true, _) => true
  | _ => false
  end.


(** All slot counters of the code table are zero. *)
Definition counters_zero (cs : list Code) : Prop :=
  Forall (fun c => Code.cnt c = 0) cs.

(** The duration is accepted by no code of the table: the scan ends with
    [match] still false. *)
Definition no_match (st : SignalParser) (duration : Z) : bool :=
  match scan_codes st duration with
  | Done (_, loc) => negb (matched loc)
  | _ => false
  end.

(** Durations for the codes of [it2_parser]. *)
Definition code_s : list Z := [283; 2658].
Definition code_low : list Z := [286; 255; 296; 1269].
Definition code_high : list Z := [286; 1269; 287; 267].
Definition code_x : list Z := [286; 10000].

Definition times (n : nat) (ds : list Z) : list Z := List.concat (repeat ds n).

(** The parser after a run that ends regularly ([st] itself otherwise). *)
Definition run (st : SignalParser) (durations : list Z) : SignalParser :=
  match parse_all st durations with
  | Done (st', _) => st'
  | _ => st
  end.

(** [n] times the character [c]. *)
Fixpoint replicate (n : nat) (c : ascii) : string :=
  match n with
  | O => EmptyString
  | S n' => String c (replicate n' c)
  end.

(** The text contains no NUL. *)
Fixpoint no_nul (s : string) : bool :=
  match s with
  | EmptyString => true
  | String c s' => negb (Ascii.eqb c NUL) && no_nul s'
  end.

(** The scan sets [retryCandidate] for this duration. *)
Definition retry_flagged (st : SignalParser) (duration : Z) : bool :=
  match scan_codes st duration with
  | Done (_, loc) => retryCandidate loc
  | _ => false
  end.

(** The IDLE state: the state is its own full reset. *)
Definition idle (st : SignalParser) : Prop := _resetCode true st = st.

(** The entry of a code after the scan has accepted a duration for it. *)
Definition advance (c : Code) : Code :=
  code_set_cnt (code_set_valid c true) (uint8 (int8 (int8 (Code.cnt c) + 1))).

(** What the scan does to one entry of the table: it leaves it alone,
    invalidates it after a rejection, or advances it after an
    acceptance. *)
Definition code_step (st : SignalParser) (d : Z) (c c' : Code) : Prop :=
  c' = c
  \/ (Code.valid c = true /\ accepts st c d = false /\ c' = code_set_valid c false)
  \/ (Code.valid c = true /\ accepts st c d = true /\ c' = advance c).

(** Every code of the table names a registered protocol. *)
Definition codes_registered (st : SignalParser) : Prop :=
  Forall (fun c => _findProt st (Code.protId c) <> None) (_code st).

(** The invariant of the matcher: the sequence stays below the cap; only
    eligible codes have advanced; a sequence in progress has a locked
    protocol. *)
Definition matcher_inv (st : SignalParser) : Prop :=
  codes_registered st
  /\ 0 <= _seq_length st < MAX_SEQUENCE_LENGTH - 2
  /\ Forall (fun c => Code.cnt c <> 0 -> eligible st c) (_code st)
  /\ (_seq_length st > 0 -> exists p, deref st (_seq_protocol st) = Done p).

(** The code [fc] completes in the scan of [st] for the duration [d]. *)
Definition completes (st : SignalParser) (d : Z) (fc : Code) : Prop :=
  exists st1 loc, scan_codes st d = Done (st1, loc) /\ foundCode loc = Some fc.

(** The states of the configuration phase. *)
Inductive configured : SignalParser -> Prop :=
| cfg_empty : configured empty_parser
| cfg_init st debugMode : configured st -> configured (init st debugMode)
| cfg_attach st f : configured st -> configured (attachCallback st f)
| cfg_protocol st name minLen maxLen tolerance repeat :
    configured st ->
    configured (fst (newProtocol st name minLen maxLen tolerance repeat))
| cfg_code st protId ch type t1 t2 t3 t4 t5 t6 t7 t8 :
    configured st ->
    configured (newCode st protId ch type t1 t2 t3 t4 t5 t6 t7 t8).

(** The call of [parse] that takes the sequence from empty to one
    character locks the protocol of the code that completed in it: a
    start code, completed in the scan of [st] or, after a retry, in the
    scan of the reset state. *)
Definition locks (st st' : SignalParser) (d : Z) : Prop :=
  exists fc,
    (completes st d fc \/ completes (_resetCode true st) d fc)
    /\ has fc SP_START = true
    /\ _seq_protocol st' = _findProt st (Code.protId fc)
    /\ exists p, deref st' (_seq_protocol st') = Done p
                 /\ Protocol.id p = Code.protId fc.

(** ** Notions for the round trip through [compose] *)

(** The text contains no space. *)
Fixpoint no_space (s : string) : bool :=
  match s with
  | EmptyString => true
  | String c s' => negb (Ascii.eqb c SPACE) && no_space s'
  end.

(** The name characters of a list of codes. *)
Fixpoint names (w : list Code) : string :=
  match w with
  | [] => EmptyString
  | c :: w' => String (Code.name c) (names w')
  end.

(** The timings that [compose] writes for a list of codes. *)
Definition timings_of (w : list Code) : list Z := flat_map midpoints w.

(** A state that stands for "a sequence is in progress, locked to the
    protocol at index [k]", as far as the scan looks at the state. *)
Definition locked_ctx (st0 : SignalParser) (k : nat) : SignalParser :=
  set_seq_protocol (set_seq st0 EmptyString 1) (Some k).

(** The scans of the durations [ds], one after the other, from the code
    table [cs] with the sequence state of [ctx]: the code that completes
    at the last duration, provided every duration before is accepted by
    some code and completes none. *)
Fixpoint recognise (ctx : SignalParser) (cs : list Code) (ds : list Z) : option Code :=
  match ds with
  | [] => None
  | d :: ds' =>
      match scan ctx d cs locals0 with
      | Done (cs', loc) =>
          match foundCode loc with
          | Some fc => match ds' with [] => Some fc | _ :: _ => None end
          | None => if matched loc then recognise ctx cs' ds' else None
          end
      | _ => None
      end
  end.

(** The midpoints of [c] complete [c] and no other code. *)
Definition recognises (ctx : SignalParser) (c : Code) : Prop :=
  exists fc, recognise ctx (_code ctx) (midpoints c) = Some fc /\ reset_one fc = c.

(** Every code of the table is recognised from its own midpoints: a
    start code at the beginning of a sequence, a data or end code within
    a sequence of its protocol. *)
Definition self_decoding (st0 : SignalParser) : Prop :=
  forall c, In c (_code st0) ->
    (has c SP_START = true -> recognises st0 c)
    /\ (has c SP_ANY = true ->
        forall k, _findProt st0 (Code.protId c) = Some k ->
                  recognises (locked_ctx st0 k) c).

(** The names in the tables identify protocols and codes, and can be
    read back from a text; no midpoint is the terminating 0. *)
Definition table_ok (st0 : SignalParser) : Prop :=
  NoDup (map Protocol.name (_protocol st0))
  /\ Forall (fun p => no_nul (Protocol.name p) = true
                      /\ no_space (Protocol.name p) = true
                      /\ (String.length (Protocol.name p) <= 11)%nat)
            (_protocol st0)
  /\ NoDup (map (fun c => (Code.protId c, Code.name c)) (_code st0))
  /\ Forall (fun c => Code.name c <> NUL /\ Forall (fun m => m <> 0) (midpoints c))
            (_code st0).

(** A code of the table that may follow within a sequence of [p]. *)
Definition member (st0 : SignalParser) (p : Protocol) (c : Code) : Prop :=
  In c (_code st0) /\ Code.protId c = Protocol.id p /\ has c SP_ANY = true.

(** The codes [u] follow [k] codes of a sequence of [p] without ending
    it. *)
Fixpoint open_ok (st0 : SignalParser) (p : Protocol) (k : nat) (u : list Code) : Prop :=
  match u with
  | [] => True
  | c :: u' =>
      member st0 p c /\ has c SP_END = false
      /\ Z.of_nat (S k) <> Protocol.maxCodeLen p
      /\ Z.of_nat (S k) <> MAX_SEQUENCE_LENGTH - 2
      /\ open_ok st0 p (S k) u'
  end.

(** The codes [u] follow [k] codes of a sequence of [p] and the last of
    them ends it with an emission. *)
Fixpoint closed_ok (st0 : SignalParser) (p : Protocol) (k : nat) (u : list Code) : Prop :=
  match u with
  | [] => False
  | [c] =>
      member st0 p c
      /\ (has c SP_END = true \/ Z.of_nat (S k) = Protocol.maxCodeLen p)
      /\ Z.of_nat (S k) >= Protocol.minCodeLen p
  | c :: u' =>
      member st0 p c /\ has c SP_END = false
      /\ Z.of_nat (S k) <> Protocol.maxCodeLen p
      /\ Z.of_nat (S k) <> MAX_SEQUENCE_LENGTH - 2
      /\ closed_ok st0 p (S k) u'
  end.

(** The first code of a sequence and the protocol it locks. *)
Definition starts (st0 : SignalParser) (kp : nat) (p : Protocol) (c1 : Code) : Prop :=
  In c1 (_code st0) /\ has c1 SP_START = true
  /\ _findProt st0 (Code.protId c1) = Some kp
  /\ nth_error (_protocol st0) kp = Some p.

(** The sequence in progress in [st], as a list of codes of the table of
    [st0]. *)
Definition trace (st0 st : SignalParser) (w : list Code) : Prop :=
  _seq st = names w /\ _seq_length st = Z.of_nat (List.length w)
  /\ match w with
     | [] => True
     | c1 :: u =>
         exists kp p, starts st0 kp p c1 /\ _seq_protocol st = Some kp
                      /\ open_ok st0 p 1 u
     end.

(** [t] is the text of a completed sequence of codes. *)
Definition sequence_of (st0 : SignalParser) (t : string) (w : list Code) : Prop :=
  exists kp p c1 u,
    w = c1 :: u /\ starts st0 kp p c1 /\ closed_ok st0 p 1 u
    /\ t = snprintf 64 (cstr (Protocol.name p) ++ " " ++ cstr (names w)).

(** A table with two data codes whose windows overlap: ['a'] accepts
    75..125 and ['b'] accepts 90..150. *)
Definition overlap_parser : SignalParser :=
  let st := attachCallback empty_parser true in
  let '(st, id) := newProtocol st "p" 2 10 25 3 in
  let st := newCode st id "s" SP_START 1000 0 0 0 0 0 0 0 in
  let st := newCode st id "a" SP_DATA 100 0 0 0 0 0 0 0 in
  let st := newCode st id "b" SP_DATA 120 0 0 0 0 0 0 0 in
  newCode st id "x" SP_END 5000 0 0 0 0 0 0 0.

(** The state [sp] holds the tables of [st0] and the sequence [w]. *)
Definition at_word (st0 sp : SignalParser) (w : list Code) : Prop :=
  _code sp = _code st0 /\ _protocol sp = _protocol st0
  /\ _callbackFunc sp = _callbackFunc st0 /\ _debugMode sp = _debugMode st0
  /\ _seq sp = names w /\ _seq_length sp = Z.of_nat (List.length w).

(** ** Further functions and notions *)

(** The loop of [strcpyProtname]: at most [len] characters are copied, up
    to the end of the text or the first space. *)
Fixpoint strcpyProtname_loop (len : nat) (s : string) : string :=
  match len, s with
  | S len', String c s' =>
      if Ascii.eqb c NUL || Ascii.eqb c SPACE then EmptyString
      else String c (strcpyProtname_loop len' s')
  | _, _ => EmptyString
  end.

(** [strcpyProtname(target, signal)]: the text written to [target]. *)
Definition strcpyProtname (signal : string) : string :=
  strcpyProtname_loop (Z.to_nat (PROTNAME_LEN - 1)) signal.

(** A code as [newCode] leaves it: at most [MAX_CODELENGTH] slots, both
    arrays filled with 16-bit values up to [length], the counters at
    their start. *)
Definition code_wf (c : Code) : Prop :=
  0 <= Code.length c <= MAX_CODELENGTH
  /\ Z.of_nat (List.length (Code.minTime c)) = Code.length c
  /\ Z.of_nat (List.length (Code.maxTime c)) = Code.length c
  /\ Forall (fun t => 0 <= t < 65536) (Code.minTime c)
  /\ Forall (fun t => 0 <= t < 65536) (Code.maxTime c)
  /\ Code.cnt c = 0 /\ Code.valid c = true.

(** The slot counter of a code with slots stays below its length. *)
Definition counter_in_range (c : Code) : Prop :=
  1 <= Code.length c <= MAX_CODELENGTH -> 0 <= Code.cnt c < Code.length c.

(** The [it2] table in debug mode with no callback attached. *)
Definition it2_no_callback : SignalParser :=
  attachCallback (init (it2_parser 20 40) true) false.

(** The scan of [st] for the duration [d] completes the code [c] when it
    reaches its entry: the entry is valid, the duration is accepted and it
    is the last one of the code. *)
Definition would_complete (st : SignalParser) (d : Z) (c : Code) : bool :=
  Code.valid c && accepts st c d
  && (int8 (int8 (Code.cnt c) + 1) =? Code.length c).

(** The slot that the scan compares next, [i = c->cnt], lies within the
    slots that [newCode] stored in the two arrays. *)
Definition slot_in_range (c : Code) : Prop :=
  0 <= int8 (Code.cnt c) < Code.length c
  /\ Code.length c <= MAX_CODELENGTH
  /\ Z.of_nat (List.length (Code.minTime c)) = Code.length c
  /\ Z.of_nat (List.length (Code.maxTime c)) = Code.length c.

(** A table with one code that has no slot: all its times are 0. *)
Definition zero_slot_parser : SignalParser :=
  let st := attachCallback empty_parser true in
  let '(st, id) := newProtocol st "z" 2 10 25 3 in
  newCode st id "z" SP_START 0 0 0 0 0 0 0 0.


(** The number of raw durations that the attempt in progress has
    accumulated, after the call [parse st d] has led from [st] to [st'],
    when it had accumulated [n] before the call.  A duration that matches
    no code abandons the attempt; with a retry the same duration is the
    first one of a new attempt when a code accepts it from the reset
    state.  A duration that matches is one more duration of the attempt,
    unless the call has closed the sequence, which then is empty again. *)
Definition attempt_next (n : Z) (st : SignalParser) (d : Z) (st' : SignalParser) : Z :=
  if no_match st d then
    if retry_flagged st d && negb (no_match (_resetCode true st) d) then 1 else 0
  else if _seq_length st' <? _seq_length st then 0
  else n + 1.

(** The same number after a run over [ds] from [st], which had
    accumulated [n] durations. *)
Fixpoint attempt_durations (st : SignalParser) (ds : list Z) (n : Z) : Z :=
  match ds with
  | [] => n
  | d :: rest =>
      if d =? 0 then n
      else match parse st d with
           | Done (st', _) => attempt_durations st' rest (attempt_next n st d st')
           | _ => n
           end
  end.

(** * Properties *)

(** Case analysis on the conditions of the conditionals in the goal. *)
Ltac split_ifs :=
  repeat match goal with
         | |- context [if ?b then _ else _] => destruct b
         end.

(** Boolean comparisons in the hypotheses, turned into propositions. *)
Ltac zbool :=
  repeat match goal with
  | H : (_ && _) = true |- _ => apply andb_true_iff in H; destruct H
  | H : (_ || _) = false |- _ => apply orb_false_iff in H; destruct H
  | H : negb _ = true |- _ => apply negb_true_iff in H
  | H : negb _ = false |- _ => apply negb_false_iff in H
  | H : (_ >? _) = _ |- _ => rewrite Z.gtb_ltb in H
  | H : (_ >=? _) = _ |- _ => rewrite Z.geb_leb in H
  | H : (_ <? _) = true |- _ => apply Z.ltb_lt in H
  | H : (_ <? _) = false |- _ => apply Z.ltb_ge in H
  | H : (_ <=? _) = true |- _ => apply Z.leb_le in H
  | H : (_ <=? _) = false |- _ => apply Z.leb_gt in H
  | H : (_ =? _) = true |- _ => apply Z.eqb_eq in H
  | H : (_ =? _) = false |- _ => apply Z.eqb_neq in H
  end.

(** ** Machine integers *)

Lemma uint16_small (x : Z) : 0 <= x <= 65535 -> uint16 x = x.
Proof. intros H. unfold uint16. apply Z.mod_small. lia. Qed.

Lemma uint8_small (x : Z) : 0 <= x <= 255 -> uint8 x = x.
Proof. intros H. unfold uint8. apply Z.mod_small. lia. Qed.

Lemma int8_small (x : Z) : -128 <= x <= 127 -> int8 x = x.
Proof. intros H. unfold int8. rewrite Z.mod_small; lia. Qed.

Lemma rd_nth (a : list Z) (k : nat) : rd a (Z.of_nat k) = nth k a 0.
Proof.
  unfold rd. destruct (Z.of_nat k <? 0) eqn:E.
  - apply Z.ltb_lt in E. lia.
  - now rewrite Nat2Z.id.
Qed.

Lemma nth_map_some {A : Type} (f : A -> Z) (l : list A) (k : nat) (x : A) :
  nth_error l k = Some x -> nth k (map f l) 0 = f x.
Proof.
  revert k. induction l as [|a l IH]; intros [|k] H; simpl in *;
    try discriminate.
  - now inversion H.
  - now apply IH.
Qed.

(** ** The canonical sequence of the example table *)

(** The durations of the start code, two data codes and the end code are
    passed to the callback once, as ["it2 s_#x"], and the parser is idle
    again. *)
Example it2_canonical :
  parse_all (it2_parser 2 40) (code_s ++ code_low ++ code_high ++ code_x)
  = Done (it2_parser 2 40, ["it2 s_#x"%string]).
Proof. vm_compute. reflexivity. Qed.

(** A duration out of every window in the middle of the stream: nothing
    is passed to the callback for this attempt. *)
Example it2_disturbed :
  outputs (parse_all (it2_parser 2 40)
             (code_s ++ code_low ++ [286; 409] ++ code_high ++ code_x))
  = Some [].
Proof. vm_compute. reflexivity. Qed.

(** ** Registration of codes: the stored windows *)

Lemma newCode_appends (st : SignalParser) (protId : Z) (ch : ascii) (type : Z)
    (t1 t2 t3 t4 t5 t6 t7 t8 : Z) (p : Protocol) :
  deref st (_findProt st protId) = Done p ->
  _code (newCode st protId ch type t1 t2 t3 t4 t5 t6 t7 t8)
  = _code st ++ [registered_code protId ch type (Protocol.tolerance p)
                   (slots [t1; t2; t3; t4; t5; t6; t7; t8])].
Proof. intros H. unfold newCode. rewrite H. reflexivity. Qed.

(** Every slot holds the two bounds as 16-bit values. *)
Lemma registered_window_mod (protId : Z) (ch : ascii) (type tol : Z)
    (ts : list Z) (k : nat) (T : Z) :
  nth_error ts k = Some T ->
  rd (Code.minTime (registered_code protId ch type tol ts)) (Z.of_nat k)
  = uint16 (T - radius T tol)
  /\ rd (Code.maxTime (registered_code protId ch type tol ts)) (Z.of_nat k)
     = uint16 (T + radius T tol).
Proof.
  intros H. rewrite !rd_nth. split.
  - now apply (nth_map_some (fun t => uint16 (t - radius t tol))).
  - now apply (nth_map_some (fun t => uint16 (t + radius t tol))).
Qed.

Lemma slot_positive (ts : list Z) (k : nat) (T : Z) :
  nth_error (slots ts) k = Some T -> 0 < T.
Proof.
  intros H. apply nth_error_In in H. unfold slots in H.
  apply filter_In in H. destruct H as [_ H]. lia.
Qed.

(** With a tolerance of at most 100 percent the radius does not exceed
    the base time. *)
Lemma radius_below (T tol : Z) :
  0 < T -> 0 <= tol <= 100 -> T * tol / 100 <= T.
Proof. intros HT Htol. apply Z.div_le_upper_bound; nia. Qed.

(** C8 (as amended).  A code slot registered with base time [T] under a
    protocol with a tolerance of [p] percent is stored with the window
    [[T - T*p/100, T + T*p/100]], the quotient truncated, provided both
    bounds are 16-bit values: [T*p/100 <= T], as for every [p <= 100],
    and [T + T*p/100 <= 65535]. *)
Theorem newCode_window (st : SignalParser) (protId : Z) (ch : ascii) (type : Z)
    (t1 t2 t3 t4 t5 t6 t7 t8 : Z) (p : Protocol) (k : nat) (T : Z) :
  deref st (_findProt st protId) = Done p ->
  nth_error (slots [t1; t2; t3; t4; t5; t6; t7; t8]) k = Some T ->
  0 <= Protocol.tolerance p ->
  T * Protocol.tolerance p / 100 <= T ->
  T + T * Protocol.tolerance p / 100 <= 65535 ->
  exists c,
    _code (newCode st protId ch type t1 t2 t3 t4 t5 t6 t7 t8) = _code st ++ [c]
    /\ rd (Code.minTime c) (Z.of_nat k) = T - T * Protocol.tolerance p / 100
    /\ rd (Code.maxTime c) (Z.of_nat k) = T + T * Protocol.tolerance p / 100.
Proof.
  intros Hp Hk Htol Hlow Hfit.
  pose proof (slot_positive _ _ _ Hk) as Hpos.
  set (tol := Protocol.tolerance p) in *.
  assert (Hq : 0 <= T * tol / 100) by (apply Z.div_pos; nia).
  eexists. split; [apply newCode_appends; exact Hp|].
  destruct (registered_window_mod protId ch type tol _ k T Hk) as [Hmin Hmax].
  fold tol. rewrite Hmin, Hmax. clear Hmin Hmax.
  unfold radius. rewrite (uint16_small (T * tol / 100)) by lia.
  rewrite !uint16_small by lia. split; reflexivity.
Qed.

Lemma newCode_window_witness :
  exists c,
    _code (newCode (fst (newProtocol empty_parser "it2" 20 40 25 3)) 1 "s" SP_START
                   283 2658 0 0 0 0 0 0) = [c]
    /\ rd (Code.minTime c) 1 = 1994
    /\ rd (Code.maxTime c) 1 = 3322.
Proof.
  apply (newCode_window (fst (newProtocol empty_parser "it2" 20 40 25 3)) 1 "s"
           SP_START 283 2658 0 0 0 0 0 0
           (Protocol.mk 1 "it2" 20 40 25 3 0) 1 2658);
    [reflexivity | reflexivity | simpl; lia | vm_compute; discriminate
     | vm_compute; discriminate].
Defined.

(** C8, counterexample.  With the base time 60000 and a tolerance of 25
    percent the upper bound stored is 9464, not 60000 + 15000; with the
    base time 100 and a tolerance of 200 percent the lower bound stored
    is 65436, not 100 - 200. *)
Lemma newCode_window_overflow :
  (exists c,
     _code (newCode (fst (newProtocol empty_parser "p" 1 2 25 3)) 1 "a" SP_START
                    60000 0 0 0 0 0 0 0) = [c]
     /\ rd (Code.minTime c) 0 = 60000 - 60000 * 25 / 100
     /\ rd (Code.maxTime c) 0 = 9464
     /\ rd (Code.maxTime c) 0 <> 60000 + 60000 * 25 / 100)
  /\ (exists c,
        _code (newCode (fst (newProtocol empty_parser "p" 1 2 200 3)) 1 "a" SP_START
                       100 0 0 0 0 0 0 0) = [c]
        /\ rd (Code.minTime c) 0 = 65436
        /\ rd (Code.minTime c) 0 <> 100 - 100 * 200 / 100
        /\ rd (Code.maxTime c) 0 = 100 + 100 * 200 / 100).
Proof.
  split; eexists; (split; [reflexivity|]); repeat split; vm_compute; discriminate.
Qed.

(** ** Registration of protocols *)

Lemma newProtocol_rejects (st : SignalParser) (name : string)
    (minLen maxLen tolerance repeat : Z) :
  minLen > maxLen \/ maxLen >= MAX_SEQUENCE_LENGTH ->
  newProtocol st name minLen maxLen tolerance repeat = (st, 0).
Proof.
  intros H. unfold newProtocol.
  destruct (minLen >? maxLen) eqn:E1; [reflexivity|].
  destruct (maxLen >=? MAX_SEQUENCE_LENGTH) eqn:E2; [reflexivity|].
  zbool. lia.
Qed.

Lemma newProtocol_accepts (st : SignalParser) (name : string)
    (minLen maxLen tolerance repeat : Z) :
  minLen <= maxLen < MAX_SEQUENCE_LENGTH ->
  exists p,
    newProtocol st name minLen maxLen tolerance repeat
    = (set_protocol st (_protocol st ++ [p]),
       uint8 (Z.of_nat (List.length (_protocol st)) + 1))
    /\ Protocol.id p = uint8 (Z.of_nat (List.length (_protocol st)) + 1)
    /\ Protocol.minCodeLen p = minLen /\ Protocol.maxCodeLen p = maxLen
    /\ Protocol.tolerance p = tolerance.
Proof.
  intros H. unfold newProtocol.
  destruct (minLen >? maxLen) eqn:E1; [zbool; lia|].
  destruct (maxLen >=? MAX_SEQUENCE_LENGTH) eqn:E2; [zbool; lia|].
  simpl. eexists. split; [reflexivity|]. repeat split.
Qed.

(** While fewer than 255 protocols are registered the id is the new
    count, which is not 0. *)
Lemma newProtocol_id_nonzero (st : SignalParser) (name : string)
    (minLen maxLen tolerance repeat : Z) :
  minLen <= maxLen < MAX_SEQUENCE_LENGTH ->
  (List.length (_protocol st) < 255)%nat ->
  snd (newProtocol st name minLen maxLen tolerance repeat)
  = Z.of_nat (List.length (_protocol st)) + 1
  /\ snd (newProtocol st name minLen maxLen tolerance repeat) <> 0.
Proof.
  intros H Hn. destruct (newProtocol_accepts st name minLen maxLen tolerance repeat H)
    as (p & -> & _). simpl. rewrite uint8_small by lia. lia.
Qed.

(** C9, at the failing input.  With 255 protocols registered, a call with
    valid bounds appends the 256th protocol and returns 0, the value that
    stands for a rejected registration. *)
Theorem newProtocol_256th_returns_0 :
  1 <= 2 < MAX_SEQUENCE_LENGTH
  /\ List.length (_protocol (register_many 255 empty_parser)) = 255%nat
  /\ List.length (_protocol (fst (newProtocol (register_many 255 empty_parser)
                                              "p" 1 2 25 3))) = 256%nat
  /\ snd (newProtocol (register_many 255 empty_parser) "p" 1 2 25 3) = 0.
Proof. vm_compute. repeat split; discriminate. Qed.

(** ** The acceptance of a duration by one code *)





(** ** The retry of [parse] *)

Lemma reset_counters_zero (all : bool) (st : SignalParser) :
  counters_zero (_code (_resetCode all st)).
Proof.
  unfold counters_zero, _resetCode. destruct all; simpl;
    apply Forall_forall; intros c Hc; apply in_map_iff in Hc;
    destruct Hc as (c0 & <- & _); reflexivity.
Qed.

(** A code at its first slot never asks for a retry. *)
Lemma check_first_slot (st : SignalParser) (c : Code) (d : Z) (v r : bool) :
  Code.cnt c = 0 -> check st c d = Done (v, r) -> r = false.
Proof.
  intros H0 H. unfold check in H. rewrite H0 in H.
  change (int8 0 >? 0) with false in H. simpl andb in H.
  destruct (deref st (_seq_protocol st)) as [p| |]; simpl bind in H;
    repeat match type of H with
           | context [if ?b then _ else _] => destruct b; simpl bind in H
           end;
    congruence.
Qed.

Lemma check_terminates (st : SignalParser) (c : Code) (d : Z) :
  check st c d <> OutOfFuel.
Proof.
  unfold check.
  destruct ((_seq_length st =? 0) && negb (has c SP_START)); [discriminate|].
  assert (Hd : deref st (_seq_protocol st) <> OutOfFuel).
  { unfold deref. destruct (_seq_protocol st) as [k|]; [|discriminate].
    destruct (nth_error (_protocol st) k); discriminate. }
  destruct (_seq_length st >? 0).
  - destruct (deref st (_seq_protocol st)) as [p| |]; simpl;
      [|discriminate|congruence].
    split_ifs; discriminate.
  - simpl. split_ifs; discriminate.
Qed.

Lemma scan_terminates (st : SignalParser) (d : Z) (todo : list Code) (loc : Locals) :
  scan st d todo loc <> OutOfFuel.
Proof.
  revert loc. induction todo as [|c rest IH]; intros loc; simpl; [discriminate|].
  destruct (Code.valid c).
  - pose proof (check_terminates st c d) as Hc.
    destruct (check st c d) as [[v r]| |]; simpl; [|discriminate|congruence].
    destruct v.
    + destruct (_ =? _); [discriminate|].
      specialize (IH (set_matched (raise_retry loc r))).
      destruct (scan st d rest _) as [[cs l]| |]; simpl; congruence.
    + specialize (IH (raise_retry loc r)).
      destruct (scan st d rest _) as [[cs l]| |]; simpl; congruence.
  - specialize (IH loc).
    destruct (scan st d rest _) as [[cs l]| |]; simpl; congruence.
Qed.

(** A scan over codes that are all at their first slot leaves
    [retryCandidate] as it was. *)
Lemma scan_no_retry (st : SignalParser) (d : Z) (todo : list Code) :
  counters_zero todo ->
  forall loc cs loc',
    scan st d todo loc = Done (cs, loc') ->
    retryCandidate loc' = retryCandidate loc.
Proof.
  induction 1 as [|c rest Hc Hrest IH]; intros loc cs loc' H; simpl in H.
  - now inversion H.
  - destruct (Code.valid c).
    + destruct (check st c d) as [[v r]| |] eqn:Ec; simpl in H; try discriminate.
      apply check_first_slot in Ec; [|exact Hc]. subst r.
      assert (Hr : raise_retry loc false = loc)
        by (destruct loc; unfold raise_retry; simpl; now rewrite orb_false_r).
      rewrite Hr in H. destruct v.
      * destruct (_ =? _); [now inversion H|].
        destruct (scan st d rest (set_matched loc)) as [[cs1 l1]| |] eqn:Es;
          simpl in H; try discriminate.
        inversion H; subst. now rewrite (IH _ _ _ Es).
      * destruct (scan st d rest loc) as [[cs1 l1]| |] eqn:Es;
          simpl in H; try discriminate.
        inversion H; subst. now apply (IH _ _ _ Es).
    + destruct (scan st d rest loc) as [[cs1 l1]| |] eqn:Es;
        simpl in H; try discriminate.
      inversion H; subst. now apply (IH _ _ _ Es).
Qed.

Lemma scan_codes_terminates (st : SignalParser) (d : Z) :
  scan_codes st d <> OutOfFuel.
Proof.
  unfold scan_codes. pose proof (scan_terminates st d (_code st) locals0) as H.
  destruct (scan st d (_code st) locals0) as [[cs loc]| |]; simpl;
    [|discriminate|congruence].
  destruct (foundCode loc); discriminate.
Qed.

Lemma scan_codes_no_retry (st st1 : SignalParser) (d : Z) (loc : Locals) :
  counters_zero (_code st) ->
  scan_codes st d = Done (st1, loc) -> retryCandidate loc = false.
Proof.
  intros H0 H. unfold scan_codes in H.
  destruct (scan st d (_code st) locals0) as [[cs l]| |] eqn:Es;
    simpl in H; try discriminate.
  apply (scan_no_retry st d _ H0) in Es. simpl in Es.
  destruct (foundCode l); inversion H; subst; exact Es.
Qed.

Lemma found_code_terminates (st : SignalParser) (fc : Code) :
  found_code st fc <> OutOfFuel.
Proof.
  unfold found_code.
  assert (Hd : deref st (_seq_protocol st) <> OutOfFuel).
  { unfold deref. destruct (_seq_protocol st) as [k|]; [|discriminate].
    destruct (nth_error (_protocol st) k); discriminate. }
  destruct (deref st (_seq_protocol st)) as [p| |]; [| |congruence];
    split_ifs; simpl; split_ifs; simpl; discriminate.
Qed.

(** One level of [parse]. *)
Lemma parse_fuel_S (fuel : nat) (st : SignalParser) (d : Z) :
  parse_fuel (S fuel) st d
  = match _protocol st with
    | [] => Done (st, [])
    | _ :: _ =>
        '(st1, loc) <- scan_codes st d ;;
        if negb (matched loc) then
          out <- (if _debugMode st1 && (_seq_length st1 >? 10)
                  then if _callbackFunc st1 then Done [diag_text st1] else Fault
                  else Done []) ;;
          let st2 := _resetCode true st1 in
          if retryCandidate loc then
            '(st3, out') <- parse_fuel fuel st2 d ;;
            Done (st3, out ++ out')
          else Done (st2, out)
        else
          let st2 := set_seq_codelength st1 (uint8 (_seq_codelength st1 + 1)) in
          match foundCode loc with
          | Some fc => found_code st2 fc
          | None => Done (st2, [])
          end
    end.
Proof. reflexivity. Qed.

(** From a state with all counters at zero one level of [parse] is enough. *)
Lemma parse_fuel_first_slots (n : nat) (st : SignalParser) (d : Z) :
  counters_zero (_code st) ->
  parse_fuel (S n) st d = parse_fuel 1 st d /\ parse_fuel 1 st d <> OutOfFuel.
Proof.
  intros H0. rewrite (parse_fuel_S n), (parse_fuel_S 0).
  destruct (_protocol st); [split; [reflexivity|discriminate]|].
  pose proof (scan_codes_terminates st d) as Ht.
  destruct (scan_codes st d) as [[st1 loc]| |] eqn:Es; simpl;
    [|split; [reflexivity|discriminate]|congruence].
  rewrite (scan_codes_no_retry _ _ _ _ H0 Es).
  split; [reflexivity|].
  destruct (negb (matched loc)).
  - destruct (_debugMode st1 && (_seq_length st1 >? 10));
      [destruct (_callbackFunc st1)|]; simpl; discriminate.
  - destruct (foundCode loc); [apply found_code_terminates|discriminate].
Qed.

(** C6.  The full reset before the retry leaves every slot counter at
    zero; a scan from such a state does not flag a retry; so the call of
    [parse] from within [parse] never calls [parse] again: two levels
    are enough for every state and duration, and [parse] returns. *)
Theorem parse_retries_once (st : SignalParser) (d : Z) :
  counters_zero (_code (_resetCode true st))
  /\ (forall st1 loc, scan_codes (_resetCode true st) d = Done (st1, loc) ->
                      retryCandidate loc = false)
  /\ (forall n, parse_fuel (S (S n)) st d = parse st d)
  /\ parse st d <> OutOfFuel.
Proof.
  split; [apply reset_counters_zero|].
  split; [intros st1 loc; apply scan_codes_no_retry, reset_counters_zero|].
  assert (Hin : forall n s, counters_zero (_code s) ->
                  parse_fuel (S n) s d = parse_fuel 1 s d)
    by (intros n s Hs; now apply parse_fuel_first_slots).
  split.
  - intros n. unfold parse. rewrite (parse_fuel_S (S n)), (parse_fuel_S 1).
    destruct (_protocol st); [reflexivity|].
    destruct (scan_codes st d) as [[st1 loc]| |]; cbn [bind]; try reflexivity.
    destruct (negb (matched loc)); [|reflexivity].
    destruct (if _debugMode st1 && (_seq_length st1 >? 10)
              then if _callbackFunc st1 then Done [diag_text st1] else Fault
              else Done []) as [out| |]; cbn [bind]; try reflexivity.
    destruct (retryCandidate loc); [|reflexivity].
    rewrite (Hin n) by apply reset_counters_zero. reflexivity.
  - unfold parse. rewrite (parse_fuel_S 1). destruct (_protocol st); [discriminate|].
    pose proof (scan_codes_terminates st d) as Ht.
    destruct (scan_codes st d) as [[st1 loc]| |]; cbn [bind]; [|discriminate|congruence].
    destruct (negb (matched loc)).
    + destruct (if _debugMode st1 && (_seq_length st1 >? 10)
                then if _callbackFunc st1 then Done [diag_text st1] else Fault
                else Done []) as [out| |] eqn:Eo; cbn [bind]; try discriminate.
      * destruct (retryCandidate loc); [|discriminate].
        destruct (parse_fuel_first_slots 0 (_resetCode true st1) d
                    (reset_counters_zero true st1)) as [_ Hne].
        destruct (parse_fuel 1 (_resetCode true st1) d) as [[s3 o3]| |];
          simpl; congruence.
      * destruct (_debugMode st1 && (_seq_length st1 >? 10));
          [destruct (_callbackFunc st1)|]; discriminate.
    + destruct (foundCode loc); [apply found_code_terminates|discriminate].
Qed.

(** ** What the scan leaves unchanged *)

(** A scan that ends without a match has found no code. *)
Lemma scan_unmatched (st : SignalParser) (d : Z) (todo : list Code) :
  forall loc cs loc',
    scan st d todo loc = Done (cs, loc') -> matched loc' = false ->
    matched loc = false /\ foundCode loc' = foundCode loc.
Proof.
  induction todo as [|c rest IH]; intros loc cs loc' H Hm; simpl in H.
  - inversion H; subst. now split.
  - destruct (Code.valid c).
    + destruct (check st c d) as [[v r]| |]; simpl in H; try discriminate.
      destruct v.
      * destruct (_ =? _).
        -- inversion H; subst. simpl in Hm. discriminate.
        -- destruct (scan st d rest _) as [[cs1 l1]| |] eqn:Es;
             simpl in H; try discriminate.
           inversion H; subst. destruct (IH _ _ _ Es Hm) as [Hx _].
           simpl in Hx. discriminate.
      * destruct (scan st d rest _) as [[cs1 l1]| |] eqn:Es;
          simpl in H; try discriminate.
        inversion H; subst. destruct (IH _ _ _ Es Hm) as [Hx Hy].
        split; [exact Hx | exact Hy].
    + destruct (scan st d rest loc) as [[cs1 l1]| |] eqn:Es;
        simpl in H; try discriminate.
      inversion H; subst. now apply (IH _ _ _ Es).
Qed.

(** After a scan without a match only the code table has changed. *)
Lemma scan_codes_unmatched (st st1 : SignalParser) (d : Z) (loc : Locals) :
  scan_codes st d = Done (st1, loc) -> matched loc = false ->
  foundCode loc = None /\ exists cs, st1 = set_code st cs.
Proof.
  intros H Hm. unfold scan_codes in H.
  destruct (scan st d (_code st) locals0) as [[cs l]| |] eqn:Es;
    simpl in H; try discriminate.
  assert (Hl : l = loc) by (destruct (foundCode l); now inversion H). subst l.
  destruct (scan_unmatched _ _ _ _ _ _ Es Hm) as [_ Hf]. simpl in Hf.
  rewrite Hf in H. inversion H; subst. split; [exact Hf | now exists cs].
Qed.

Lemma scan_codes_inv (st st1 : SignalParser) (d : Z) (loc : Locals) :
  scan_codes st d = Done (st1, loc) ->
  exists cs,
    scan st d (_code st) locals0 = Done (cs, loc)
    /\ st1 = match foundCode loc with
             | Some c =>
                 _resetCode false
                   (set_seq (set_code st cs) (snoc (_seq st) (Code.name c))
                            (uint8 (_seq_length st + 1)))
             | None => set_code st cs
             end.
Proof.
  intros H. unfold scan_codes in H.
  destruct (scan st d (_code st) locals0) as [[cs l]| |] eqn:Es;
    simpl in H; try discriminate.
  exists cs. destruct (foundCode l) eqn:Ef; inversion H; subst;
    rewrite Ef; split; reflexivity.
Qed.

(** While the sequence is empty the scan dereferences no pointer. *)
Lemma check_idle (st : SignalParser) (c : Code) (d : Z) :
  _seq_length st = 0 -> check st c d <> Fault.
Proof.
  intros Hl. unfold check. rewrite Hl. simpl.
  split_ifs; simpl; split_ifs; discriminate.
Qed.

Lemma scan_idle (st : SignalParser) (d : Z) (todo : list Code) (loc : Locals) :
  _seq_length st = 0 -> scan st d todo loc <> Fault.
Proof.
  intros Hl. revert loc. induction todo as [|c rest IH]; intros loc; simpl;
    [discriminate|].
  destruct (Code.valid c).
  - pose proof (check_idle st c d Hl) as Hc.
    destruct (check st c d) as [[v r]| |]; simpl; [|congruence|discriminate].
    destruct v.
    + destruct (_ =? _); [discriminate|].
      specialize (IH (set_matched (raise_retry loc r))).
      destruct (scan st d rest _) as [[cs l]| |]; simpl; congruence.
    + specialize (IH (raise_retry loc r)).
      destruct (scan st d rest _) as [[cs l]| |]; simpl; congruence.
  - specialize (IH loc).
    destruct (scan st d rest _) as [[cs l]| |]; simpl; congruence.
Qed.

(** From the idle state a duration is processed without a fault and
    produces no callback. *)
Lemma parse_idle_silent (st : SignalParser) (d : Z) :
  _seq_length st = 0 -> counters_zero (_code st) ->
  exists st', parse_fuel 1 st d = Done (st', []).
Proof.
  intros Hl H0. rewrite parse_fuel_S.
  destruct (_protocol st); [now eexists|].
  unfold scan_codes at 1.
  pose proof (scan_idle st d (_code st) locals0 Hl) as Hnf.
  pose proof (scan_terminates st d (_code st) locals0) as Hnt.
  destruct (scan st d (_code st) locals0) as [[cs loc]| |] eqn:Es;
    [|congruence|congruence].
  pose proof (scan_no_retry st d _ H0 _ _ _ Es) as Hr. simpl in Hr.
  cbn [bind]. destruct (foundCode loc) as [fc|] eqn:Ef; cbn [bind].
  - destruct (matched loc) eqn:Em.
    + cbn [negb]. rewrite Ef. unfold found_code. simpl. rewrite Hl.
      change (uint8 (0 + 1) =? 1) with true. cbn iota.
      destruct (negb (has fc SP_START)); now eexists.
    + destruct (scan_unmatched _ _ _ _ _ _ Es Em) as [_ Hx].
      simpl in Hx. congruence.
  - destruct (matched loc) eqn:Em; cbn [negb].
    + rewrite Ef. now eexists.
    + simpl. rewrite Hl, Hr. rewrite andb_false_r. simpl. now eexists.
Qed.

(** ** The diagnostic of an aborted attempt *)

Lemma take_all (n : nat) (s : string) : (String.length s <= n)%nat -> take n s = s.
Proof.
  revert n. induction s as [|c s IH]; intros [|n] H; simpl in *;
    try reflexivity; try lia.
  f_equal. apply IH. lia.
Qed.

Lemma length_append (s1 s2 : string) :
  String.length (s1 ++ s2) = (String.length s1 + String.length s2)%nat.
Proof. induction s1 as [|c s1 IH]; simpl; [reflexivity | now rewrite IH]. Qed.

Lemma decimal_uint8_short (z : Z) :
  0 <= z <= 255 -> (String.length (decimal z) <= 3)%nat.
Proof.
  intros H.
  assert (Hall : forallb (fun n => (String.length (decimal (Z.of_nat n)) <=? 3)%nat)
                         (seq 0 256) = true) by (vm_compute; reflexivity).
  rewrite forallb_forall in Hall.
  specialize (Hall (Z.to_nat z)). rewrite Z2Nat.id in Hall by lia.
  apply Nat.leb_le, Hall, in_seq. lia.
Qed.

(** For 8-bit counters the diagnostic text is not cut by its buffer. *)
Lemma diag_text_full (st : SignalParser) :
  0 <= _seq_codelength st <= 255 -> 0 <= _seq_length st <= 255 ->
  diag_text st
  = ("*" ++ decimal (_seq_codelength st) ++ "," ++ decimal (_seq_length st))%string.
Proof.
  intros H1 H2. unfold diag_text, snprintf. apply take_all.
  pose proof (decimal_uint8_short _ H1). pose proof (decimal_uint8_short _ H2).
  simpl. rewrite length_append. simpl. lia.
Qed.

Lemma no_match_inv (st : SignalParser) (d : Z) :
  no_match st d = true ->
  exists st1 loc, scan_codes st d = Done (st1, loc) /\ matched loc = false.
Proof.
  unfold no_match. destruct (scan_codes st d) as [[st1 loc]| |]; try discriminate.
  intros H. exists st1, loc. split; [reflexivity|]. now apply negb_true_iff.
Qed.

(** In debug mode, with a callback attached, a duration that no live
    candidate accepts makes [parse] pass the diagnostic text to the
    callback exactly when the sequence holds more than 10 characters. *)
Lemma abort_text (st : SignalParser) (d : Z) :
  _protocol st <> [] -> no_match st d = true ->
  _debugMode st = true -> _callbackFunc st = true ->
  outputs (parse st d)
  = Some (if _seq_length st >? 10 then [diag_text st] else []).
Proof.
  intros Hp Hno Hdbg Hcb. destruct (no_match_inv _ _ Hno) as (st1 & loc & Es & Em).
  unfold parse. rewrite parse_fuel_S.
  destruct (_protocol st) as [|p0 ps]; [congruence|].
  rewrite Es. cbn [bind]. rewrite Em. cbn [negb].
  destruct (scan_codes_unmatched _ _ _ _ Es Em) as [_ [cs Hst1]]. subst st1.
  change (_debugMode (set_code st cs)) with (_debugMode st).
  change (_callbackFunc (set_code st cs)) with (_callbackFunc st).
  change (_seq_length (set_code st cs)) with (_seq_length st).
  change (diag_text (set_code st cs)) with (diag_text st).
  rewrite Hdbg, Hcb. cbn [andb]. cbv zeta.
  destruct (retryCandidate loc).
  - destruct (parse_idle_silent (_resetCode true (set_code st cs)) d
                eq_refl (reset_counters_zero true _)) as [s3 E3].
    destruct (_seq_length st >? 10); cbn [bind]; rewrite E3; cbn [bind outputs];
      now rewrite ?app_nil_r.
  - destruct (_seq_length st >? 10); reflexivity.
Qed.

(** ** The end of a sequence *)

(** The scan changes nothing but the counters and the flags of the
    codes. *)
Lemma scan_reset (st : SignalParser) (d : Z) (todo : list Code) :
  forall loc cs loc',
    scan st d todo loc = Done (cs, loc') ->
    map reset_one cs = map reset_one todo.
Proof.
  induction todo as [|c rest IH]; intros loc cs loc' H; simpl in H.
  - now inversion H.
  - destruct (Code.valid c).
    + destruct (check st c d) as [[v r]| |]; simpl in H; try discriminate.
      destruct v.
      * destruct (_ =? _).
        -- inversion H; subst. reflexivity.
        -- destruct (scan st d rest _) as [[cs1 l1]| |] eqn:Es;
             simpl in H; try discriminate.
           inversion H; subst. simpl. f_equal. now apply (IH _ _ _ Es).
      * destruct (scan st d rest _) as [[cs1 l1]| |] eqn:Es;
          simpl in H; try discriminate.
        inversion H; subst. simpl. f_equal. now apply (IH _ _ _ Es).
    + destruct (scan st d rest loc) as [[cs1 l1]| |] eqn:Es;
        simpl in H; try discriminate.
      inversion H; subst. simpl. f_equal. now apply (IH _ _ _ Es).
Qed.

Lemma reset_one_idem (c : Code) : reset_one (reset_one c) = reset_one c.
Proof. reflexivity. Qed.

Lemma map_reset_idem (cs : list Code) :
  map reset_one (map reset_one cs) = map reset_one cs.
Proof. rewrite map_map. apply map_ext. intros c. apply reset_one_idem. Qed.

(** A full reset after the scan is the full reset of the state before. *)
Lemma scan_codes_reset (st st1 : SignalParser) (d : Z) (loc : Locals) :
  scan_codes st d = Done (st1, loc) ->
  _resetCode true st1 = _resetCode true st.
Proof.
  intros H. destruct (scan_codes_inv _ _ _ _ H) as (cs & Es & ->).
  apply scan_reset in Es. unfold _resetCode.
  destruct (foundCode loc); simpl; rewrite ?map_reset_idem, Es; reflexivity.
Qed.

(** A scan that finds a code has matched. *)
Lemma scan_found_matched (st : SignalParser) (d : Z) (cs : list Code)
    (loc : Locals) (fc : Code) :
  scan st d (_code st) locals0 = Done (cs, loc) ->
  foundCode loc = Some fc -> matched loc = true.
Proof.
  intros Es Ef. destruct (matched loc) eqn:Em; [reflexivity|].
  destruct (scan_unmatched _ _ _ _ _ _ Es Em) as [_ Hx]. simpl in Hx. congruence.
Qed.

(** The last code of a sequence: [found_code] with more than one
    character in the sequence, for an end code or at [maxCodeLen]. *)
Lemma found_code_last (st : SignalParser) (fc : Code) (p : Protocol) :
  _seq_length st <> 1 ->
  deref st (_seq_protocol st) = Done p ->
  has fc SP_END = true \/ _seq_length st = Protocol.maxCodeLen p ->
  found_code st fc
  = Done (_resetCode true st,
          if _callbackFunc st && (_seq_length st >=? Protocol.minCodeLen p)
          then [sequence_text p st] else []).
Proof.
  intros H1 Hp Hlast. unfold found_code.
  destruct (_seq_length st =? 1) eqn:E1; [zbool; congruence|].
  rewrite Hp. cbn [bind].
  assert (Hl : (if has fc SP_END then Done true
                else Done (_seq_length st =? Protocol.maxCodeLen p))
               = @Done bool true).
  { destruct (has fc SP_END); [reflexivity|].
    destruct Hlast as [Hx | Hx]; [discriminate|]. now rewrite Hx, Z.eqb_refl. }
  rewrite Hl. cbn [bind].
  destruct (_callbackFunc st); cbn [bind andb]; reflexivity.
Qed.

Lemma cstr_no_nul (s : string) : no_nul s = true -> cstr s = s.
Proof.
  unfold cstr. induction s as [|c s IH]; simpl; [reflexivity|].
  intros H. zbool. rewrite H. f_equal. now apply IH.
Qed.

(** The text is [<name> <characters>] when it fits the buffer. *)
Lemma sequence_text_full (p : Protocol) (st : SignalParser) :
  no_nul (Protocol.name p) = true -> no_nul (_seq st) = true ->
  (String.length (Protocol.name p) + 1 + String.length (_seq st) <= 63)%nat ->
  sequence_text p st = (Protocol.name p ++ " " ++ _seq st)%string.
Proof.
  intros Hn Hs Hlen. unfold sequence_text, snprintf.
  rewrite !cstr_no_nul by assumption. apply take_all.
  rewrite length_append. simpl. lia.
Qed.

(** A code that completes while the sequence holds at least one
    character, being an end code or bringing the sequence to
    [maxCodeLen]: [parse] passes the text of the sequence to the callback
    if and only if a callback is attached and the sequence has at least
    [minCodeLen] characters, and resets the parser completely. *)
Lemma parse_last_code (st st1 : SignalParser) (d : Z) (loc : Locals)
    (fc : Code) (p : Protocol) :
  _protocol st <> [] ->
  scan_codes st d = Done (st1, loc) -> foundCode loc = Some fc ->
  1 <= _seq_length st <= 254 ->
  deref st (_seq_protocol st) = Done p ->
  has fc SP_END = true \/ _seq_length st + 1 = Protocol.maxCodeLen p ->
  parse st d
  = Done (_resetCode true st,
          if _callbackFunc st && (_seq_length st + 1 >=? Protocol.minCodeLen p)
          then [snprintf 64 (cstr (Protocol.name p) ++ " "
                             ++ cstr (snoc (_seq st) (Code.name fc)))]
          else []).
Proof.
  intros Hne Es Ef Hlen Hp Hlast.
  pose proof (scan_codes_reset _ _ _ _ Es) as Hreset.
  destruct (scan_codes_inv _ _ _ _ Es) as (cs & Hscan & Hst1).
  pose proof (scan_found_matched _ _ _ _ _ Hscan Ef) as Hm.
  unfold parse. rewrite parse_fuel_S.
  destruct (_protocol st) as [|p0 ps] eqn:Eprot; [congruence|].
  rewrite Es. cbn [bind]. rewrite Hm, Ef. cbn [negb]. cbv zeta.
  rewrite Ef in Hst1.
  set (st2 := set_seq_codelength st1 (uint8 (_seq_codelength st1 + 1))).
  assert (Hl2 : _seq_length st2 = _seq_length st + 1).
  { subst st2 st1. simpl. apply uint8_small. lia. }
  assert (Hs2 : _seq st2 = snoc (_seq st) (Code.name fc)) by (subst st2 st1; reflexivity).
  assert (Hp2 : deref st2 (_seq_protocol st2) = Done p) by (subst st2 st1; exact Hp).
  assert (Hc2 : _callbackFunc st2 = _callbackFunc st) by (subst st2 st1; reflexivity).
  assert (Hr2 : _resetCode true st2 = _resetCode true st).
  { rewrite <- Hreset. subst st2. reflexivity. }
  rewrite (found_code_last st2 fc p); [| lia | exact Hp2 | rewrite Hl2; exact Hlast].
  rewrite Hr2, Hc2, Hl2. unfold sequence_text. rewrite Hs2. reflexivity.
Qed.

(** C1, at the failing input.  The protocol [it2] with [minCodeLen] 20
    and [maxCodeLen] 100; the start code, 68 data codes and the first
    duration of the end code have been fed, so that the sequence holds 69
    characters.  The last duration completes the end code.  The text
    passed to the callback is cut after 63 characters: it is not the
    name, a space and the 70 code characters. *)
Theorem sequence_text_cut_at_63 :
  let st := run (it2_parser 20 100) (code_s ++ times 68 code_high ++ [286]) in
  _seq st = ("s" ++ replicate 68 "#")%string
  /\ _seq_length st = 69
  /\ outputs (parse st 10000) = Some [("it2 s" ++ replicate 58 "#")%string]
  /\ ("it2 s" ++ replicate 58 "#")%string
     <> ("it2 " ++ snoc (_seq st) "x")%string
  /\ final (parse st 10000) = Some (_resetCode true st).
Proof.
  vm_compute. repeat split. discriminate.
Qed.

(** ** The composer *)

(** With the protocol found and a space in the text, [compose] writes what
    its loop writes and the terminating 0. *)
Lemma compose_resolved (st : SignalParser) (sequence s : string) (len : Z)
    (k : nat) (p : Protocol) :
  _findProt_name st (upto SPACE (take 11 sequence)) = Some k ->
  nth_error (_protocol st) k = Some p ->
  after SPACE sequence = Some s ->
  compose st sequence true len
  = Done (compose_loop st (Protocol.id p) s len ++ [0]).
Proof.
  intros Hk Hp Hs. unfold compose, deref. now rewrite Hk, Hp, Hs.
Qed.

(** The timings of one code character: the midpoints of the code found
    for it, nothing when there is none. *)
Lemma compose_loop_step (st : SignalParser) (protId : Z) (ch : ascii)
    (s : string) (len : Z) :
  ch <> NUL -> len <> 0 ->
  compose_loop st protId (String ch s) len
  = match _findCode st protId ch with
    | Some c => midpoints c
    | None => []
    end ++ compose_loop st protId s (len - 1).
Proof.
  intros Hc Hl. simpl.
  destruct (Ascii.eqb ch NUL) eqn:E; [apply Ascii.eqb_eq in E; congruence|].
  destruct (len =? 0) eqn:E0; [zbool; congruence|]. reflexivity.
Qed.

(** The loop ends when [len] characters have been processed, whatever
    the number of timings written for them. *)
Lemma compose_loop_stops (st : SignalParser) (protId : Z) (s : string) :
  compose_loop st protId s 0 = [].
Proof. destruct s as [|ch s]; simpl; [reflexivity|]. now rewrite orb_true_r. Qed.

(** C7, at the failing input.  With [len] = 1 and a text whose first
    code character has two slots, [compose] writes two timings before the
    terminating 0; with [len] = 2 it writes six. *)
Theorem compose_len_counts_characters :
  compose (it2_parser 20 40) "it2 s#_" true 1 = Done [283; 2658; 0]
  /\ compose (it2_parser 20 40) "it2 s#_" true 2
     = Done [283; 2658; 286; 1269; 287; 267; 0].
Proof. vm_compute. split; reflexivity. Qed.

(** ** The tables are not changed by the matcher *)

Lemma Done_pair_inv {A B : Type} (a a' : A) (b b' : B) :
  Done (a, b) = Done (a', b') -> a = a' /\ b = b'.
Proof. intros H. now inversion H. Qed.

Ltac done_inv H :=
  apply Done_pair_inv in H; let H1 := fresh in let H2 := fresh in
  destruct H as [H1 H2]; try subst.

(** The same, replacing only the two results. *)
Ltac subst_rhs H :=
  match type of H with
  | _ = ?x => is_var x; subst x
  | _ => idtac
  end.

Ltac done_res H :=
  apply Done_pair_inv in H; let H1 := fresh in let H2 := fresh in
  destruct H as [H1 H2]; subst_rhs H1; subst_rhs H2.

Lemma found_code_reset (st st' : SignalParser) (fc : Code) (out : list string) :
  found_code st fc = Done (st', out) -> _resetCode true st' = _resetCode true st.
Proof.
  unfold found_code. intros H.
  assert (Hrr : _resetCode true (_resetCode true st) = _resetCode true st).
  { unfold _resetCode. simpl. now rewrite map_reset_idem. }
  destruct (_seq_length st =? 1).
  - destruct (negb (has fc SP_START)); done_inv H; [exact Hrr | reflexivity].
  - destruct (if has fc SP_END then Done true
              else p <- deref st (_seq_protocol st);;
                   Done (_seq_length st =? Protocol.maxCodeLen p))
      as [last| |]; cbn [bind] in H; try discriminate.
    destruct last.
    + destruct (if _callbackFunc st
                then p <- deref st (_seq_protocol st);;
                     Done (if _seq_length st >=? Protocol.minCodeLen p
                           then [sequence_text p st] else [])
                else Done []) as [o| |]; cbn [bind] in H; try discriminate.
      done_inv H. exact Hrr.
    + destruct (_seq_length st =? MAX_SEQUENCE_LENGTH - 2);
        done_inv H; [exact Hrr | reflexivity].
Qed.

Lemma reset_reset (st : SignalParser) :
  _resetCode true (_resetCode true st) = _resetCode true st.
Proof. unfold _resetCode. simpl. now rewrite map_reset_idem. Qed.

Lemma parse_fuel_reset (fuel : nat) :
  forall (st st' : SignalParser) (d : Z) (out : list string),
    parse_fuel fuel st d = Done (st', out) ->
    _resetCode true st' = _resetCode true st.
Proof.
  induction fuel as [|fuel IH]; intros st st' d out H; [discriminate|].
  rewrite parse_fuel_S in H.
  destruct (_protocol st); [now done_inv H|].
  destruct (scan_codes st d) as [[st1 loc]| |] eqn:Es; cbn [bind] in H;
    try discriminate.
  pose proof (scan_codes_reset _ _ _ _ Es) as Hr.
  destruct (negb (matched loc)).
  - destruct (if _debugMode st1 && (_seq_length st1 >? 10)
              then if _callbackFunc st1 then Done [diag_text st1] else Fault
              else Done []) as [o| |]; cbn [bind] in H; try discriminate.
    cbv zeta in H. destruct (retryCandidate loc).
    + destruct (parse_fuel fuel (_resetCode true st1) d) as [[s3 o3]| |] eqn:E3;
        cbn [bind] in H; try discriminate.
      done_inv H. rewrite (IH _ _ _ _ E3), reset_reset. exact Hr.
    + done_inv H. rewrite reset_reset. exact Hr.
  - cbv zeta in H. destruct (foundCode loc) as [fc|].
    + rewrite (found_code_reset _ _ _ _ H). rewrite <- Hr. reflexivity.
    + done_inv H. rewrite <- Hr. reflexivity.
Qed.

Lemma parse_all_reset (ds : list Z) :
  forall (st st' : SignalParser) (out : list string),
    parse_all st ds = Done (st', out) ->
    _resetCode true st' = _resetCode true st.
Proof.
  induction ds as [|d ds IH]; intros st st' out H; simpl in H.
  - now done_inv H.
  - destruct (d =? 0); [now done_inv H|].
    destruct (parse st d) as [[st1 o1]| |] eqn:E1; cbn [bind] in H; try discriminate.
    destruct (parse_all st1 ds) as [[st2 o2]| |] eqn:E2; cbn [bind] in H;
      try discriminate.
    done_inv H. rewrite (IH _ _ _ E2). now apply (parse_fuel_reset 2 _ _ d o1).
Qed.

(** A retry is flagged only while the sequence is empty. *)
Lemma scan_retry_empty (st : SignalParser) (d : Z) (todo : list Code) :
  forall loc cs loc',
    scan st d todo loc = Done (cs, loc') -> retryCandidate loc' = true ->
    retryCandidate loc = true \/ _seq_length st = 0.
Proof.
  assert (Hc : forall c v r, check st c d = Done (v, r) -> r = true ->
                             _seq_length st = 0).
  { intros c v r H Hr. unfold check in H.
    destruct (deref st (_seq_protocol st)) as [p| |]; simpl bind in H;
      repeat match type of H with
             | context [if ?b then _ else _] => destruct b eqn:?; simpl bind in H
             end;
      inversion H; subst; try discriminate; zbool; assumption. }
  induction todo as [|c rest IH]; intros loc cs loc' H Hr; simpl in H.
  - inversion H; subst. now left.
  - destruct (Code.valid c).
    + destruct (check st c d) as [[v r]| |] eqn:Ec; simpl in H; try discriminate.
      assert (Hrr : retryCandidate (raise_retry loc r) = true \/
                    _seq_length st = 0 ->
                    retryCandidate loc = true \/ _seq_length st = 0).
      { intros [Hx | Hx]; [|now right]. simpl in Hx.
        apply orb_true_iff in Hx. destruct Hx as [Hx | Hx]; [now left|].
        right. now apply (Hc c v r). }
      destruct v.
      * destruct (_ =? _).
        -- inversion H; subst. apply Hrr. left. exact Hr.
        -- destruct (scan st d rest _) as [[cs1 l1]| |] eqn:Es;
             simpl in H; try discriminate.
           inversion H; subst. apply Hrr. apply (IH _ _ _ Es Hr).
      * destruct (scan st d rest _) as [[cs1 l1]| |] eqn:Es;
          simpl in H; try discriminate.
        inversion H; subst. apply Hrr. apply (IH _ _ _ Es Hr).
    + destruct (scan st d rest loc) as [[cs1 l1]| |] eqn:Es;
        simpl in H; try discriminate.
      inversion H; subst. apply (IH _ _ _ Es Hr).
Qed.

(** ** A duration that matches no code *)

Lemma parse_all_no_protocol (ds : list Z) (st : SignalParser) :
  _protocol st = [] -> parse_all st ds = Done (st, []).
Proof.
  intros Hp. induction ds as [|d ds IH]; simpl; [reflexivity|].
  destruct (d =? 0); [reflexivity|].
  unfold parse. rewrite parse_fuel_S, Hp. cbn [bind]. rewrite IH. reflexivity.
Qed.





(** ** Eligibility *)

(** Eligibility: a code for which the condition chain yields [valid] is
    eligible. *)
Lemma check_valid_eligible (st : SignalParser) (c : Code) (d : Z) (r : bool) :
  0 <= _seq_length st ->
  check st c d = Done (true, r) -> eligible st c.
Proof.
  unfold check, eligible. intros Hpos H.
  destruct (_seq_length st =? 0) eqn:E0.
  - zbool. left. split; [exact E0|].
    destruct (has c SP_START); [reflexivity|]. simpl in H. discriminate.
  - cbn [andb] in H. destruct (_seq_length st >? 0) eqn:E1; [|zbool; lia].
    right. zbool. split; [lia|].
    destruct (deref st (_seq_protocol st)) as [p| |]; cbn [bind] in H;
      try discriminate.
    exists p. split; [reflexivity|].
    destruct (Code.protId c =? Protocol.id p) eqn:Eid; cbn [negb] in H;
      [|discriminate].
    zbool. split; [exact Eid|].
    destruct (has c SP_ANY); [reflexivity|]. simpl in H. discriminate.
Qed.

Lemma accepts_eligible (st : SignalParser) (c : Code) (d : Z) :
  0 <= _seq_length st -> accepts st c d = true -> eligible st c.
Proof.
  unfold accepts. intros Hpos H.
  destruct (check st c d) as [[[|] r]| |] eqn:E; try discriminate.
  now apply (check_valid_eligible st c d r).
Qed.

(** What the scan does to the entries, one by one. *)
Lemma scan_steps (st : SignalParser) (d : Z) (todo : list Code) :
  forall loc cs loc',
    scan st d todo loc = Done (cs, loc') -> Forall2 (code_step st d) todo cs.
Proof.
  assert (Hrefl : forall l, Forall2 (code_step st d) l l).
  { induction l; constructor; [now left | assumption]. }
  induction todo as [|c rest IH]; intros loc cs loc' H; simpl in H.
  - done_inv H. constructor.
  - destruct (Code.valid c) eqn:Ev.
    + destruct (check st c d) as [[v r]| |] eqn:Ec; simpl in H; try discriminate.
      destruct v.
      * assert (Hacc : code_step st d c (advance c)).
        { right; right. unfold accepts. now rewrite Ec. }
        destruct (_ =? _).
        -- done_inv H. constructor; [exact Hacc | apply Hrefl].
        -- destruct (scan st d rest _) as [[cs1 l1]| |] eqn:Es;
             simpl in H; try discriminate.
           done_inv H. constructor; [exact Hacc | now apply (IH _ _ _ Es)].
      * destruct (scan st d rest _) as [[cs1 l1]| |] eqn:Es;
          simpl in H; try discriminate.
        done_inv H. constructor; [|now apply (IH _ _ _ Es)].
        right; left. unfold accepts. now rewrite Ec.
    + destruct (scan st d rest loc) as [[cs1 l1]| |] eqn:Es;
        simpl in H; try discriminate.
      done_inv H. constructor; [now left | now apply (IH _ _ _ Es)].
Qed.

(** A scan that completes no code has visited every entry: the codes
    that were live and are not eligible are invalid afterwards. *)
Lemma scan_invalidates (st : SignalParser) (d : Z) (todo : list Code) :
  0 <= _seq_length st ->
  forall loc cs loc',
    scan st d todo loc = Done (cs, loc') -> foundCode loc' = None ->
    Forall2 (fun c c' => ~ eligible st c -> Code.valid c' = false) todo cs.
Proof.
  intros Hpos.
  induction todo as [|c rest IH]; intros loc cs loc' H Hf; simpl in H.
  - done_inv H. constructor.
  - destruct (Code.valid c) eqn:Ev.
    + destruct (check st c d) as [[v r]| |] eqn:Ec; simpl in H; try discriminate.
      destruct v.
      * pose proof (check_valid_eligible _ _ _ _ Hpos Ec) as He.
        destruct (_ =? _).
        -- done_inv H. simpl in Hf. discriminate.
        -- destruct (scan st d rest _) as [[cs1 l1]| |] eqn:Es;
             simpl in H; try discriminate.
           done_inv H. constructor; [tauto | now apply (IH _ _ _ Es)].
      * destruct (scan st d rest _) as [[cs1 l1]| |] eqn:Es;
          simpl in H; try discriminate.
        done_inv H. constructor; [reflexivity | now apply (IH _ _ _ Es)].
    + destruct (scan st d rest loc) as [[cs1 l1]| |] eqn:Es;
        simpl in H; try discriminate.
      done_inv H. constructor; [intros _; exact Ev | now apply (IH _ _ _ Es)].
Qed.

(** The code that completes is an entry of the table, advanced. *)
Lemma scan_found (st : SignalParser) (d : Z) (todo : list Code) :
  forall loc cs loc' fc,
    scan st d todo loc = Done (cs, loc') ->
    foundCode loc = None -> foundCode loc' = Some fc ->
    exists c, In c todo /\ Code.valid c = true /\ accepts st c d = true
              /\ fc = advance c /\ Code.cnt fc = uint8 (Code.length c).
Proof.
  induction todo as [|c rest IH]; intros loc cs loc' fc H Hn Hf; simpl in H.
  - done_inv H. congruence.
  - destruct (Code.valid c) eqn:Ev.
    + destruct (check st c d) as [[v r]| |] eqn:Ec; simpl in H; try discriminate.
      destruct v.
      * destruct (_ =? _) eqn:El.
        -- done_inv H. simpl in Hf. inversion Hf; subst. exists c.
           split; [now left|]. split; [exact Ev|].
           split; [unfold accepts; now rewrite Ec|]. split; [reflexivity|].
           zbool. simpl. now rewrite El.
        -- destruct (scan st d rest _) as [[cs1 l1]| |] eqn:Es;
             simpl in H; try discriminate.
           done_inv H. destruct (IH _ _ _ fc Es Hn Hf) as (c0 & Hin & Hrest).
           exists c0. split; [now right | exact Hrest].
      * destruct (scan st d rest _) as [[cs1 l1]| |] eqn:Es;
          simpl in H; try discriminate.
        done_inv H. destruct (IH _ _ _ fc Es Hn Hf) as (c0 & Hin & Hrest).
        exists c0. split; [now right | exact Hrest].
    + destruct (scan st d rest loc) as [[cs1 l1]| |] eqn:Es;
        simpl in H; try discriminate.
      done_inv H. destruct (IH _ _ _ fc Es Hn Hf) as (c0 & Hin & Hrest).
      exists c0. split; [now right | exact Hrest].
Qed.

(** ** The invariant of the matcher *)

Lemma find_index_some {A : Type} (f : A -> bool) (l : list A) (k : nat) :
  find_index f l = Some k -> exists x, nth_error l k = Some x /\ f x = true.
Proof.
  revert k. induction l as [|a l IH]; intros k H; simpl in H; [discriminate|].
  destruct (f a) eqn:Ea.
  - inversion H; subst. exists a. now split.
  - destruct (find_index f l) as [j|]; [|discriminate].
    inversion H; subst. destruct (IH j eq_refl) as (x & Hx & Hf).
    exists x. now split.
Qed.

Lemma find_index_app {A : Type} (f : A -> bool) (l l' : list A) (k : nat) :
  find_index f l = Some k -> find_index f (l ++ l') = Some k.
Proof.
  revert k. induction l as [|a l IH]; intros k H; simpl in *; [discriminate|].
  destruct (f a); [exact H|].
  destruct (find_index f l) as [j|]; [|discriminate].
  now rewrite (IH j eq_refl).
Qed.

(** A registered protocol id is found, and the entry found has this id. *)
Lemma deref_findProt (st : SignalParser) (protId : Z) :
  _findProt st protId <> None ->
  exists p, deref st (_findProt st protId) = Done p /\ Protocol.id p = protId.
Proof.
  intros H. unfold deref. destruct (_findProt st protId) as [k|] eqn:E;
    [|congruence].
  destruct (find_index_some _ _ _ E) as (p & Hp & Hid). rewrite Hp.
  exists p. split; [reflexivity|]. now apply Z.eqb_eq.
Qed.

(** States with the same full reset have the same tables and flags. *)
Lemma same_reset (a b : SignalParser) :
  _resetCode true a = _resetCode true b ->
  _protocol a = _protocol b
  /\ map reset_one (_code a) = map reset_one (_code b)
  /\ _debugMode a = _debugMode b /\ _callbackFunc a = _callbackFunc b.
Proof.
  intros H. repeat split.
  - exact (f_equal _protocol H).
  - exact (f_equal _code H).
  - exact (f_equal _debugMode H).
  - exact (f_equal _callbackFunc H).
Qed.

Lemma map_protId_reset (cs : list Code) :
  map Code.protId (map reset_one cs) = map Code.protId cs.
Proof. rewrite map_map. reflexivity. Qed.

Lemma codes_registered_same (a b : SignalParser) :
  _resetCode true a = _resetCode true b ->
  codes_registered a -> codes_registered b.
Proof.
  intros H Ha. destruct (same_reset _ _ H) as (Hp & Hc & _).
  unfold codes_registered in *.
  assert (Hids : map Code.protId (_code a) = map Code.protId (_code b)).
  { rewrite <- (map_protId_reset (_code a)), <- (map_protId_reset (_code b)).
    now rewrite Hc. }
  rewrite Forall_forall in *. intros c Hc'.
  assert (Hin : In (Code.protId c) (map Code.protId (_code a))).
  { rewrite Hids. now apply in_map. }
  apply in_map_iff in Hin. destruct Hin as (c0 & Hid & Hin0).
  specialize (Ha c0 Hin0). unfold _findProt in *. now rewrite <- Hp, <- Hid.
Qed.

(** Eligibility looks at the length, the lock and the flags only. *)
Lemma eligible_same (st st' : SignalParser) (c c' : Code) :
  _seq_length st' = _seq_length st ->
  _seq_protocol st' = _seq_protocol st ->
  _protocol st' = _protocol st ->
  Code.type c' = Code.type c -> Code.protId c' = Code.protId c ->
  eligible st c -> eligible st' c'.
Proof.
  intros Hl Hs Hp Ht Hi He. unfold eligible, has, deref in *.
  rewrite Hl, Hs, Hp, Ht, Hi. exact He.
Qed.

Lemma check_safe (st : SignalParser) (c : Code) (d : Z) :
  (_seq_length st > 0 -> exists p, deref st (_seq_protocol st) = Done p) ->
  check st c d <> Fault.
Proof.
  intros Hlock. unfold check.
  destruct ((_seq_length st =? 0) && negb (has c SP_START)); [discriminate|].
  destruct (_seq_length st >? 0) eqn:E.
  - zbool. destruct Hlock as [p Hp]; [lia|]. rewrite Hp. cbn [bind].
    split_ifs; discriminate.
  - cbn [bind]. split_ifs; discriminate.
Qed.

Lemma scan_safe (st : SignalParser) (d : Z) (todo : list Code) (loc : Locals) :
  (_seq_length st > 0 -> exists p, deref st (_seq_protocol st) = Done p) ->
  exists cs loc', scan st d todo loc = Done (cs, loc').
Proof.
  intros Hlock. revert loc. induction todo as [|c rest IH]; intros loc; simpl.
  - now eexists; eexists.
  - destruct (Code.valid c).
    + pose proof (check_safe st c d Hlock) as Hs.
      pose proof (check_terminates st c d) as Ht.
      destruct (check st c d) as [[v r]| |]; [|congruence|congruence].
      cbn [bind]. destruct v.
      * destruct (_ =? _); [now eexists; eexists|].
        destruct (IH (set_matched (raise_retry loc r))) as (cs & l & ->).
        cbn [bind]. now eexists; eexists.
      * destruct (IH (raise_retry loc r)) as (cs & l & ->).
        cbn [bind]. now eexists; eexists.
    + destruct (IH loc) as (cs & l & ->). cbn [bind]. now eexists; eexists.
Qed.

Lemma scan_codes_safe (st : SignalParser) (d : Z) :
  (_seq_length st > 0 -> exists p, deref st (_seq_protocol st) = Done p) ->
  exists st1 loc, scan_codes st d = Done (st1, loc).
Proof.
  intros Hlock. unfold scan_codes.
  destruct (scan_safe st d (_code st) locals0 Hlock) as (cs & loc & ->).
  cbn [bind]. destruct (foundCode loc); now eexists; eexists.
Qed.

Lemma inv_reset (st : SignalParser) :
  codes_registered st -> matcher_inv (_resetCode true st).
Proof.
  intros Hreg. unfold matcher_inv. split; [|split; [|split]].
  - apply (codes_registered_same st); [now rewrite reset_reset | exact Hreg].
  - simpl. unfold MAX_SEQUENCE_LENGTH. lia.
  - pose proof (reset_counters_zero true st) as H0. unfold counters_zero in H0.
    eapply Forall_impl; [|exact H0]. intros c Hc Hn. simpl in Hc. congruence.
  - simpl. lia.
Qed.

Lemma Forall2_Forall {A : Type} (R : A -> A -> Prop) (P Q : A -> Prop)
    (l l' : list A) :
  (forall a b, R a b -> P a -> Q b) -> Forall2 R l l' -> Forall P l -> Forall Q l'.
Proof.
  intros H HR. induction HR as [|a b l l' Hab _ IH]; intros HP; constructor.
  - inversion HP; subst. now apply (H a b).
  - inversion HP; subst. now apply IH.
Qed.

(** The invariant after a scan that completes no code. *)
Lemma inv_scan (st : SignalParser) (d : Z) (cs : list Code) (loc : Locals) (n : Z) :
  matcher_inv st ->
  scan st d (_code st) locals0 = Done (cs, loc) ->
  matcher_inv (set_seq_codelength (set_code st cs) n).
Proof.
  intros (Hreg & Hlen & Hadv & Hlock) Hs.
  set (st' := set_seq_codelength (set_code st cs) n).
  split; [|split; [|split]].
  - apply (codes_registered_same st); [|exact Hreg].
    unfold _resetCode. simpl. now rewrite (scan_reset _ _ _ _ _ _ Hs).
  - exact Hlen.
  - apply (Forall2_Forall (code_step st d)
             (fun c => Code.cnt c <> 0 -> eligible st c)
             (fun c => Code.cnt c <> 0 -> eligible st' c)
             (_code st) cs); [| now apply (scan_steps _ _ _ _ _ _ Hs) | exact Hadv].
    intros a b Hab Ha Hb.
    destruct Hab as [-> | [(_ & _ & ->) | (_ & Hacc & ->)]].
    + apply (eligible_same st st' a a); try reflexivity. now apply Ha.
    + apply (eligible_same st st' a); try reflexivity. now apply Ha.
    + apply (eligible_same st st' a); try reflexivity.
      apply (accepts_eligible st a d); [lia | exact Hacc].
  - exact Hlock.
Qed.

(** The state in which [parse] calls [found_code]. *)
Lemma scan_codes_found_state (st st1 : SignalParser) (d : Z) (loc : Locals)
    (fc : Code) (n : Z) :
  scan_codes st d = Done (st1, loc) -> foundCode loc = Some fc ->
  0 <= _seq_length st < 255 ->
  let st2 := set_seq_codelength st1 n in
  _seq_length st2 = _seq_length st + 1
  /\ _seq st2 = snoc (_seq st) (Code.name fc)
  /\ _seq_protocol st2 = _seq_protocol st
  /\ _protocol st2 = _protocol st
  /\ _callbackFunc st2 = _callbackFunc st
  /\ counters_zero (_code st2)
  /\ _resetCode true st2 = _resetCode true st.
Proof.
  intros Es Ef Hlen st2.
  pose proof (scan_codes_reset _ _ _ _ Es) as Hr.
  destruct (scan_codes_inv _ _ _ _ Es) as (cs & Hscan & Hst1).
  rewrite Ef in Hst1. subst st2 st1.
  repeat split.
  - simpl. apply uint8_small. lia.
  - apply (reset_counters_zero false).
  - rewrite <- Hr. reflexivity.
Qed.

(** The invariant and the lock after [found_code]. *)
Lemma inv_found (st st1 : SignalParser) (d : Z) (loc : Locals) (fc : Code) (n : Z) :
  matcher_inv st ->
  scan_codes st d = Done (st1, loc) -> foundCode loc = Some fc ->
  let st2 := set_seq_codelength st1 n in
  exists st' out,
    found_code st2 fc = Done (st', out)
    /\ matcher_inv st'
    /\ (_seq_length st = 0 -> _seq_length st' <> 0 ->
        has fc SP_START = true
        /\ _seq_protocol st' = _findProt st (Code.protId fc)
        /\ exists p, deref st' (_seq_protocol st') = Done p
                     /\ Protocol.id p = Code.protId fc)
    /\ (_seq_length st > 0 -> _seq_length st' > 0 ->
        _seq_protocol st' = _seq_protocol st).
Proof.
  intros Hinv Es Ef st2. pose proof Hinv as (Hreg & Hlen & Hadv & Hlock).
  unfold MAX_SEQUENCE_LENGTH in Hlen.
  destruct (scan_codes_found_state st st1 d loc fc n Es Ef ltac:(lia))
    as (Hl2 & Hs2 & Hp2 & Hprot2 & Hcb2 & Hz2 & Hr2).
  fold st2 in Hl2, Hs2, Hp2, Hprot2, Hcb2, Hz2, Hr2.
  assert (Hreg2 : codes_registered st2)
    by (apply (codes_registered_same st); [now rewrite Hr2 | exact Hreg]).
  assert (Hresetinv : matcher_inv (_resetCode true st2)) by now apply inv_reset.
  assert (Hzero : forall s, _code s = _code st2 ->
                    Forall (fun c => Code.cnt c <> 0 -> eligible s c) (_code s)).
  { intros s Hs. rewrite Hs. unfold counters_zero in Hz2.
    eapply Forall_impl; [|exact Hz2]. intros c Hc Hn. simpl in Hc. congruence. }
  destruct (scan_codes_inv _ _ _ _ Es) as (cs & Hscan & _).
  destruct (scan_found st d (_code st) locals0 cs loc fc Hscan eq_refl Ef)
    as (c & Hin & _ & _ & Hfc & _).
  assert (Hfound : _findProt st (Code.protId fc) <> None).
  { unfold codes_registered in Hreg. rewrite Forall_forall in Hreg.
    subst fc. apply (Hreg c Hin). }
  assert (Hderef : forall s q, _protocol s = _protocol st ->
                     deref s q = deref st q).
  { intros s q Hs. unfold deref. now rewrite Hs. }
  unfold found_code.
  destruct (_seq_length st2 =? 1) eqn:E1.
  - zbool. destruct (negb (has fc SP_START)) eqn:Est.
    + exists (_resetCode true st2), []. split; [reflexivity|].
      split; [exact Hresetinv|]. split; simpl; intros; lia.
    + zbool. eexists; eexists. split; [reflexivity|].
      set (st3 := set_seq_protocol st2 (_findProt st2 (Code.protId fc))).
      assert (Hf3 : _findProt st2 (Code.protId fc) = _findProt st (Code.protId fc))
        by (unfold _findProt; now rewrite Hprot2).
      destruct (deref_findProt st _ Hfound) as (p & Hp & Hid).
      assert (Hd3 : deref st3 (_seq_protocol st3) = Done p).
      { rewrite (Hderef st3); [|exact Hprot2]. unfold st3. simpl. now rewrite Hf3. }
      split; [|split].
      * split; [|split; [|split]].
        -- apply (codes_registered_same st2); [reflexivity | exact Hreg2].
        -- change (_seq_length st3) with (_seq_length st2).
           unfold MAX_SEQUENCE_LENGTH. lia.
        -- apply Hzero. reflexivity.
        -- intros _. now exists p.
      * intros _ _. split; [exact Est|]. split; [exact Hf3|]. now exists p.
      * intros Hx. lia.
  - zbool. assert (Hpos : _seq_length st > 0) by lia.
    destruct (Hlock Hpos) as [p Hp].
    assert (Hd2 : deref st2 (_seq_protocol st2) = Done p)
      by (rewrite (Hderef st2 _ Hprot2), Hp2; exact Hp).
    rewrite Hd2. cbn [bind].
    destruct (if has fc SP_END then Done true
              else Done (_seq_length st2 =? Protocol.maxCodeLen p))
      as [last| |] eqn:El; [|destruct (has fc SP_END); discriminate..].
    cbn [bind]. destruct last.
    + destruct (_callbackFunc st2); cbn [bind];
        (eexists; eexists; split; [reflexivity|];
         split; [exact Hresetinv|]; split; simpl; intros; lia).
    + destruct (_seq_length st2 =? MAX_SEQUENCE_LENGTH - 2) eqn:Ecap.
      * eexists; eexists. split; [reflexivity|].
        split; [exact Hresetinv|]. split; simpl; intros; lia.
      * zbool. unfold MAX_SEQUENCE_LENGTH in Ecap.
        eexists; eexists. split; [reflexivity|]. split; [|split].
        -- split; [exact Hreg2|]. split; [unfold MAX_SEQUENCE_LENGTH; lia|].
           split; [now apply Hzero|]. intros _. now exists p.
        -- intros Hx. lia.
        -- intros _ _. exact Hp2.
Qed.

(** [parse] preserves the invariant and keeps the lock. *)
Lemma parse_fuel_inv (d : Z) (fuel : nat) :
  forall st st' out,
    matcher_inv st ->
    parse_fuel fuel st d = Done (st', out) ->
    matcher_inv st'
    /\ (_seq_length st = 0 -> _seq_length st' <> 0 -> locks st st' d)
    /\ (_seq_length st > 0 -> _seq_length st' > 0 ->
        _seq_protocol st' = _seq_protocol st).
Proof.
  induction fuel as [|fuel IH]; intros st st' out Hinv H; [discriminate|].
  rewrite parse_fuel_S in H.
  destruct (_protocol st) as [|p0 ps] eqn:Eprot.
  { done_res H. split; [exact Hinv|]. split; [congruence | reflexivity]. }
  destruct (scan_codes st d) as [[st1 loc]| |] eqn:Es; cbn [bind] in H;
    try discriminate.
  pose proof (scan_codes_reset _ _ _ _ Es) as Hr.
  destruct (scan_codes_inv _ _ _ _ Es) as (cs & Hscan & Hst1).
  pose proof Hinv as (Hreg & Hlen & Hadv & Hlock).
  destruct (matched loc) eqn:Em; cbn [negb] in H; cbv zeta in H.
  - destruct (foundCode loc) as [fc|] eqn:Ef.
    + destruct (inv_found st st1 d loc fc (uint8 (_seq_codelength st1 + 1))
                  Hinv Es Ef) as (s & o & Hfc & Hi & H1 & H2).
      cbv zeta in Hfc. rewrite Hfc in H. done_res H.
      split; [exact Hi|]. split; [|exact H2].
      intros Hl0 Hl1. destruct (H1 Hl0 Hl1) as (Hst & Hp & Hd).
      exists fc. split; [left; now exists st1, loc|].
      split; [exact Hst|]. split; [exact Hp | exact Hd].
    + done_res H. subst st1. split; [now apply (inv_scan st d cs loc)|].
      split; [|reflexivity]. intros Hl0 Hl1. simpl in Hl1. congruence.
  - destruct (if _debugMode st1 && (_seq_length st1 >? 10)
              then if _callbackFunc st1 then Done [diag_text st1] else Fault
              else Done []) as [o| |]; cbn [bind] in H; try discriminate.
    assert (Hreg1 : codes_registered st1)
      by (apply (codes_registered_same st); [now rewrite Hr | exact Hreg]).
    destruct (retryCandidate loc) eqn:Er.
    + destruct (parse_fuel fuel (_resetCode true st1) d) as [[s3 o3]| |] eqn:E3;
        cbn [bind] in H; try discriminate.
      done_res H.
      destruct (IH _ _ _ (inv_reset st1 Hreg1) E3) as (Hi & H1 & _).
      assert (Hl0 : _seq_length st = 0).
      { destruct (scan_retry_empty _ _ _ _ _ _ Hscan Er) as [Hx | Hx];
          [discriminate | exact Hx]. }
      split; [exact Hi|]. split; [|intros Hx; lia].
      intros _ Hl1. destruct (H1 eq_refl Hl1) as (fc & Hc & Hst & Hp & Hd).
      assert (Hfp : _findProt (_resetCode true st1) (Code.protId fc)
                    = _findProt st (Code.protId fc))
        by (rewrite Hr; reflexivity).
      exists fc. split; [right|].
      { destruct Hc as [Hc | Hc];
          [rewrite Hr in Hc | rewrite reset_reset, Hr in Hc]; exact Hc. }
      split; [exact Hst|]. split; [now rewrite <- Hfp | exact Hd].
    + done_res H. split; [now apply inv_reset|].
      split; simpl; intros; lia.
Qed.

(** From a state of the invariant [parse] ends regularly, unless the
    diagnostic is due in debug mode and no callback is attached. *)
Lemma parse_safe (st : SignalParser) (d : Z) :
  matcher_inv st ->
  _debugMode st = false \/ _callbackFunc st = true ->
  exists st' out, parse st d = Done (st', out).
Proof.
  intros Hinv Hcb. pose proof Hinv as (Hreg & Hlen & Hadv & Hlock).
  unfold parse. rewrite parse_fuel_S.
  destruct (_protocol st) as [|p0 ps] eqn:Eprot; [now eexists; eexists|].
  destruct (scan_codes_safe st d Hlock) as (st1 & loc & Es). rewrite Es.
  cbn [bind].
  pose proof (scan_codes_reset _ _ _ _ Es) as Hr.
  destruct (same_reset _ _ Hr) as (_ & _ & Hdbg & Hcall).
  destruct (matched loc) eqn:Em; cbn [negb]; cbv zeta.
  - destruct (foundCode loc) as [fc|] eqn:Ef; [|now eexists; eexists].
    destruct (inv_found st st1 d loc fc (uint8 (_seq_codelength st1 + 1))
                Hinv Es Ef) as (s & o & Hfc & _).
    cbv zeta in Hfc. rewrite Hfc. now eexists; eexists.
  - assert (Hout : exists o,
               (if _debugMode st1 && (_seq_length st1 >? 10)
                then if _callbackFunc st1 then Done [diag_text st1] else Fault
                else Done []) = Done o).
    { rewrite Hdbg, Hcall. destruct Hcb as [-> | ->]; [now eexists|].
      destruct (_debugMode st && (_seq_length st1 >? 10)); now eexists. }
    destruct Hout as [o ->]. cbn [bind].
    destruct (retryCandidate loc); [|now eexists; eexists].
    destruct (parse_idle_silent (_resetCode true st1) d eq_refl
                (reset_counters_zero true st1)) as [s3 ->].
    cbn [bind]. now eexists; eexists.
Qed.

(** ** The configured states *)

Lemma idle_intro (st : SignalParser) :
  _seq st = EmptyString -> _seq_length st = 0 -> _seq_codelength st = 0 ->
  _seq_protocol st = None -> map reset_one (_code st) = _code st -> idle st.
Proof.
  intros H1 H2 H3 H4 H5. unfold idle, _resetCode. destruct st; simpl in *.
  subst. now rewrite H5.
Qed.

Lemma idle_elim (st : SignalParser) :
  idle st ->
  _seq st = EmptyString /\ _seq_length st = 0 /\ _seq_codelength st = 0
  /\ _seq_protocol st = None /\ map reset_one (_code st) = _code st.
Proof.
  intros H. unfold idle in H. repeat split.
  - symmetry. exact (f_equal _seq H).
  - symmetry. exact (f_equal _seq_length H).
  - symmetry. exact (f_equal _seq_codelength H).
  - symmetry. exact (f_equal _seq_protocol H).
  - exact (f_equal _code H).
Qed.

Lemma configured_idle (st : SignalParser) :
  configured st -> idle st /\ codes_registered st.
Proof.
  induction 1 as [| st b _ [Hi Hr] | st f _ [Hi Hr]
                  | st name minLen maxLen tol rep _ [Hi Hr]
                  | st protId ch type t1 t2 t3 t4 t5 t6 t7 t8 _ [Hi Hr]].
  - split; [reflexivity | constructor].
  - destruct (idle_elim _ Hi) as (H1 & H2 & H3 & H4 & H5).
    split; [now apply idle_intro | exact Hr].
  - destruct (idle_elim _ Hi) as (H1 & H2 & H3 & H4 & H5).
    split; [now apply idle_intro | exact Hr].
  - destruct (idle_elim _ Hi) as (H1 & H2 & H3 & H4 & H5).
    unfold newProtocol.
    destruct ((minLen >? maxLen) || (maxLen >=? MAX_SEQUENCE_LENGTH));
      [now split|]. simpl. split; [now apply idle_intro|].
    unfold codes_registered, _findProt in *. simpl.
    eapply Forall_impl; [|exact Hr]. intros c Hc. simpl in Hc.
    destruct (find_index (fun p => Protocol.id p =? Code.protId c) (_protocol st))
      as [k|] eqn:E; [|congruence].
    now rewrite (find_index_app _ _ _ _ E).
  - destruct (idle_elim _ Hi) as (H1 & H2 & H3 & H4 & H5).
    unfold newCode.
    destruct (deref st (_findProt st protId)) as [p| |] eqn:Ep; [|now split..].
    split.
    + apply idle_intro; try assumption. simpl. rewrite map_app, H5. reflexivity.
    + unfold codes_registered in *. simpl. apply Forall_app. split; [exact Hr|].
      constructor; [|constructor]. simpl. unfold _findProt at 1. simpl.
      unfold deref in Ep. fold (_findProt st protId).
      destruct (_findProt st protId); [discriminate | discriminate].
Qed.

Lemma idle_inv (st : SignalParser) :
  idle st -> codes_registered st -> matcher_inv st.
Proof. intros Hi Hr. rewrite <- Hi. now apply inv_reset. Qed.

(** Every state reached from a configured state satisfies the
    invariant. *)
Lemma parse_all_inv (ds : list Z) :
  forall st st' out,
    matcher_inv st -> parse_all st ds = Done (st', out) -> matcher_inv st'.
Proof.
  induction ds as [|d ds IH]; intros st st' out Hinv H; simpl in H.
  - now done_res H.
  - destruct (d =? 0); [now done_res H|].
    destruct (parse st d) as [[st1 o1]| |] eqn:E1; cbn [bind] in H; try discriminate.
    destruct (parse_all st1 ds) as [[st2 o2]| |] eqn:E2; cbn [bind] in H;
      try discriminate.
    done_res H. apply (IH _ _ _ (proj1 (parse_fuel_inv d 2 _ _ _ Hinv E1)) E2).
Qed.

Lemma it2_parser_configured (minLen maxLen : Z) :
  minLen <= maxLen < MAX_SEQUENCE_LENGTH ->
  configured (it2_parser minLen maxLen).
Proof.
  intros H.
  assert (E : it2_parser minLen maxLen
              = newCode (newCode (newCode (newCode
                  (fst (newProtocol (attachCallback empty_parser true)
                                    "it2" minLen maxLen 25 3))
                  1 "s" SP_START 283 2658 0 0 0 0 0 0)
                  1 "_" SP_DATA 286 255 296 1269 0 0 0 0)
                  1 "#" SP_DATA 286 1269 287 267 0 0 0 0)
                  1 "x" SP_END 286 10000 0 0 0 0 0 0).
  { unfold it2_parser.
    destruct (newProtocol_accepts (attachCallback empty_parser true) "it2"
                minLen maxLen 25 3 H) as (p & -> & _). reflexivity. }
  rewrite E. repeat constructor.
Qed.

(** C3.  For every state reached from a configured parser and every
    duration: the invariant holds (only eligible codes have advanced: start
    codes while the sequence is empty, data or end codes of the locked
    protocol otherwise; with a sequence in progress the lock is not
    null); the scan advances or completes eligible codes only and
    invalidates the live codes that are not eligible; every call of
    [parse] preserves the invariant, locks the protocol of the start code
    that completes first and keeps that lock while the sequence lasts. *)
Theorem matcher_invariant (st0 st : SignalParser) (ds : list Z)
    (out0 : list string) (d : Z) :
  configured st0 -> parse_all st0 ds = Done (st, out0) ->
  matcher_inv st
  /\ (forall c, accepts st c d = true -> eligible st c)
  /\ (forall cs loc,
        scan st d (_code st) locals0 = Done (cs, loc) ->
        Forall2 (code_step st d) (_code st) cs
        /\ (foundCode loc = None ->
            Forall2 (fun c c' => ~ eligible st c -> Code.valid c' = false)
                    (_code st) cs)
        /\ (forall fc, foundCode loc = Some fc ->
            exists c, In c (_code st) /\ eligible st c /\ fc = advance c))
  /\ (forall st' out,
        parse st d = Done (st', out) ->
        matcher_inv st'
        /\ (_seq_length st = 0 -> _seq_length st' <> 0 -> locks st st' d)
        /\ (_seq_length st > 0 -> _seq_length st' > 0 ->
            _seq_protocol st' = _seq_protocol st))
  /\ (_debugMode st = false \/ _callbackFunc st = true ->
      exists st' out, parse st d = Done (st', out)).
Proof.
  intros Hcfg Hrun. destruct (configured_idle _ Hcfg) as [Hidle Hreg].
  pose proof (parse_all_inv ds _ _ _ (idle_inv _ Hidle Hreg) Hrun) as Hinv.
  pose proof Hinv as (_ & Hlen & _ & _).
  split; [exact Hinv|]. split; [|split; [|split]].
  - intros c. apply accepts_eligible. lia.
  - intros cs loc Hs. split; [now apply (scan_steps _ _ _ _ _ _ Hs)|]. split.
    + apply (scan_invalidates st d (_code st) ltac:(lia) locals0 cs loc Hs).
    + intros fc Hf.
      destruct (scan_found st d (_code st) locals0 cs loc fc Hs eq_refl Hf)
        as (c & Hin & _ & Hacc & Hfc & _).
      exists c. split; [exact Hin|]. split; [|exact Hfc].
      apply (accepts_eligible st c d); [lia | exact Hacc].
  - intros st' out Hp. now apply (parse_fuel_inv d 2 st st' out).
  - now apply parse_safe.
Qed.

Lemma matcher_invariant_witness :
  let st0 := it2_parser 20 40 in
  let st := run st0 (code_s ++ [286]) in
  _seq_length st = 1 /\ matcher_inv st
  /\ exists st' out, parse st 1269 = Done (st', out).
Proof.
  intros st0 st. split; [vm_compute; reflexivity|].
  destruct (matcher_invariant st0 st (code_s ++ [286]) [] 1269)
    as (Hinv & _ & _ & _ & Hsafe).
  - apply it2_parser_configured. unfold MAX_SEQUENCE_LENGTH. lia.
  - vm_compute. reflexivity.
  - split; [exact Hinv|]. apply Hsafe. left. vm_compute. reflexivity.
Defined.

(** ** The scan and the sequence state *)

(** The scan looks at the state through the emptiness of the sequence
    and the locked protocol only. *)
Lemma check_ctx (a b : SignalParser) (c : Code) (d : Z) :
  (_seq_length a =? 0) = (_seq_length b =? 0) ->
  (_seq_length a >? 0) = (_seq_length b >? 0) ->
  deref a (_seq_protocol a) = deref b (_seq_protocol b) ->
  check a c d = check b c d.
Proof. intros H0 H1 H2. unfold check. now rewrite H0, H1, H2. Qed.

Lemma scan_ctx (a b : SignalParser) (d : Z) (cs : list Code) :
  (_seq_length a =? 0) = (_seq_length b =? 0) ->
  (_seq_length a >? 0) = (_seq_length b >? 0) ->
  deref a (_seq_protocol a) = deref b (_seq_protocol b) ->
  forall loc, scan a d cs loc = scan b d cs loc.
Proof.
  intros H0 H1 H2. induction cs as [|c rest IH]; intros loc; simpl;
    [reflexivity|].
  rewrite (check_ctx a b c d H0 H1 H2).
  destruct (Code.valid c); [|now rewrite IH].
  destruct (check b c d) as [[v r]| |]; cbn [bind]; try reflexivity.
  destruct v;
    [destruct (int8 (int8 (Code.cnt c) + 1) =? Code.length c); [reflexivity|]|];
    now rewrite IH.
Qed.

Lemma recognise_ctx (a b : SignalParser) (ds : list Z) :
  (_seq_length a =? 0) = (_seq_length b =? 0) ->
  (_seq_length a >? 0) = (_seq_length b >? 0) ->
  deref a (_seq_protocol a) = deref b (_seq_protocol b) ->
  forall cs, recognise a cs ds = recognise b cs ds.
Proof.
  intros H0 H1 H2. induction ds as [|d ds IH]; intros cs; simpl; [reflexivity|].
  rewrite (scan_ctx a b d cs H0 H1 H2).
  destruct (scan b d cs locals0) as [[cs' loc]| |]; try reflexivity.
  destruct (foundCode loc); [reflexivity|].
  destruct (matched loc); [apply IH | reflexivity].
Qed.

(** ** [parse] after a scan with a match *)

Lemma parse_continues (st : SignalParser) (d : Z) (cs : list Code) (loc : Locals) :
  _protocol st <> [] ->
  scan st d (_code st) locals0 = Done (cs, loc) ->
  foundCode loc = None -> matched loc = true ->
  parse st d
  = Done (set_seq_codelength (set_code st cs) (uint8 (_seq_codelength st + 1)), []).
Proof.
  intros Hp Hs Hf Hm. unfold parse. rewrite parse_fuel_S.
  destruct (_protocol st); [congruence|].
  unfold scan_codes. rewrite Hs. cbn [bind]. rewrite Hf. cbn [bind].
  rewrite Hm, Hf. reflexivity.
Qed.

Lemma parse_completes (st : SignalParser) (d : Z) (cs : list Code) (loc : Locals)
    (fc : Code) :
  _protocol st <> [] ->
  scan st d (_code st) locals0 = Done (cs, loc) ->
  foundCode loc = Some fc ->
  parse st d
  = found_code
      (set_seq_codelength
         (_resetCode false
            (set_seq (set_code st cs) (snoc (_seq st) (Code.name fc))
                     (uint8 (_seq_length st + 1))))
         (uint8 (_seq_codelength st + 1)))
      fc.
Proof.
  intros Hp Hs Hf. pose proof (scan_found_matched _ _ _ _ _ Hs Hf) as Hm.
  unfold parse. rewrite parse_fuel_S.
  destruct (_protocol st); [congruence|].
  unfold scan_codes. rewrite Hs. cbn [bind]. rewrite Hf. cbn [bind].
  rewrite Hm, Hf. reflexivity.
Qed.

Lemma bind_done_nil {A : Type} (r : Result (A * list string)) :
  ('(a, o) <- r ;; Done (a, [] ++ o)) = r.
Proof. destruct r as [[a o]| |]; reflexivity. Qed.

(** Feeding durations that are recognised as one code: [parse_all]
    arrives at [found_code] for this code, with the name appended to the
    sequence and the code table reset. *)
Lemma feed_recognised (fc : Code) (rest : list Z) :
  forall (ds : list Z) (S : SignalParser),
    _protocol S <> [] -> Forall (fun m => m <> 0) ds ->
    recognise S (_code S) ds = Some fc ->
    exists S2,
      parse_all S (ds ++ rest)
      = ('(S', o) <- found_code S2 fc ;;
         '(S'', o') <- parse_all S' rest ;; Done (S'', o ++ o'))
      /\ _seq_length S2 = uint8 (_seq_length S + 1)
      /\ _seq S2 = snoc (_seq S) (Code.name fc)
      /\ _seq_protocol S2 = _seq_protocol S
      /\ _protocol S2 = _protocol S
      /\ _callbackFunc S2 = _callbackFunc S
      /\ _debugMode S2 = _debugMode S
      /\ _code S2 = map reset_one (_code S).
Proof.
  induction ds as [|d ds IH]; intros S Hp Hnz Hrec; [discriminate|].
  inversion Hnz as [|? ? Hd Hnz']; subst.
  cbn [recognise] in Hrec.
  destruct (scan S d (_code S) locals0) as [[cs loc]| |] eqn:Hs; try discriminate.
  assert (Hd0 : (d =? 0) = false) by now apply Z.eqb_neq.
  destruct (foundCode loc) as [fc'|] eqn:Hf.
  - destruct ds; [|discriminate]. inversion Hrec; subst fc'.
    exists (set_seq_codelength
              (_resetCode false
                 (set_seq (set_code S cs) (snoc (_seq S) (Code.name fc))
                          (uint8 (_seq_length S + 1))))
              (uint8 (_seq_codelength S + 1))).
    split; [|repeat split].
    + cbn [app parse_all]. rewrite Hd0.
      now rewrite (parse_completes S d cs loc fc Hp Hs Hf).
    + simpl. now rewrite (scan_reset _ _ _ _ _ _ Hs).
  - destruct (matched loc) eqn:Hm; [|discriminate].
    set (S1 := set_seq_codelength (set_code S cs) (uint8 (_seq_codelength S + 1))).
    assert (Hrec1 : recognise S1 (_code S1) ds = Some fc).
    { rewrite (recognise_ctx S1 S); try reflexivity. exact Hrec. }
    destruct (IH S1 Hp Hnz' Hrec1)
      as (S2 & Hall & H1 & H2 & H3 & H4 & H5 & H6 & H7).
    exists S2. split; [|repeat split; try assumption].
    + change ((d :: ds) ++ rest) with (d :: (ds ++ rest)). cbn [parse_all].
      rewrite Hd0, (parse_continues S d cs loc Hp Hs Hf Hm). cbn [bind].
      fold S1. rewrite Hall.
      destruct (found_code S2 fc) as [[S' o]| |]; cbn [bind]; try reflexivity.
      destruct (parse_all S' rest) as [[S'' o']| |]; reflexivity.
    + rewrite H7. simpl. apply (scan_reset _ _ _ _ _ _ Hs).
Qed.

(** ** Feeding the timings of a sequence of codes *)

Lemma names_snoc (w : list Code) (c : Code) :
  snoc (names w) (Code.name c) = names (w ++ [c]).
Proof. induction w as [|a w IH]; simpl; [reflexivity|]. now rewrite <- IH. Qed.

Lemma reset_one_fields (fc c : Code) :
  reset_one fc = c ->
  Code.name fc = Code.name c /\ Code.protId fc = Code.protId c
  /\ Code.type fc = Code.type c /\ (forall m, has fc m = has c m).
Proof. intros <-. repeat split. Qed.

Lemma reset_eq (a b : SignalParser) :
  _debugMode a = _debugMode b -> _protocol a = _protocol b ->
  map reset_one (_code a) = map reset_one (_code b) ->
  _callbackFunc a = _callbackFunc b ->
  _resetCode true a = _resetCode true b.
Proof.
  intros H1 H2 H3 H4. unfold _resetCode. simpl.
  unfold set_seq, set_seq_codelength, set_seq_protocol, set_code. simpl.
  now rewrite H1, H2, H3, H4.
Qed.

Lemma found_code_goes_on (st : SignalParser) (fc : Code) (p : Protocol) :
  _seq_length st <> 1 ->
  deref st (_seq_protocol st) = Done p ->
  has fc SP_END = false ->
  _seq_length st <> Protocol.maxCodeLen p ->
  _seq_length st <> MAX_SEQUENCE_LENGTH - 2 ->
  found_code st fc = Done (st, []).
Proof.
  intros H1 Hp He Hm Hc. unfold found_code.
  destruct (_seq_length st =? 1) eqn:E1; [zbool; congruence|].
  rewrite He, Hp. cbn [bind].
  destruct (_seq_length st =? Protocol.maxCodeLen p) eqn:E2; [zbool; congruence|].
  destruct (_seq_length st =? MAX_SEQUENCE_LENGTH - 2) eqn:E3; [zbool; congruence|].
  reflexivity.
Qed.

Lemma found_code_first (st : SignalParser) (fc : Code) :
  _seq_length st = 1 -> has fc SP_START = true ->
  found_code st fc
  = Done (set_seq_protocol st (_findProt st (Code.protId fc)), []).
Proof.
  intros H1 Hs. unfold found_code. rewrite H1, Hs. reflexivity.
Qed.

Section Feeding.

Variable st0 : SignalParser.
Hypothesis Hidle : idle st0.
Hypothesis Hself : self_decoding st0.
Hypothesis Htable : table_ok st0.
Hypothesis Hcallback : _callbackFunc st0 = true.

Variables (kp : nat) (p : Protocol).
Hypothesis Hkp : nth_error (_protocol st0) kp = Some p.
Hypothesis Hfind : _findProt st0 (Protocol.id p) = Some kp.

Lemma midpoints_nonzero (c : Code) :
  In c (_code st0) -> Forall (fun m => m <> 0) (midpoints c).
Proof.
  intros Hin. destruct Htable as (_ & _ & _ & Hc).
  rewrite Forall_forall in Hc. now apply (Hc c Hin).
Qed.

Lemma codes_reset_idle : map reset_one (_code st0) = _code st0.
Proof. now destruct (idle_elim _ Hidle) as (_ & _ & _ & _ & H). Qed.

Lemma protocols_nonempty : _protocol st0 <> [].
Proof. intros E. rewrite E in Hkp. destruct kp; discriminate. Qed.

(** The codes that follow the first one. *)
Lemma feed_tail (u : list Code) :
  forall (k : nat) (w : list Code) (sp : SignalParser),
    at_word st0 sp w -> List.length w = k -> (1 <= k < 118)%nat ->
    _seq_protocol sp = Some kp ->
    closed_ok st0 p k u ->
    parse_all sp (timings_of u ++ [0])
    = Done (st0, [snprintf 64 (cstr (Protocol.name p) ++ " "
                               ++ cstr (names (w ++ u)))]).
Proof.
  induction u as [|c u IH]; intros k w sp Hat Hk Hrange Hlock Hclosed;
    [contradiction|].
  destruct Hat as (Hcode & Hprot & Hcb & Hdbg & Hseq & Hlen).
  assert (Hmem : member st0 p c) by (destruct u; apply Hclosed).
  destruct Hmem as (Hin & Hid & Hany).
  (* the code is recognised in the state [sp] *)
  destruct (Hself c Hin) as [_ Hrecl].
  assert (Hfc : _findProt st0 (Code.protId c) = Some kp) by now rewrite Hid.
  destruct (Hrecl Hany kp Hfc) as (fc & Hrec & Hreset).
  assert (HrecS : recognise sp (_code sp) (midpoints c) = Some fc).
  { rewrite Hcode. rewrite (recognise_ctx sp (locked_ctx st0 kp)); [exact Hrec | | |].
    - rewrite Hlen. simpl. destruct (Z.of_nat k =? 0) eqn:E; [zbool; lia|].
      subst k. exact E.
    - rewrite Hlen. simpl.
      destruct (Z.of_nat (List.length w) >? 0) eqn:E; [reflexivity|zbool; lia].
    - unfold deref. rewrite Hlock, Hprot. reflexivity. }
  assert (HpS : _protocol sp <> [])
    by (rewrite Hprot; apply protocols_nonempty).
  change (timings_of (c :: u) ++ [0])
    with ((midpoints c ++ timings_of u) ++ [0]).
  rewrite <- app_assoc.
  destruct (feed_recognised fc (timings_of u ++ [0]) (midpoints c) sp HpS
              (midpoints_nonzero c Hin) HrecS)
    as (sp2 & Hall & Hl2 & Hs2 & Hp2 & Hprot2 & Hcb2 & Hdbg2 & Hcode2).
  rewrite Hall. clear Hall.
  destruct (reset_one_fields fc c Hreset) as (Hname & _ & _ & Hhas).
  assert (Hl2' : _seq_length sp2 = Z.of_nat (S k)).
  { rewrite Hl2, Hlen, Hk. rewrite uint8_small; lia. }
  assert (Hd2 : deref sp2 (_seq_protocol sp2) = Done p).
  { unfold deref. now rewrite Hp2, Hlock, Hprot2, Hprot, Hkp. }
  assert (Hseq2 : _seq sp2 = names (w ++ [c])).
  { rewrite Hs2, Hseq, Hname. apply names_snoc. }
  assert (Hc2 : _code sp2 = _code st0).
  { rewrite Hcode2, Hcode. apply codes_reset_idle. }
  destruct u as [|c' u'].
  - (* the last code *)
    destruct Hclosed as (_ & Hlast & Hmin).
    rewrite (found_code_last sp2 fc p); [| lia | exact Hd2 | ].
    + cbn [bind]. change (timings_of [] ++ [0]) with [0].
      cbn [parse_all]. change (0 =? 0) with true. cbn iota. cbn [bind].
      rewrite Hcb2, Hcb, Hcallback. cbn [andb].
      replace (_seq_length sp2 >=? Protocol.minCodeLen p) with true
        by (symmetry; rewrite Z.geb_leb; apply Z.leb_le; lia).
      unfold sequence_text. rewrite Hseq2. cbn [app].
      f_equal. f_equal.
      rewrite <- Hidle. apply reset_eq.
      * congruence.
      * congruence.
      * now rewrite Hc2.
      * congruence.
    + rewrite Hhas, Hl2'. exact Hlast.
  - (* a code in the middle *)
    destruct Hclosed as (_ & Hend & Hmax & Hcap & Hrest).
    rewrite (found_code_goes_on sp2 fc p);
      [| lia | exact Hd2 | now rewrite Hhas | now rewrite Hl2' | now rewrite Hl2'].
    cbn [bind].
    assert (Hlen' : List.length (w ++ [c]) = S k)
      by (rewrite length_app; simpl; lia).
    rewrite (IH (S k) (w ++ [c]) sp2);
      [| | exact Hlen' | | congruence | exact Hrest].
    + cbn [bind app]. now rewrite <- app_assoc.
    + repeat split; try assumption; try congruence.
    + unfold MAX_SEQUENCE_LENGTH in Hcap. lia.
Qed.

End Feeding.

Lemma starts_id (st0 : SignalParser) (kp : nat) (p : Protocol) (c1 : Code) :
  starts st0 kp p c1 ->
  Protocol.id p = Code.protId c1 /\ _findProt st0 (Protocol.id p) = Some kp.
Proof.
  intros (_ & _ & Hf & Hk).
  destruct (find_index_some _ _ _ Hf) as (x & Hx & Hid).
  rewrite Hk in Hx. inversion Hx; subst x. apply Z.eqb_eq in Hid.
  split; [exact Hid | now rewrite Hid].
Qed.

(** The timings of a completed sequence of codes, fed to the idle
    matcher, are emitted as the text of this sequence, and the matcher is
    idle again. *)
Lemma feed_word (st0 : SignalParser) (kp : nat) (p : Protocol) (c1 : Code)
    (u : list Code) :
  idle st0 -> self_decoding st0 -> table_ok st0 -> _callbackFunc st0 = true ->
  starts st0 kp p c1 -> closed_ok st0 p 1 u ->
  parse_all st0 (timings_of (c1 :: u) ++ [0])
  = Done (st0, [snprintf 64 (cstr (Protocol.name p) ++ " "
                             ++ cstr (names (c1 :: u)))]).
Proof.
  intros Hidle Hself Htable Hcb Hstart Hclosed.
  destruct (starts_id _ _ _ _ Hstart) as [Hid Hfind].
  pose proof Hstart as (Hin & Hst & Hf & Hk).
  destruct (idle_elim _ Hidle) as (Hseq0 & Hlen0 & _ & _ & Hcodes0).
  destruct (Hself c1 Hin) as [Hrec _].
  destruct (Hrec Hst) as (fc & Hfc & Hreset).
  assert (Hp0 : _protocol st0 <> []) by (now apply (protocols_nonempty st0 kp p)).
  change (timings_of (c1 :: u) ++ [0]) with ((midpoints c1 ++ timings_of u) ++ [0]).
  rewrite <- app_assoc.
  destruct (feed_recognised fc (timings_of u ++ [0]) (midpoints c1) st0 Hp0
              (midpoints_nonzero st0 Htable c1 Hin) Hfc)
    as (sp2 & Hall & Hl2 & Hs2 & Hp2 & Hprot2 & Hcb2 & Hdbg2 & Hcode2).
  rewrite Hall. clear Hall.
  destruct (reset_one_fields fc c1 Hreset) as (Hname & Hpid & _ & Hhas).
  rewrite Hlen0 in Hl2. change (uint8 (0 + 1)) with 1 in Hl2.
  rewrite (found_code_first sp2 fc Hl2); [|now rewrite Hhas].
  cbn [bind].
  assert (Hf2 : _findProt sp2 (Code.protId fc) = Some kp).
  { unfold _findProt. rewrite Hprot2, Hpid. exact Hf. }
  rewrite Hf2.
  rewrite (feed_tail st0 Hidle Hself Htable Hcb kp p Hk Hfind u 1 [c1]
             (set_seq_protocol sp2 (Some kp))).
  - reflexivity.
  - unfold set_seq_protocol.
    cbn [_code _protocol _callbackFunc _debugMode _seq _seq_length].
    split; [now rewrite Hcode2, Hcodes0|]. split; [exact Hprot2|].
    split; [exact Hcb2|]. split; [exact Hdbg2|].
    split; [now rewrite Hs2, Hseq0, Hname | exact Hl2].
  - reflexivity.
  - lia.
  - reflexivity.
  - exact Hclosed.
Qed.

(** ** The sequences that the matcher emits *)

(** The outcomes of [found_code]: a full reset, with or without an
    emission; the lock after the first code; or the sequence goes on. *)
Lemma found_code_cases (st st' : SignalParser) (fc : Code) (out : list string) :
  found_code st fc = Done (st', out) ->
  (st' = _resetCode true st
   /\ (out = []
       \/ (_seq_length st <> 1 /\ _callbackFunc st = true
           /\ exists p, deref st (_seq_protocol st) = Done p
                /\ (has fc SP_END = true \/ _seq_length st = Protocol.maxCodeLen p)
                /\ _seq_length st >= Protocol.minCodeLen p
                /\ out = [sequence_text p st])))
  \/ (_seq_length st = 1 /\ has fc SP_START = true
      /\ st' = set_seq_protocol st (_findProt st (Code.protId fc)) /\ out = [])
  \/ (_seq_length st <> 1
      /\ (exists p, deref st (_seq_protocol st) = Done p
                    /\ _seq_length st <> Protocol.maxCodeLen p)
      /\ has fc SP_END = false
      /\ _seq_length st <> MAX_SEQUENCE_LENGTH - 2
      /\ st' = st /\ out = []).
Proof.
  unfold found_code. intros H.
  destruct (_seq_length st =? 1) eqn:E1.
  - zbool. destruct (has fc SP_START) eqn:Es; cbn [negb] in H; done_res H.
    + right; left. repeat split; assumption.
    + left. split; [reflexivity | now left].
  - zbool. destruct (has fc SP_END) eqn:Ee.
    + cbn [bind] in H. left.
      destruct (_callbackFunc st) eqn:Ecb.
      * destruct (deref st (_seq_protocol st)) as [p| |] eqn:Ep; cbn [bind] in H;
          try discriminate.
        destruct (_seq_length st >=? Protocol.minCodeLen p) eqn:Em; done_res H.
        -- split; [reflexivity|]. right. split; [exact E1|]. split; [reflexivity|].
           exists p. zbool. repeat split; [now left | lia].
        -- split; [reflexivity | now left].
      * cbn [bind] in H. done_res H. split; [reflexivity | now left].
    + destruct (deref st (_seq_protocol st)) as [p| |] eqn:Ep; cbn [bind] in H;
        try discriminate.
      destruct (_seq_length st =? Protocol.maxCodeLen p) eqn:Emax.
      * left. apply Z.eqb_eq in Emax.
        destruct (_callbackFunc st) eqn:Ecb; cbn [bind] in H.
        -- destruct (_seq_length st >=? Protocol.minCodeLen p) eqn:Em; done_res H.
           ++ split; [reflexivity|]. right. split; [exact E1|].
              split; [reflexivity|]. exists p.
              rewrite Z.geb_leb in Em. apply Z.leb_le in Em.
              repeat split; [now right | lia].
           ++ split; [reflexivity | now left].
        -- done_res H. split; [reflexivity | now left].
      * apply Z.eqb_neq in Emax.
        destruct (_seq_length st =? MAX_SEQUENCE_LENGTH - 2) eqn:Ecap;
          done_res H.
        -- left. split; [reflexivity | now left].
        -- right; right. apply Z.eqb_neq in Ecap. split; [exact E1|].
           split; [exists p; now split|]. repeat split; assumption.
Qed.

Lemma open_ok_snoc (st0 : SignalParser) (p : Protocol) (u : list Code) (c : Code) :
  forall k,
    open_ok st0 p k u -> member st0 p c -> has c SP_END = false ->
    Z.of_nat (S (k + List.length u)) <> Protocol.maxCodeLen p ->
    Z.of_nat (S (k + List.length u)) <> MAX_SEQUENCE_LENGTH - 2 ->
    open_ok st0 p k (u ++ [c]).
Proof.
  induction u as [|a u IH]; intros k Ho Hm He Hmax Hcap;
    cbn [open_ok app List.length] in *.
  - rewrite Nat.add_0_r in Hmax, Hcap. tauto.
  - destruct Ho as (Ha & Hea & Hma & Hca & Ho).
    rewrite <- Nat.add_succ_comm in Hmax, Hcap.
    specialize (IH (S k) Ho Hm He Hmax Hcap). tauto.
Qed.

Lemma open_ok_close (st0 : SignalParser) (p : Protocol) (u : list Code) (c : Code) :
  forall k,
    open_ok st0 p k u -> member st0 p c ->
    has c SP_END = true
    \/ Z.of_nat (S (k + List.length u)) = Protocol.maxCodeLen p ->
    Z.of_nat (S (k + List.length u)) >= Protocol.minCodeLen p ->
    closed_ok st0 p k (u ++ [c]).
Proof.
  induction u as [|a u IH]; intros k Ho Hm Hlast Hmin;
    cbn [open_ok app List.length] in *.
  - rewrite Nat.add_0_r in Hlast, Hmin. cbn [closed_ok]. tauto.
  - destruct Ho as (Ha & Hea & Hma & Hca & Ho).
    rewrite <- Nat.add_succ_comm in Hlast, Hmin.
    assert (Hrest : closed_ok st0 p (S k) (u ++ [c])) by now apply IH.
    destruct (u ++ [c]) as [|b v] eqn:E; [contradiction|].
    cbn [closed_ok]. cbn [closed_ok] in Hrest. tauto.
Qed.

Lemma trace_reset (st0 st : SignalParser) : trace st0 (_resetCode true st) [].
Proof. repeat split. Qed.

Lemma trace_nonempty (st0 st : SignalParser) (w : list Code) :
  trace st0 st w -> _seq_length st <> 0 ->
  exists c1 u kp p,
    w = c1 :: u /\ starts st0 kp p c1 /\ _seq_protocol st = Some kp
    /\ open_ok st0 p 1 u.
Proof.
  intros (_ & Hlen & Hw) Hn. destruct w as [|c1 u]; [simpl in Hlen; congruence|].
  destruct Hw as (kp & p & Hs & Hl & Ho). now exists c1, u, kp, p.
Qed.

(** The code found by the scan, as a code of the table of [st0]. *)
Lemma found_in_table (st0 st : SignalParser) (d : Z) (cs : list Code)
    (loc : Locals) (fc : Code) :
  _resetCode true st = st0 -> 0 <= _seq_length st ->
  scan st d (_code st) locals0 = Done (cs, loc) -> foundCode loc = Some fc ->
  exists c0, In c0 (_code st) /\ eligible st c0
             /\ reset_one fc = reset_one c0 /\ In (reset_one c0) (_code st0).
Proof.
  intros Hr Hpos Hs Hf.
  destruct (scan_found st d (_code st) locals0 cs loc fc Hs eq_refl Hf)
    as (c0 & Hin & _ & Hacc & Hfc & _).
  exists c0. split; [exact Hin|].
  split; [now apply (accepts_eligible st c0 d)|].
  split; [now subst fc|].
  rewrite <- Hr. simpl. now apply in_map.
Qed.

(** [parse] keeps the sequence in progress a list of codes of the
    table, and what it emits after a match is the text of a completed
    sequence. *)
Lemma parse_fuel_trace (st0 : SignalParser) (d : Z) (fuel : nat) :
  forall st st' out w,
    _resetCode true st = st0 -> matcher_inv st -> trace st0 st w ->
    parse_fuel fuel st d = Done (st', out) ->
    (exists w', trace st0 st' w')
    /\ (no_match st d = false -> forall t, In t out ->
        _callbackFunc st = true /\ exists W, sequence_of st0 t W).
Proof.
  induction fuel as [|fuel IH]; intros st st' out w Hr Hinv Htr H;
    [discriminate|].
  rewrite parse_fuel_S in H.
  destruct (_protocol st) as [|p0 ps] eqn:Eprot.
  { done_res H. split; [now exists w | intros _ t []]. }
  destruct (scan_codes st d) as [[st1 loc]| |] eqn:Es; cbn [bind] in H;
    try discriminate.
  assert (Hnm : no_match st d = negb (matched loc))
    by (unfold no_match; now rewrite Es).
  pose proof (scan_codes_reset _ _ _ _ Es) as Hr1.
  destruct (scan_codes_inv _ _ _ _ Es) as (cs & Hscan & Hst1).
  pose proof Hinv as (Hreg & Hlen & _ & Hlock).
  unfold MAX_SEQUENCE_LENGTH in Hlen.
  assert (Hprot0 : _protocol st = _protocol st0) by (rewrite <- Hr; reflexivity).
  destruct (matched loc) eqn:Em; cbn [negb] in H; cbv zeta in H.
  - destruct (foundCode loc) as [fc|] eqn:Ef.
    + (* a code completes *)
      destruct (scan_codes_found_state st st1 d loc fc
                  (uint8 (_seq_codelength st1 + 1)) Es Ef ltac:(lia))
        as (Hl2 & Hs2 & Hp2 & Hprot2 & Hcb2 & _ & _).
      set (st2 := set_seq_codelength st1 (uint8 (_seq_codelength st1 + 1))) in *.
      destruct (found_in_table st0 st d cs loc fc Hr ltac:(lia) Hscan Ef)
        as (c0 & Hin0 & Hel & Hfc & Hin).
      set (c := reset_one c0) in *.
      destruct (reset_one_fields fc c Hfc) as (Hname & Hpid & _ & Hhas).
      assert (Hhas0 : forall m, has c m = has c0 m) by reflexivity.
      assert (Hseq2 : _seq st2 = names (w ++ [c])).
      { rewrite Hs2, (proj1 Htr), Hname. apply names_snoc. }
      assert (Hlen2 : _seq_length st2 = Z.of_nat (List.length (w ++ [c]))).
      { rewrite Hl2, (proj1 (proj2 Htr)), length_app. simpl. lia. }
      destruct (found_code_cases _ _ _ _ H)
        as [(-> & Hout) | [(H1 & Hst & -> & ->) | (H1 & (p & Hp & Hmax) & He & Hcap & -> & ->)]].
      * (* reset, with or without the emission *)
        split; [exists []; apply trace_reset|].
        intros _ t Ht. destruct Hout as [-> | (H1 & Hcb & p & Hp & Hlast & Hmin & ->)];
          [contradiction|].
        destruct Ht as [<- | []]. split; [now rewrite <- Hcb2|].
        destruct (trace_nonempty st0 st w Htr ltac:(lia))
          as (c1 & u & kp & q & -> & Hstart & Hsp & Hopen).
        assert (Hq : deref st (_seq_protocol st) = Done q).
        { unfold deref. rewrite Hsp, Hprot0.
          now destruct Hstart as (_ & _ & _ & ->). }
        assert (Hpq : p = q).
        { unfold deref in Hp, Hq. rewrite Hp2, Hprot2 in Hp. congruence. }
        subst q.
        assert (Hmem : member st0 p c).
        { split; [exact Hin|]. destruct Hel as [[Hx _] | (_ & p' & Hp' & Hid & Hany)];
            [lia|]. rewrite Hq in Hp'. inversion Hp'; subst p'.
          split; [exact Hid | exact Hany]. }
        exists ((c1 :: u) ++ [c]), kp, p, c1, (u ++ [c]).
        split; [reflexivity|]. split; [exact Hstart|]. split.
        -- apply open_ok_close; try assumption.
           ++ rewrite <- Hhas. rewrite Hlen2 in Hlast. simpl in Hlast.
              rewrite length_app in Hlast. simpl in Hlast.
              replace (S (1 + List.length u)) with (S (List.length u + 1)) by lia.
              exact Hlast.
           ++ rewrite Hlen2 in Hmin. simpl in Hmin. rewrite length_app in Hmin.
              simpl in Hmin.
              replace (S (1 + List.length u)) with (S (List.length u + 1)) by lia.
              exact Hmin.
        -- unfold sequence_text. now rewrite Hseq2.
      * (* the first code: the lock *)
        split; [|intros _ t []].
        assert (Hl0 : _seq_length st = 0) by lia.
        assert (Hw : w = []).
        { destruct w; [reflexivity|]. destruct Htr as (_ & Hx & _).
          simpl in Hx. lia. }
        subst w. exists [c].
        assert (Hfound : _findProt st (Code.protId c0) <> None).
        { unfold codes_registered in Hreg. rewrite Forall_forall in Hreg.
          now apply Hreg. }
        destruct (_findProt st (Code.protId c0)) as [kp|] eqn:Ekp; [|congruence].
        destruct (find_index_some _ _ _ Ekp) as (p & Hkp & _).
        assert (Hf0 : _findProt st0 (Code.protId c) = Some kp).
        { unfold _findProt. rewrite <- Hprot0. exact Ekp. }
        assert (Hf2 : _findProt st2 (Code.protId fc) = Some kp).
        { unfold _findProt. rewrite Hprot2, Hpid. exact Ekp. }
        split; [exact Hseq2|]. split; [exact Hlen2|].
        exists kp, p. split; [|split; [rewrite Hf2; reflexivity | exact I]].
        split; [exact Hin|]. split; [now rewrite <- Hhas|].
        split; [exact Hf0|]. now rewrite <- Hprot0.
      * (* the sequence goes on *)
        split; [|intros _ t []].
        destruct (trace_nonempty st0 st w Htr ltac:(lia))
          as (c1 & u & kp & q & -> & Hstart & Hsp & Hopen).
        assert (Hq : deref st (_seq_protocol st) = Done q).
        { unfold deref. rewrite Hsp, Hprot0.
          now destruct Hstart as (_ & _ & _ & ->). }
        assert (Hpq : p = q).
        { unfold deref in Hp, Hq. rewrite Hp2, Hprot2 in Hp. congruence. }
        subst q.
        assert (Hmem : member st0 p c).
        { split; [exact Hin|]. destruct Hel as [[Hx _] | (_ & p' & Hp' & Hid & Hany)];
            [lia|]. rewrite Hq in Hp'. inversion Hp'; subst p'.
          split; [exact Hid | exact Hany]. }
        exists ((c1 :: u) ++ [c]).
        split; [exact Hseq2|]. split; [exact Hlen2|].
        exists kp, p. split; [exact Hstart|]. split; [now rewrite Hp2|].
        rewrite Hlen2 in Hmax, Hcap. simpl in Hmax, Hcap.
        rewrite length_app in Hmax, Hcap. simpl in Hmax, Hcap.
        apply open_ok_snoc; try assumption.
        -- now rewrite <- Hhas.
        -- replace (S (1 + List.length u)) with (S (List.length u + 1)) by lia.
           exact Hmax.
        -- replace (S (1 + List.length u)) with (S (List.length u + 1)) by lia.
           exact Hcap.
    + (* a match, no code completes *)
      done_res H. subst st1.
      split; [exists w; exact Htr | intros _ t []].
  - (* no match *)
    simpl in Hnm.
    split; [|intros Hx; congruence].
    destruct (if _debugMode st1 && (_seq_length st1 >? 10)
              then if _callbackFunc st1 then Done [diag_text st1] else Fault
              else Done []) as [o| |]; cbn [bind] in H; try discriminate.
    destruct (retryCandidate loc).
    + destruct (parse_fuel fuel (_resetCode true st1) d) as [[s3 o3]| |] eqn:E3;
        cbn [bind] in H; try discriminate.
      done_res H.
      assert (Hreg1 : codes_registered st1)
        by (apply (codes_registered_same st); [now rewrite Hr1 | exact Hreg]).
      destruct (IH (_resetCode true st1) s3 o3 []) as [Hw _]; try assumption.
      * now rewrite reset_reset, Hr1.
      * now apply inv_reset.
      * apply trace_reset.
    + done_res H. exists []. apply trace_reset.
Qed.

Lemma parse_all_trace (st0 : SignalParser) (ds : list Z) :
  forall st st' out w,
    _resetCode true st = st0 -> matcher_inv st -> trace st0 st w ->
    parse_all st ds = Done (st', out) ->
    _resetCode true st' = st0 /\ matcher_inv st' /\ exists w', trace st0 st' w'.
Proof.
  induction ds as [|d ds IH]; intros st st' out w Hr Hinv Htr H; simpl in H.
  - done_res H. split; [exact Hr|]. split; [exact Hinv | now exists w].
  - destruct (d =? 0).
    + done_res H. split; [exact Hr|]. split; [exact Hinv | now exists w].
    + destruct (parse st d) as [[st1 o1]| |] eqn:E1; cbn [bind] in H;
        try discriminate.
      destruct (parse_all st1 ds) as [[st2 o2]| |] eqn:E2; cbn [bind] in H;
        try discriminate.
      done_res H.
      destruct (parse_fuel_trace st0 d 2 st st1 o1 w Hr Hinv Htr E1) as [[w1 Hw1] _].
      apply (IH st1 st2 o2 w1); try assumption.
      * rewrite <- Hr. now apply (parse_fuel_reset 2 st st1 d o1).
      * now apply (parse_fuel_inv d 2 st st1 o1).
Qed.

(** ** Reading a text back *)

Lemma take_short (n : nat) (s : string) :
  (String.length (take n s) < n)%nat -> take n s = s.
Proof.
  revert s. induction n as [|n IH]; intros s H; [lia|].
  destruct s as [|c s]; [reflexivity|]. simpl in *. f_equal. apply IH. lia.
Qed.

Lemma upto_take_name (name rest : string) (n : nat) :
  no_space name = true -> (String.length name <= n)%nat ->
  upto SPACE (take n (name ++ String SPACE rest)) = name.
Proof.
  revert n. induction name as [|c name IH]; intros n Hs Hl; simpl in *.
  - destruct n; reflexivity.
  - destruct n as [|n]; [lia|]. zbool. simpl. rewrite H. f_equal.
    apply IH; [assumption | lia].
Qed.

Lemma after_name (name rest : string) :
  no_space name = true -> after SPACE (name ++ String SPACE rest) = Some rest.
Proof.
  induction name as [|c name IH]; intros Hs; simpl in *; [reflexivity|].
  zbool. rewrite H. now apply IH.
Qed.

Lemma find_index_nodup {A : Type} (key : A -> string) (l : list A) :
  NoDup (map key l) ->
  forall k x, nth_error l k = Some x ->
    find_index (fun y => String.eqb (key x) (key y)) l = Some k.
Proof.
  induction l as [|a l IH]; intros Hnd k x Hk; [destruct k; discriminate|].
  inversion Hnd as [|? ? Hnot Hnd']; subst. simpl.
  destruct k as [|k]; simpl in Hk.
  - inversion Hk; subst. now rewrite String.eqb_refl.
  - destruct (String.eqb (key x) (key a)) eqn:E.
    + apply String.eqb_eq in E. exfalso. apply Hnot. rewrite <- E.
      apply in_map. now apply (nth_error_In l k).
    + now rewrite (IH Hnd' k x Hk).
Qed.

Lemma find_code_nodup (l : list Code) :
  NoDup (map (fun c => (Code.protId c, Code.name c)) l) ->
  forall c, In c l ->
    find (fun c' => (Code.protId c' =? Code.protId c)
                    && Ascii.eqb (Code.name c') (Code.name c)) l = Some c.
Proof.
  induction l as [|a l IH]; intros Hnd c Hin; [contradiction|].
  inversion Hnd as [|? ? Hnot Hnd']; subst. simpl.
  destruct Hin as [-> | Hin].
  - now rewrite Z.eqb_refl, Ascii.eqb_refl.
  - destruct ((Code.protId a =? Code.protId c)
              && Ascii.eqb (Code.name a) (Code.name c)) eqn:E.
    + apply andb_true_iff in E. destruct E as [E1 E2].
      apply Z.eqb_eq in E1. apply Ascii.eqb_eq in E2.
      exfalso. apply Hnot. rewrite E1, E2.
      now apply (in_map (fun c => (Code.protId c, Code.name c))).
    + now apply IH.
Qed.

Lemma closed_members (st0 : SignalParser) (p : Protocol) (u : list Code) :
  forall k, closed_ok st0 p k u -> Forall (member st0 p) u.
Proof.
  induction u as [|c u IH]; intros k H; [constructor|].
  destruct u as [|c' u'].
  - destruct H as (Hm & _). constructor; [exact Hm | constructor].
  - destruct H as (Hm & _ & _ & _ & Hrest). constructor; [exact Hm|].
    now apply (IH (S k)).
Qed.

(** The loop of [compose] over the names of codes of one protocol. *)
Lemma compose_loop_names (st0 : SignalParser) (pid : Z) (w : list Code) :
  table_ok st0 ->
  Forall (fun c => In c (_code st0) /\ Code.protId c = pid) w ->
  forall len, Z.of_nat (List.length w) <= len ->
    compose_loop st0 pid (names w) len = timings_of w.
Proof.
  intros (_ & _ & Hnd & Hcodes) Hw. rewrite Forall_forall in Hcodes.
  induction Hw as [|c w [Hin Hid] _ IH]; intros len Hlen; [reflexivity|].
  cbn [names]. cbn [List.length] in Hlen.
  rewrite compose_loop_step; [| apply (Hcodes c Hin) | lia].
  unfold _findCode. rewrite <- Hid. rewrite (find_code_nodup _ Hnd c Hin).
  unfold timings_of. simpl. f_equal. rewrite Hid. apply IH. lia.
Qed.

Lemma names_no_nul (st0 : SignalParser) (w : list Code) :
  table_ok st0 -> Forall (fun c => In c (_code st0)) w -> no_nul (names w) = true.
Proof.
  intros (_ & _ & _ & Hcodes) Hw. rewrite Forall_forall in Hcodes.
  induction Hw as [|c w Hin _ IH]; [reflexivity|]. simpl. rewrite IH.
  destruct (Hcodes c Hin) as [Hn _].
  destruct (Ascii.eqb (Code.name c) NUL) eqn:E; [|reflexivity].
  apply Ascii.eqb_eq in E. congruence.
Qed.

Lemma names_length (w : list Code) : String.length (names w) = List.length w.
Proof. induction w; simpl; congruence. Qed.

(** C5 (as amended).  Let the tables identify protocols and codes by
    their names and let every code be recognised from its own midpoints
    ([table_ok], [self_decoding]).  For every text of fewer than 63
    characters that the matcher emits for a completed sequence, in any
    state reached from the idle state: [compose] on this text, with [len]
    not below its length, writes timings which, fed to the idle matcher,
    make it emit exactly this text once and leave it idle. *)
Theorem compose_parse_roundtrip (st0 st st' : SignalParser) (ds : list Z)
    (out0 out : list string) (d : Z) (t : string) (len : Z) :
  idle st0 -> codes_registered st0 -> table_ok st0 -> self_decoding st0 ->
  parse_all st0 ds = Done (st, out0) ->
  parse st d = Done (st', out) -> no_match st d = false -> In t out ->
  (String.length t < 63)%nat -> Z.of_nat (String.length t) <= len ->
  exists ts,
    compose st0 t true len = Done ts /\ parse_all st0 ts = Done (st0, [t]).
Proof.
  intros Hidle Hreg Htable Hself Hrun Hparse Hmatch Hin Hshort Hlen.
  (* the text is the text of a completed sequence of codes *)
  assert (Htr0 : trace st0 st0 []).
  { destruct (idle_elim _ Hidle) as (H1 & H2 & _). now repeat split. }
  destruct (parse_all_trace st0 ds st0 st out0 [] Hidle (idle_inv _ Hidle Hreg)
              Htr0 Hrun) as (Hr & Hinv & w & Htr).
  destruct (parse_fuel_trace st0 d 2 st st' out w Hr Hinv Htr Hparse)
    as [_ Hemit].
  destruct (Hemit Hmatch t Hin) as (Hcb & W & kp & p & c1 & u & -> & Hstart & Hclosed & Ht).
  assert (Hcb0 : _callbackFunc st0 = true) by (rewrite <- Hr; exact Hcb).
  destruct (starts_id _ _ _ _ Hstart) as [Hid Hfind].
  pose proof Hstart as (Hin1 & _ & _ & Hkp).
  pose proof (closed_members _ _ _ _ Hclosed) as Hmem.
  assert (Hall : Forall (fun c => In c (_code st0) /\ Code.protId c = Protocol.id p)
                        (c1 :: u)).
  { constructor; [now split|]. eapply Forall_impl; [|exact Hmem].
    intros c (H1 & H2 & _). now split. }
  assert (Hall' : Forall (fun c => In c (_code st0)) (c1 :: u)).
  { eapply Forall_impl; [|exact Hall]. now intros c [H1 _]. }
  pose proof Htable as (Hnd & Hprots & _ & _).
  rewrite Forall_forall in Hprots.
  destruct (Hprots p (nth_error_In _ _ Hkp)) as (Hnn & Hns & Hnl).
  (* the text is not cut *)
  rewrite (cstr_no_nul _ Hnn), (cstr_no_nul _ (names_no_nul st0 _ Htable Hall')) in Ht.
  unfold snprintf in Ht. change (64 - 1)%nat with 63%nat in Ht.
  assert (Hfull : t = (Protocol.name p ++ " " ++ names (c1 :: u))%string).
  { rewrite Ht. apply take_short. now rewrite <- Ht. }
  (* [compose] finds the protocol and the codes *)
  assert (Hwlen : Z.of_nat (List.length (c1 :: u)) <= len).
  { rewrite <- names_length. rewrite Hfull in Hlen.
    rewrite length_append in Hlen. simpl in Hlen. simpl. lia. }
  exists (timings_of (c1 :: u) ++ [0]). split.
  - rewrite Hfull.
    rewrite (compose_resolved st0 _ (names (c1 :: u)) len kp p).
    + now rewrite (compose_loop_names st0 (Protocol.id p) (c1 :: u) Htable Hall).
    + change (" " ++ names (c1 :: u))%string with (String SPACE (names (c1 :: u))).
      rewrite (upto_take_name _ _ 11 Hns Hnl).
      unfold _findProt_name. now apply (find_index_nodup Protocol.name).
    + exact Hkp.
    + now apply after_name.
  - rewrite (feed_word st0 kp p c1 u Hidle Hself Htable Hcb0 Hstart Hclosed).
    rewrite (cstr_no_nul _ Hnn), (cstr_no_nul _ (names_no_nul st0 _ Htable Hall')).
    unfold snprintf. change (64 - 1)%nat with 63%nat. now rewrite <- Ht.
Qed.

Lemma it2_table_ok : table_ok (it2_parser 2 40).
Proof.
  unfold table_ok. vm_compute _protocol. vm_compute _code. cbn [map].
  split; [|split; [|split]].
  - repeat constructor. intros [].
  - repeat constructor.
  - repeat constructor; simpl; intuition congruence.
  - repeat constructor; try (vm_compute; congruence); try discriminate.
Qed.

(** A code is recognised: by running the scans. *)
Ltac run_recognise :=
  match goal with
  | |- recognises ?ctx ?c =>
      let r := eval vm_compute in (recognise ctx (_code ctx) (midpoints c)) in
      match r with
      | Some ?fc => exists fc; split; vm_compute; reflexivity
      end
  end.

Lemma it2_self_decoding : self_decoding (it2_parser 2 40).
Proof.
  intros c Hin. vm_compute in Hin.
  destruct Hin as [<- | [<- | [<- | [<- | []]]]]; split; intros H;
    try discriminate H; try run_recognise.
  all: intros k Hk; vm_compute in Hk; inversion Hk; subst k; run_recognise.
Qed.

Lemma compose_parse_roundtrip_witness :
  exists ts,
    compose (it2_parser 2 40) "it2 s#x" true 100 = Done ts
    /\ parse_all (it2_parser 2 40) ts
       = Done (it2_parser 2 40, ["it2 s#x"%string]).
Proof.
  apply (compose_parse_roundtrip (it2_parser 2 40)
           (run (it2_parser 2 40) (code_s ++ code_high ++ [286]))
           (it2_parser 2 40) (code_s ++ code_high ++ [286]) []
           ["it2 s#x"%string] 10000 "it2 s#x" 100).
  - vm_compute. reflexivity.
  - apply configured_idle, it2_parser_configured. unfold MAX_SEQUENCE_LENGTH. lia.
  - exact it2_table_ok.
  - exact it2_self_decoding.
  - vm_compute. reflexivity.
  - vm_compute. reflexivity.
  - vm_compute. reflexivity.
  - left. reflexivity.
  - simpl. lia.
  - simpl. lia.
Defined.

(** C5, counterexample.  In [overlap_parser] the durations 1000, 140,
    5000 are emitted as ["p sbx"].  [compose] writes the midpoint 120
    for ['b'], which the code ['a'], earlier in the table, accepts:
    fed back, the timings are emitted as ["p sax"]. *)
Lemma roundtrip_changes_sequence :
  outputs (parse_all overlap_parser [1000; 140; 5000]) = Some ["p sbx"%string]
  /\ compose overlap_parser "p sbx" true 100 = Done [1000; 120; 5000; 0]
  /\ outputs (parse_all overlap_parser [1000; 120; 5000; 0])
     = Some ["p sax"%string]
  /\ "p sax"%string <> "p sbx"%string.
Proof. vm_compute. repeat split. discriminate. Qed.

(** ** The diagnostic and the durations of an attempt *)

Lemma has_advance (c : Code) (m : Z) : has (advance c) m = has c m.
Proof. reflexivity. Qed.

(** A code that completes while the sequence is empty is a start code. *)
Lemma found_first_is_start (st : SignalParser) (d : Z) (cs : list Code)
    (loc : Locals) (fc : Code) :
  _seq_length st = 0 ->
  scan st d (_code st) locals0 = Done (cs, loc) -> foundCode loc = Some fc ->
  has fc SP_START = true.
Proof.
  intros Hz Hscan Hf.
  destruct (scan_found _ _ _ _ _ _ _ Hscan eq_refl Hf) as (c & _ & _ & Hacc & -> & _).
  rewrite has_advance.
  destruct (accepts_eligible st c d ltac:(lia) Hacc) as [[_ Hs]|[Hl _]];
    [exact Hs|lia].
Qed.

(** The counter of raw durations after a call in which a code accepted
    the duration: 0 when the call has closed the sequence, one more
    otherwise. *)
Lemma matched_codelength (st st1 st' : SignalParser) (d : Z) (loc : Locals)
    (out : list string) :
  matcher_inv st ->
  scan_codes st d = Done (st1, loc) ->
  match foundCode loc with
  | Some fc => found_code (set_seq_codelength st1 (uint8 (_seq_codelength st1 + 1))) fc
  | None => Done (set_seq_codelength st1 (uint8 (_seq_codelength st1 + 1)), [])
  end = Done (st', out) ->
  _seq_codelength st'
  = if _seq_length st' <? _seq_length st then 0
    else uint8 (_seq_codelength st + 1).
Proof.
  intros Hinv Es H. pose proof Hinv as (_ & Hlen & _).
  unfold MAX_SEQUENCE_LENGTH in Hlen.
  destruct (scan_codes_inv _ _ _ _ Es) as (cs & Hscan & Hst1).
  destruct (foundCode loc) as [fc|] eqn:Ef.
  - destruct (scan_codes_found_state st st1 d loc fc
                (uint8 (_seq_codelength st1 + 1)) Es Ef ltac:(lia))
      as (Hl2 & _).
    cbv zeta in Hl2.
    assert (Hc1 : _seq_codelength st1 = _seq_codelength st) by (subst st1; reflexivity).
    rewrite Hc1 in *.
    remember (set_seq_codelength st1 (uint8 (_seq_codelength st + 1))) as st2 eqn:E2.
    destruct (found_code_cases _ _ _ _ H)
      as [(-> & _)|[(_ & _ & -> & _)|(_ & _ & _ & _ & -> & _)]].
    + (* the call has reset the matcher: the sequence was not empty *)
      assert (Hpos : _seq_length st <> 0).
      { intros Hz.
        pose proof (found_first_is_start _ _ _ _ _ Hz Hscan Ef) as Hs.
        assert (H1 : _seq_length st2 = 1) by lia.
        rewrite (found_code_first st2 fc H1 Hs) in H.
        apply Done_pair_inv in H. destruct H as [H _].
        apply (f_equal _seq_length) in H. cbn in H. lia. }
      change (_seq_length (_resetCode true st2)) with 0.
      change (_seq_codelength (_resetCode true st2)) with 0.
      replace (0 <? _seq_length st) with true by (symmetry; apply Z.ltb_lt; lia).
      reflexivity.
    + change (_seq_length (set_seq_protocol st2 (_findProt st2 (Code.protId fc))))
        with (_seq_length st2).
      replace (_seq_length st2 <? _seq_length st) with false
        by (symmetry; apply Z.ltb_ge; lia).
      rewrite E2. reflexivity.
    + replace (_seq_length st2 <? _seq_length st) with false
        by (symmetry; apply Z.ltb_ge; lia).
      rewrite E2. reflexivity.
  - apply Done_pair_inv in H. destruct H as [<- _]. subst st1. cbn.
    now rewrite Z.ltb_irrefl.
Qed.

(** A table without protocols holds no codes. *)
Lemma no_protocol_no_code (st : SignalParser) :
  codes_registered st -> _protocol st = [] -> _code st = [].
Proof.
  unfold codes_registered. intros H Hp.
  destruct (_code st) as [|c cs]; [reflexivity|].
  apply Forall_cons_iff in H. destruct H as [H _].
  unfold _findProt in H. rewrite Hp in H. now elim H.
Qed.

(** One call of [parse] keeps the counter of raw durations in step, up
    to its 8 bits. *)
Lemma parse_codelength (st st' : SignalParser) (d : Z) (out : list string) (n : Z) :
  matcher_inv st -> _protocol st <> [] \/ _seq_codelength st = 0 ->
  _seq_codelength st = uint8 n ->
  parse st d = Done (st', out) ->
  _seq_codelength st' = uint8 (attempt_next n st d st').
Proof.
  intros Hinv Hp Hn H. pose proof Hinv as (Hreg & Hlen & _ & Hlock).
  unfold parse in H. rewrite parse_fuel_S in H. unfold attempt_next.
  destruct (_protocol st) as [|p0 ps] eqn:Ep.
  - apply Done_pair_inv in H. destruct H as [<- _].
    destruct Hp as [Hp|Hz]; [congruence|].
    unfold no_match, retry_flagged, scan_codes.
    rewrite (no_protocol_no_code st Hreg Ep). cbn. exact Hz.
  - destruct (scan_codes st d) as [[st1 loc]| |] eqn:Es; cbn [bind] in H;
      try discriminate.
    unfold no_match at 1. unfold retry_flagged. rewrite Es.
    destruct (matched loc) eqn:Em; cbn [negb] in H |- *.
    + rewrite (matched_codelength st st1 st' d loc out Hinv Es H).
      destruct (_seq_length st' <? _seq_length st); [reflexivity|].
      rewrite Hn. unfold uint8. now rewrite Zplus_mod_idemp_l.
    + destruct (if _debugMode st1 && (_seq_length st1 >? 10)
                then if _callbackFunc st1 then Done [diag_text st1] else Fault
                else Done []) as [o1| |]; cbn [bind] in H; try discriminate.
      cbv zeta in H. pose proof (scan_codes_reset _ _ _ _ Es) as Hr.
      rewrite Hr in H.
      destruct (retryCandidate loc); cbn [andb].
      * rewrite parse_fuel_S in H.
        change (_protocol (_resetCode true st)) with (_protocol st) in H.
        rewrite Ep in H. unfold no_match.
        destruct (scan_codes (_resetCode true st) d) as [[st3 loc3]| |] eqn:E3;
          cbn [bind] in H; try discriminate.
        destruct (matched loc3) eqn:Em3; cbn [negb] in H |- *.
        -- destruct (match foundCode loc3 with
                     | Some fc =>
                         found_code
                           (set_seq_codelength st3 (uint8 (_seq_codelength st3 + 1))) fc
                     | None =>
                         Done (set_seq_codelength st3 (uint8 (_seq_codelength st3 + 1)), [])
                     end) as [[s4 o4]| |] eqn:E4; cbn [bind] in H; try discriminate.
           apply Done_pair_inv in H. destruct H as [<- _].
           pose proof (inv_reset st Hreg) as Hinv0.
           rewrite (matched_codelength _ st3 s4 d loc3 o4 Hinv0 E3 E4).
           assert (Hinv4 : matcher_inv s4).
           { assert (E : parse_fuel 1 (_resetCode true st) d = Done (s4, o4)).
             { rewrite parse_fuel_S.
               change (_protocol (_resetCode true st)) with (_protocol st).
               rewrite Ep, E3. cbn [bind]. rewrite Em3. cbn [negb]. exact E4. }
             exact (proj1 (parse_fuel_inv d 1 _ _ _ Hinv0 E)). }
           destruct Hinv4 as (_ & Hlen4 & _).
           change (_seq_length (_resetCode true st)) with 0.
           replace (_seq_length s4 <? 0) with false by (symmetry; apply Z.ltb_ge; lia).
           reflexivity.
        -- destruct (if _debugMode st3 && (_seq_length st3 >? 10)
                     then if _callbackFunc st3 then Done [diag_text st3] else Fault
                     else Done []) as [o3| |]; cbn [bind] in H; try discriminate.
           cbv zeta in H.
           destruct (retryCandidate loc3); [discriminate|].
           cbn [bind] in H. apply Done_pair_inv in H. destruct H as [<- _].
           reflexivity.
      * apply Done_pair_inv in H. destruct H as [<- _]. reflexivity.
Qed.

Lemma parse_all_codelength (ds : list Z) :
  forall st st' out n,
    matcher_inv st -> _protocol st <> [] \/ _seq_codelength st = 0 ->
    _seq_codelength st = uint8 n ->
    parse_all st ds = Done (st', out) ->
    _seq_codelength st' = uint8 (attempt_durations st ds n).
Proof.
  induction ds as [|d ds IH]; intros st st' out n Hinv Hp Hn H;
    cbn [parse_all attempt_durations] in *.
  - apply Done_pair_inv in H. destruct H as [<- _]. exact Hn.
  - destruct (d =? 0).
    + apply Done_pair_inv in H. destruct H as [<- _]. exact Hn.
    + destruct (parse st d) as [[s1 o1]| |] eqn:E1; cbn [bind] in H;
        try discriminate.
      destruct (parse_all s1 ds) as [[s2 o2]| |] eqn:E2; cbn [bind] in H;
        try discriminate.
      apply Done_pair_inv in H. destruct H as [<- _].
      apply (IH s1 s2 o2); [| | |exact E2].
      * exact (proj1 (parse_fuel_inv d 2 _ _ _ Hinv E1)).
      * destruct (same_reset _ _ (parse_fuel_reset 2 _ _ _ _ E1)) as (Hpr & _).
        destruct (_protocol st) as [|p0 ps] eqn:Ep.
        -- right. unfold parse in E1. rewrite parse_fuel_S, Ep in E1.
           apply Done_pair_inv in E1. destruct E1 as [<- _].
           destruct Hp as [Hp|Hz]; [congruence|exact Hz].
        -- left. rewrite Hpr. discriminate.
      * exact (parse_codelength _ _ _ _ _ Hinv Hp Hn E1).
Qed.

(** C10 (as amended).  In debug mode, with a callback attached, a
    duration that no live candidate accepts makes [parse] pass a
    diagnostic text to the callback exactly when the sequence holds more
    than 10 decoded characters; otherwise [parse] passes nothing.  The
    text is ["*<n>,<m>"], where [m] is the number of decoded characters
    and [n] is the number of raw durations that the attempt has
    accumulated, modulo 256: the counter has 8 bits. *)
Theorem abort_diagnostic (st0 st : SignalParser) (ds : list Z)
    (out0 : list string) (d : Z) :
  configured st0 -> parse_all st0 ds = Done (st, out0) ->
  no_match st d = true -> _debugMode st = true -> _callbackFunc st = true ->
  _seq_codelength st = attempt_durations st0 ds 0 mod 256
  /\ _seq_length st = Z.of_nat (String.length (_seq st))
  /\ outputs (parse st d)
     = Some (if _seq_length st >? 10
             then [("*" ++ decimal (attempt_durations st0 ds 0 mod 256) ++ ","
                    ++ decimal (_seq_length st))%string]
             else []).
Proof.
  intros Hcfg Hrun Hno Hdbg Hcb.
  destruct (configured_idle st0 Hcfg) as [Hidle Hreg].
  pose proof (idle_inv _ Hidle Hreg) as Hinv0.
  destruct (idle_elim _ Hidle) as (Hs0 & Hl0 & Hc0 & _).
  assert (Htr0 : trace st0 st0 []) by now repeat split.
  destruct (parse_all_trace st0 ds st0 st out0 [] Hidle Hinv0 Htr0 Hrun)
    as (Hr & Hinv & w & Hseq & Hlen & _).
  assert (Hcl : _seq_codelength st = attempt_durations st0 ds 0 mod 256).
  { apply (parse_all_codelength ds st0 st out0 0 Hinv0); [now right|exact Hc0|exact Hrun]. }
  assert (Hsl : _seq_length st = Z.of_nat (String.length (_seq st))).
  { now rewrite Hseq, names_length. }
  split; [exact Hcl|]. split; [exact Hsl|].
  destruct (_protocol st) as [|p0 ps] eqn:Ep.
  - (* no protocol: nothing is in progress *)
    assert (E0 : _protocol st0 = []).
    { destruct (same_reset _ _ (eq_trans Hr (eq_sym Hidle))) as (Hp & _). congruence. }
    rewrite (parse_all_no_protocol ds st0 E0) in Hrun.
    apply Done_pair_inv in Hrun. destruct Hrun as [<- _].
    unfold parse. rewrite parse_fuel_S, E0, Hl0. reflexivity.
  - rewrite (abort_text st d ltac:(rewrite Ep; discriminate) Hno Hdbg Hcb).
    destruct (_seq_length st >? 10); [|reflexivity].
    destruct Hinv as (_ & Hb & _). unfold MAX_SEQUENCE_LENGTH in Hb.
    rewrite diag_text_full, Hcl; [reflexivity| |lia].
    rewrite Hcl. pose proof (Z.mod_pos_bound (attempt_durations st0 ds 0) 256). lia.
Qed.

Lemma abort_diagnostic_witness :
  let st0 := init (it2_parser 20 40) true in
  let ds := code_s ++ times 10 code_high in
  attempt_durations st0 ds 0 = 42 /\ _seq (run st0 ds) = "s##########"%string
  /\ outputs (parse (run st0 ds) 409) = Some ["*42,11"%string].
Proof.
  intros st0 ds. split; [vm_compute; reflexivity|]. split; [vm_compute; reflexivity|].
  destruct (abort_diagnostic st0 (run st0 ds) ds [] 409) as (_ & _ & H).
  - apply cfg_init, it2_parser_configured. unfold MAX_SEQUENCE_LENGTH. lia.
  - vm_compute. reflexivity.
  - vm_compute. reflexivity.
  - vm_compute. reflexivity.
  - vm_compute. reflexivity.
  - refine (eq_trans H _). vm_compute. reflexivity.
Defined.

(** C10, counterexample.  After the start code and three data codes the
    attempt has accumulated 14 raw durations and holds 4 characters; the
    duration 409 matches no code, and in debug mode with a callback
    attached nothing is passed to the callback.  After the start code and
    64 data codes the attempt has accumulated 258 raw durations and holds
    65 characters; the text passed to the callback is ["*2,65"]. *)
Lemma abort_diagnostic_ignores_raw_count :
  (let st := run (init (it2_parser 20 40) true) (code_s ++ times 3 code_high) in
   _debugMode st = true /\ _callbackFunc st = true
   /\ attempt_durations (init (it2_parser 20 40) true) (code_s ++ times 3 code_high) 0
      = 14
   /\ _seq_codelength st = 14 /\ _seq_length st = 4
   /\ no_match st 409 = true
   /\ outputs (parse st 409) = Some [])
  /\ (let st := run (init (it2_parser 20 100) true) (code_s ++ times 64 code_high) in
      attempt_durations (init (it2_parser 20 100) true) (code_s ++ times 64 code_high) 0
      = 258
      /\ _seq_codelength st = 2 /\ _seq_length st = 65
      /\ no_match st 409 = true
      /\ outputs (parse st 409) = Some ["*2,65"%string]).
Proof. vm_compute. repeat split. Qed.

(** * Further properties of the registry *)

Lemma find_index_offset (ps : list Protocol) :
  forall (off : Z) (k : nat) (p : Protocol),
    (forall j q, nth_error ps j = Some q -> Protocol.id q = off + Z.of_nat j) ->
    nth_error ps k = Some p ->
    find_index (fun q => Protocol.id q =? off + Z.of_nat k) ps = Some k.
Proof.
  induction ps as [|a ps IH]; intros off k p Hid Hk; [destruct k; discriminate|].
  simpl. destruct k as [|k].
  - rewrite (Hid 0%nat a eq_refl). now rewrite Z.eqb_refl.
  - destruct (Protocol.id a =? off + Z.of_nat (S k)) eqn:E.
    + apply Z.eqb_eq in E. rewrite (Hid 0%nat a eq_refl) in E. lia.
    + simpl in Hk.
      replace (off + Z.of_nat (S k)) with ((off + 1) + Z.of_nat k) by lia.
      rewrite (IH (off + 1) k p); [reflexivity | | exact Hk].
      intros j q Hj. rewrite (Hid (S j) q Hj). lia.
Qed.

Lemma find_index_range {A : Type} (f : A -> bool) (l : list A) (k : nat) :
  find_index f l = Some k -> (k < List.length l)%nat.
Proof.
  intros H. destruct (find_index_some f l k H) as (x & Hx & _).
  apply nth_error_Some. congruence.
Qed.

(** The ids that [newProtocol] assigns: the entry at index [k] has the id
    [k + 1], as a [uint8_t]. *)
Lemma configured_ids (st : SignalParser) :
  configured st ->
  forall k p, nth_error (_protocol st) k = Some p ->
              Protocol.id p = uint8 (Z.of_nat k + 1).
Proof.
  induction 1 as [| st b _ IH | st f _ IH
                  | st name minLen maxLen tol rep _ IH
                  | st protId ch type t1 t2 t3 t4 t5 t6 t7 t8 _ IH];
    intros k p Hk.
  - destruct k; discriminate.
  - now apply IH.
  - now apply IH.
  - unfold newProtocol in Hk.
    destruct ((minLen >? maxLen) || (maxLen >=? MAX_SEQUENCE_LENGTH));
      [now apply IH|]. simpl in Hk.
    destruct (Nat.lt_ge_cases k (List.length (_protocol st))) as [Hlt | Hge].
    + rewrite nth_error_app1 in Hk by exact Hlt. now apply IH.
    + rewrite nth_error_app2 in Hk by exact Hge.
      destruct (k - List.length (_protocol st))%nat as [|m] eqn:Em.
      * simpl in Hk. inversion Hk; subst p. simpl.
        replace k with (List.length (_protocol st)) by lia. reflexivity.
      * destruct m; discriminate.
  - unfold newCode in Hk.
    destruct (deref st (_findProt st protId)); now apply IH.
Qed.

(** X1.  In a configured parser with at most 255 protocols the protocol
    at index [k] has the id [k + 1], the lookup by this id finds it, and
    the ids that are found are exactly 1 .. [_protocolCount]. *)
Theorem protocol_ids (st : SignalParser) :
  configured st -> (List.length (_protocol st) <= 255)%nat ->
  (forall k p, nth_error (_protocol st) k = Some p ->
               Protocol.id p = Z.of_nat k + 1
               /\ _findProt st (Protocol.id p) = Some k)
  /\ (forall id, _findProt st id <> None
                 <-> 1 <= id <= Z.of_nat (List.length (_protocol st))).
Proof.
  intros Hcfg Hlen.
  assert (Hids : forall j q, nth_error (_protocol st) j = Some q ->
                             Protocol.id q = 1 + Z.of_nat j).
  { intros j q Hj. rewrite (configured_ids st Hcfg j q Hj).
    assert (j < List.length (_protocol st))%nat
      by (apply nth_error_Some; congruence).
    rewrite uint8_small; lia. }
  split.
  - intros k p Hk. split; [rewrite (Hids k p Hk); lia|].
    unfold _findProt. rewrite (Hids k p Hk).
    now apply (find_index_offset (_protocol st) 1 k p).
  - intros id. split.
    + intros Hf. destruct (_findProt st id) as [k|] eqn:E; [|congruence].
      destruct (find_index_some _ _ _ E) as (p & Hp & Hid).
      apply Z.eqb_eq in Hid. pose proof (find_index_range _ _ _ E).
      rewrite <- Hid, (Hids k p Hp). lia.
    + intros Hr.
      destruct (nth_error (_protocol st) (Z.to_nat (id - 1))) as [p|] eqn:Ep.
      * unfold _findProt.
        replace id with (1 + Z.of_nat (Z.to_nat (id - 1))) by lia.
        rewrite (find_index_offset (_protocol st) 1 _ p Hids Ep). discriminate.
      * apply nth_error_None in Ep. lia.
Qed.

Lemma protocol_ids_witness :
  _findProt (register_many 3 empty_parser) 2 = Some 1%nat
  /\ _findProt (register_many 3 empty_parser) 4 = None.
Proof.
  assert (Hcfg : configured (register_many 3 empty_parser))
    by (unfold register_many; cbn [Nat.iter]; repeat apply cfg_protocol;
        apply cfg_empty).
  destruct (protocol_ids (register_many 3 empty_parser) Hcfg) as [H1 H2];
    [vm_compute; lia|].
  split.
  - apply (H1 1%nat (Protocol.mk 2 "p" 1 2 25 3 0)). reflexivity.
  - destruct (_findProt (register_many 3 empty_parser) 4) eqn:E; [|reflexivity].
    assert (Hx : _findProt (register_many 3 empty_parser) 4 <> None) by congruence.
    apply H2 in Hx. vm_compute in Hx. destruct Hx as [_ Hx]. now elim Hx.
Defined.

Lemma find_index_app_none {A : Type} (f : A -> bool) (l : list A) (x : A) :
  find_index f l = None ->
  find_index f (l ++ [x]) = if f x then Some (List.length l) else None.
Proof.
  induction l as [|a l IH]; intros H; simpl in *; [reflexivity|].
  destruct (f a); [discriminate|].
  destruct (find_index f l) as [k|]; [discriminate|].
  rewrite (IH eq_refl). now destruct (f x).
Qed.

Lemma nth_error_last {A : Type} (l : list A) (x : A) :
  nth_error (l ++ [x]) (List.length l) = Some x.
Proof. rewrite nth_error_app2 by lia. now rewrite Nat.sub_diag. Qed.

Lemma take_length (n : nat) (s : string) : (String.length (take n s) <= n)%nat.
Proof.
  revert s. induction n as [|n IH]; intros [|c s]; simpl; try lia.
  specialize (IH s). lia.
Qed.

(** X2.  A protocol registered with valid bounds, in a configured parser
    with fewer than 255 protocols, is found under the id returned: the
    entry holds the bounds, the tolerance and the repeat count passed,
    and the first 11 characters of the name. *)
Theorem newProtocol_findProt (st : SignalParser) (name : string)
    (minLen maxLen tolerance repeat : Z) :
  configured st -> (List.length (_protocol st) < 255)%nat ->
  minLen <= maxLen < MAX_SEQUENCE_LENGTH ->
  deref (fst (newProtocol st name minLen maxLen tolerance repeat))
        (_findProt (fst (newProtocol st name minLen maxLen tolerance repeat))
                   (snd (newProtocol st name minLen maxLen tolerance repeat)))
  = Done (Protocol.mk (Z.of_nat (List.length (_protocol st)) + 1)
                      (take 11 name) minLen maxLen tolerance repeat 0).
Proof.
  intros Hcfg Hlen Hb.
  pose proof (cfg_protocol st name minLen maxLen tolerance repeat Hcfg) as Hcfg'.
  revert Hcfg'. unfold newProtocol.
  destruct (minLen >? maxLen) eqn:E1; [zbool; lia|].
  destruct (maxLen >=? MAX_SEQUENCE_LENGTH) eqn:E2; [zbool; lia|].
  cbn [orb fst snd]. intros Hcfg'.
  set (n := List.length (_protocol st)) in *.
  rewrite (uint8_small (Z.of_nat n + 1)) in Hcfg' |- * by lia.
  set (p := Protocol.mk (Z.of_nat n + 1)
              (take (Z.to_nat (PROTNAME_LEN - 1)) name) minLen maxLen tolerance
              repeat 0).
  set (st' := set_protocol st (_protocol st ++ [p])) in *.
  assert (Hids : forall j q, nth_error (_protocol st') j = Some q ->
                             Protocol.id q = 1 + Z.of_nat j).
  { intros j q Hj. rewrite (configured_ids st' Hcfg' j q Hj).
    assert (j < List.length (_protocol st'))%nat
      by (apply nth_error_Some; congruence).
    unfold st' in H. simpl in H. rewrite length_app in H. simpl in H.
    rewrite uint8_small; lia. }
  assert (Hp : nth_error (_protocol st') n = Some p) by apply nth_error_last.
  assert (Hf : _findProt st' (Z.of_nat n + 1) = Some n).
  { unfold _findProt. rewrite Z.add_comm.
    apply (find_index_offset (_protocol st') 1 n p Hids Hp). }
  unfold deref. rewrite Hf, Hp. reflexivity.
Qed.

Lemma newProtocol_findProt_witness :
  deref (fst (newProtocol (it2_parser 20 40) "sc5" 12 12 30 5))
        (_findProt (fst (newProtocol (it2_parser 20 40) "sc5" 12 12 30 5)) 2)
  = Done (Protocol.mk 2 "sc5" 12 12 30 5 0).
Proof.
  apply (newProtocol_findProt (it2_parser 20 40) "sc5" 12 12 30 5).
  - apply it2_parser_configured. unfold MAX_SEQUENCE_LENGTH. lia.
  - vm_compute. lia.
  - unfold MAX_SEQUENCE_LENGTH. lia.
Defined.

(** X3.  [getSendRepeat] after a registration under a name that was not
    in the table: a name of at most 11 characters yields the repeat count
    passed; a longer name is stored cut and is not found under its full
    text; the answers for the names already registered do not change. *)
Theorem getSendRepeat_registered (st : SignalParser) (name : string)
    (minLen maxLen tolerance repeat : Z) :
  minLen <= maxLen < MAX_SEQUENCE_LENGTH ->
  _findProt_name st name = None ->
  let st' := fst (newProtocol st name minLen maxLen tolerance repeat) in
  ((String.length name <= 11)%nat -> getSendRepeat st' name = repeat)
  /\ ((String.length name > 11)%nat -> getSendRepeat st' name = 0)
  /\ (forall other, _findProt_name st other <> None ->
                    getSendRepeat st' other = getSendRepeat st other).
Proof.
  intros Hb Hnew. unfold newProtocol.
  destruct (minLen >? maxLen) eqn:E1; [zbool; lia|].
  destruct (maxLen >=? MAX_SEQUENCE_LENGTH) eqn:E2; [zbool; lia|].
  cbn [orb fst]. cbv zeta.
  set (p := Protocol.mk (uint8 (Z.of_nat (List.length (_protocol st)) + 1))
              (take (Z.to_nat (PROTNAME_LEN - 1)) name) minLen maxLen tolerance
              repeat 0).
  set (st' := set_protocol st (_protocol st ++ [p])).
  unfold _findProt_name in Hnew.
  assert (Hfind : _findProt_name st' name
                  = if String.eqb name (take 11 name)
                    then Some (List.length (_protocol st)) else None).
  { unfold _findProt_name, st'. simpl.
    now rewrite (find_index_app_none _ _ p Hnew). }
  split; [|split].
  - intros Hl. unfold getSendRepeat, deref. rewrite Hfind.
    rewrite (take_all 11 name Hl), String.eqb_refl.
    unfold st'. simpl. now rewrite nth_error_last.
  - intros Hl. unfold getSendRepeat, deref. rewrite Hfind.
    destruct (String.eqb name (take 11 name)) eqn:E; [|reflexivity].
    apply String.eqb_eq in E. pose proof (take_length 11 name) as Ht.
    rewrite <- E in Ht. lia.
  - intros other Ho. unfold getSendRepeat, deref, _findProt_name in *.
    destruct (find_index (fun q => String.eqb other (Protocol.name q))
                         (_protocol st)) as [k|] eqn:Ek; [|congruence].
    unfold st'. simpl. rewrite (find_index_app _ _ [p] _ Ek).
    destruct (find_index_some _ _ _ Ek) as (q & Hq & _).
    rewrite Hq. rewrite nth_error_app1; [now rewrite Hq|].
    apply nth_error_Some. congruence.
Qed.

Lemma getSendRepeat_registered_witness :
  getSendRepeat (fst (newProtocol (it2_parser 20 40) "sc5" 12 12 30 5)) "sc5" = 5
  /\ getSendRepeat (fst (newProtocol (it2_parser 20 40) "intertechno-2" 12 12 30 5))
                   "intertechno-2" = 0
  /\ getSendRepeat (fst (newProtocol (it2_parser 20 40) "sc5" 12 12 30 5)) "it2" = 3.
Proof.
  assert (Hb : 12 <= 12 < MAX_SEQUENCE_LENGTH) by (unfold MAX_SEQUENCE_LENGTH; lia).
  destruct (getSendRepeat_registered (it2_parser 20 40) "sc5" 12 12 30 5 Hb
              eq_refl) as (H1 & _ & H3).
  destruct (getSendRepeat_registered (it2_parser 20 40) "intertechno-2" 12 12 30 5
              Hb eq_refl) as (_ & H2 & _).
  split; [|split].
  - apply H1. vm_compute. lia.
  - apply H2. vm_compute. lia.
  - rewrite (H3 "it2"%string); [reflexivity | vm_compute; discriminate].
Defined.

(** X4.  In a configured parser with at most 255 protocols [newCode]
    appends a code exactly for the ids 1 .. [_protocolCount], with the
    windows computed from the tolerance of that protocol; for every other
    id it leaves the parser as it is. *)
Theorem newCode_known_id (st : SignalParser) (protId : Z) (ch : ascii) (type : Z)
    (t1 t2 t3 t4 t5 t6 t7 t8 : Z) :
  configured st -> (List.length (_protocol st) <= 255)%nat ->
  (1 <= protId <= Z.of_nat (List.length (_protocol st)) ->
   exists p,
     nth_error (_protocol st) (Z.to_nat (protId - 1)) = Some p
     /\ newCode st protId ch type t1 t2 t3 t4 t5 t6 t7 t8
        = set_code st (_code st
                       ++ [registered_code protId ch type (Protocol.tolerance p)
                             (slots [t1; t2; t3; t4; t5; t6; t7; t8])]))
  /\ (~ 1 <= protId <= Z.of_nat (List.length (_protocol st)) ->
      newCode st protId ch type t1 t2 t3 t4 t5 t6 t7 t8 = st).
Proof.
  intros Hcfg Hlen.
  assert (Hids : forall j q, nth_error (_protocol st) j = Some q ->
                             Protocol.id q = 1 + Z.of_nat j).
  { intros j q Hj. rewrite (configured_ids st Hcfg j q Hj).
    assert (j < List.length (_protocol st))%nat
      by (apply nth_error_Some; congruence).
    rewrite uint8_small; lia. }
  split.
  - intros Hr.
    destruct (nth_error (_protocol st) (Z.to_nat (protId - 1))) as [p|] eqn:Ep;
      [|apply nth_error_None in Ep; lia].
    exists p. split; [reflexivity|].
    assert (Hf : _findProt st protId = Some (Z.to_nat (protId - 1))).
    { unfold _findProt.
      pose proof (find_index_offset (_protocol st) 1 _ p Hids Ep) as Hx.
      replace (1 + Z.of_nat (Z.to_nat (protId - 1))) with protId in Hx by lia.
      exact Hx. }
    unfold newCode, deref. now rewrite Hf, Ep.
  - intros Hr. unfold newCode, deref.
    destruct (_findProt st protId) as [k|] eqn:E; [|reflexivity].
    exfalso. apply Hr.
    destruct (find_index_some _ _ _ E) as (p & Hp & Hid).
    apply Z.eqb_eq in Hid. pose proof (find_index_range _ _ _ E).
    rewrite <- Hid, (Hids k p Hp). lia.
Qed.

Lemma newCode_known_id_witness :
  List.length (_code (newCode (it2_parser 20 40) 1 "y" SP_END 500 0 0 0 0 0 0 0))
  = 5%nat
  /\ newCode (it2_parser 20 40) 2 "y" SP_END 500 0 0 0 0 0 0 0 = it2_parser 20 40
  /\ newCode (it2_parser 20 40) 0 "y" SP_END 500 0 0 0 0 0 0 0 = it2_parser 20 40.
Proof.
  assert (Hcfg : configured (it2_parser 20 40))
    by (apply it2_parser_configured; unfold MAX_SEQUENCE_LENGTH; lia).
  assert (Hlen : (List.length (_protocol (it2_parser 20 40)) <= 255)%nat)
    by (vm_compute; lia).
  split; [|split].
  - destruct (newCode_known_id (it2_parser 20 40) 1 "y" SP_END 500 0 0 0 0 0 0 0
                Hcfg Hlen) as [H _].
    destruct H as (p & _ & ->); [vm_compute; split; discriminate|].
    unfold set_code. cbn [_code]. rewrite length_app. reflexivity.
  - apply (newCode_known_id (it2_parser 20 40) 2 "y" SP_END 500 0 0 0 0 0 0 0
             Hcfg Hlen). vm_compute. intros [_ H]. now apply H.
  - apply (newCode_known_id (it2_parser 20 40) 0 "y" SP_END 500 0 0 0 0 0 0 0
             Hcfg Hlen). vm_compute. intros [H _]. now apply H.
Defined.

Lemma slots_length (ts : list Z) : (List.length (slots ts) <= List.length ts)%nat.
Proof. unfold slots. apply filter_length_le. Qed.

Lemma uint16_range (x : Z) : 0 <= uint16 x < 65536.
Proof. unfold uint16. apply Z.mod_pos_bound. lia. Qed.

Lemma registered_code_wf (protId : Z) (ch : ascii) (type tol : Z) (ts : list Z) :
  (List.length ts <= 8)%nat -> code_wf (registered_code protId ch type tol ts).
Proof.
  intros Hl. unfold code_wf, registered_code, MAX_CODELENGTH.
  cbn [Code.length Code.minTime Code.maxTime Code.cnt Code.valid].
  rewrite !length_map.
  split; [lia|]. split; [reflexivity|]. split; [reflexivity|].
  split; [|split; [|split; reflexivity]].
  - apply Forall_forall. intros x Hx. apply in_map_iff in Hx.
    destruct Hx as (t & <- & _). apply uint16_range.
  - apply Forall_forall. intros x Hx. apply in_map_iff in Hx.
    destruct Hx as (t & <- & _). apply uint16_range.
Qed.

Lemma configured_code_wf (st : SignalParser) :
  configured st -> Forall code_wf (_code st).
Proof.
  intros Hcfg.
  induction Hcfg as [| st b _ IH | st f _ IH
                     | st name minLen maxLen tol rep _ IH
                     | st protId ch type t1 t2 t3 t4 t5 t6 t7 t8 _ IH].
  - constructor.
  - exact IH.
  - exact IH.
  - unfold newProtocol.
    destruct ((minLen >? maxLen) || (maxLen >=? MAX_SEQUENCE_LENGTH)); exact IH.
  - unfold newCode. destruct (deref st (_findProt st protId)); try exact IH.
    simpl. apply Forall_app. split; [exact IH|].
    constructor; [|constructor]. apply registered_code_wf.
    apply (slots_length [t1; t2; t3; t4; t5; t6; t7; t8]).
Qed.

(** X5.  After the configuration phase the parser is idle, and every code
    has at most 8 slots, both arrays filled with 16-bit values up to its
    length, its counter at 0 and its flag set, and names a registered
    protocol. *)
Theorem configured_tables (st : SignalParser) :
  configured st ->
  idle st /\ Forall code_wf (_code st) /\ codes_registered st.
Proof.
  intros Hcfg. destruct (configured_idle st Hcfg) as [Hi Hr].
  split; [exact Hi|]. split; [|exact Hr]. now apply configured_code_wf.
Qed.

Lemma configured_tables_witness :
  idle (it2_parser 20 40) /\ Forall code_wf (_code (it2_parser 20 40))
  /\ codes_registered (it2_parser 20 40).
Proof.
  apply configured_tables, it2_parser_configured. unfold MAX_SEQUENCE_LENGTH. lia.
Defined.

Lemma map_seq_nth (l : list Z) (h : nat -> Z) :
  (forall k, (k < List.length l)%nat -> h k = nth k l 0) ->
  map h (seq 0 (List.length l)) = l.
Proof.
  intros H. apply (nth_ext _ _ 0 0).
  - now rewrite length_map, length_seq.
  - intros n Hn. rewrite length_map, length_seq in Hn.
    rewrite (nth_indep _ 0 (h 0%nat)) by now rewrite length_map, length_seq.
    rewrite map_nth, seq_nth by exact Hn. now apply H.
Qed.

(** X6.  For a code registered from the times [ts] with a tolerance under
    which both bounds of every slot are 16-bit values, every window
    contains its base time, and the midpoints that [compose] writes for
    the code are the times [ts] themselves. *)
Theorem registered_midpoints (protId : Z) (ch : ascii) (type tol : Z)
    (ts : list Z) :
  0 <= tol ->
  Forall (fun T => 0 < T /\ T * tol / 100 <= T /\ T + T * tol / 100 <= 65535) ts ->
  midpoints (registered_code protId ch type tol ts) = ts
  /\ forall k T, nth_error ts k = Some T ->
       rd (Code.minTime (registered_code protId ch type tol ts)) (Z.of_nat k) <= T
       <= rd (Code.maxTime (registered_code protId ch type tol ts)) (Z.of_nat k).
Proof.
  intros Htol Hts. rewrite Forall_forall in Hts.
  assert (Hwin : forall k T, nth_error ts k = Some T ->
            rd (Code.minTime (registered_code protId ch type tol ts)) (Z.of_nat k)
            = T - T * tol / 100
            /\ rd (Code.maxTime (registered_code protId ch type tol ts)) (Z.of_nat k)
               = T + T * tol / 100
            /\ 0 <= T * tol / 100 <= T /\ T + T * tol / 100 <= 65535).
  { intros k T Hk.
    destruct (Hts T (nth_error_In _ _ Hk)) as (Hpos & Hlow & Hfit).
    destruct (registered_window_mod protId ch type tol ts k T Hk) as [-> ->].
    assert (Hq : 0 <= T * tol / 100) by (apply Z.div_pos; nia).
    unfold radius. rewrite (uint16_small (T * tol / 100)) by lia.
    rewrite !uint16_small by lia. repeat split; lia. }
  split.
  - unfold midpoints. cbn [registered_code Code.length].
    rewrite Nat2Z.id. apply map_seq_nth. intros k Hk.
    destruct (nth_error ts k) as [T|] eqn:E; [|apply nth_error_None in E; lia].
    destruct (Hwin k T E) as (Hmin & Hmax & Hq & Hfit).
    fold (registered_code protId ch type tol ts). rewrite Hmin, Hmax.
    rewrite (nth_error_nth _ _ 0 E).
    replace (T - T * tol / 100 + (T + T * tol / 100)) with (T * 2) by lia.
    rewrite Z.div_mul by lia. apply uint16_small. lia.
  - intros k T Hk. destruct (Hwin k T Hk) as (-> & -> & Hq & _). lia.
Qed.

Lemma registered_midpoints_witness :
  midpoints (registered_code 1 "#" SP_DATA 25 [286; 1269; 287; 267])
  = [286; 1269; 287; 267].
Proof.
  apply (registered_midpoints 1 "#" SP_DATA 25 [286; 1269; 287; 267]); [lia|].
  repeat constructor; vm_compute; congruence.
Defined.

Lemma find_snoc {A : Type} (f : A -> bool) (l : list A) (x : A) :
  find f (l ++ [x])
  = match find f l with
    | Some y => Some y
    | None => if f x then Some x else None
    end.
Proof.
  induction l as [|a l IH]; simpl; [reflexivity|]. now destruct (f a).
Qed.

(** X7.  [_findCode] after [newCode] for a registered protocol: the new
    code is found under its protocol id and name unless an earlier code
    has the same id and name, which then stays the one found; every other
    lookup is unchanged. *)
Theorem newCode_findCode (st : SignalParser) (protId : Z) (ch : ascii) (type : Z)
    (t1 t2 t3 t4 t5 t6 t7 t8 : Z) (p : Protocol) :
  deref st (_findProt st protId) = Done p ->
  let st' := newCode st protId ch type t1 t2 t3 t4 t5 t6 t7 t8 in
  _findCode st' protId ch
  = match _findCode st protId ch with
    | Some c0 => Some c0
    | None => Some (registered_code protId ch type (Protocol.tolerance p)
                      (slots [t1; t2; t3; t4; t5; t6; t7; t8]))
    end
  /\ forall id' ch', id' <> protId \/ ch' <> ch ->
       _findCode st' id' ch' = _findCode st id' ch'.
Proof.
  intros Hp st'. unfold st', newCode. rewrite Hp. unfold _findCode.
  cbn [_code set_code]. split.
  - rewrite find_snoc. cbn [registered_code Code.protId Code.name].
    now rewrite Z.eqb_refl, Ascii.eqb_refl.
  - intros id' ch' Hne. rewrite find_snoc.
    cbn [registered_code Code.protId Code.name].
    destruct (find _ (_code st)); [reflexivity|].
    destruct (protId =? id') eqn:E1; [|reflexivity].
    destruct (Ascii.eqb ch ch') eqn:E2; [|reflexivity].
    apply Z.eqb_eq in E1. apply Ascii.eqb_eq in E2.
    destruct Hne; congruence.
Qed.

Lemma newCode_findCode_witness :
  option_map Code.minTime
    (_findCode (newCode (it2_parser 20 40) 1 "x" SP_END 500 0 0 0 0 0 0 0) 1 "x")
  = Some [215; 7500]
  /\ option_map Code.minTime
       (_findCode (newCode (it2_parser 20 40) 1 "y" SP_END 500 0 0 0 0 0 0 0) 1 "y")
     = Some [375].
Proof.
  split.
  - rewrite (proj1 (newCode_findCode (it2_parser 20 40) 1 "x" SP_END
                      500 0 0 0 0 0 0 0 (Protocol.mk 1 "it2" 20 40 25 3 0) eq_refl)).
    reflexivity.
  - rewrite (proj1 (newCode_findCode (it2_parser 20 40) 1 "y" SP_END
                      500 0 0 0 0 0 0 0 (Protocol.mk 1 "it2" 20 40 25 3 0) eq_refl)).
    reflexivity.
Defined.

(** * Further properties of the text functions *)

Lemma strcpyProtname_loop_spec (n : nat) :
  forall s, strcpyProtname_loop n s = upto SPACE (take n (upto NUL s)).
Proof.
  induction n as [|n IH]; intros [|c s]; try reflexivity.
  cbn [strcpyProtname_loop upto].
  destruct (Ascii.eqb c NUL) eqn:E1; [reflexivity|].
  cbn [take upto orb]. destruct (Ascii.eqb c SPACE); [reflexivity|].
  now rewrite IH.
Qed.

Lemma strcpyProtname_loop_props (n : nat) :
  forall s, (String.length (strcpyProtname_loop n s) <= n)%nat
            /\ no_space (strcpyProtname_loop n s) = true
            /\ no_nul (strcpyProtname_loop n s) = true.
Proof.
  induction n as [|n IH]; intros [|c s]; cbn [strcpyProtname_loop];
    try (cbn; repeat split; lia).
  destruct (Ascii.eqb c NUL) eqn:E1; [cbn; repeat split; lia|].
  destruct (Ascii.eqb c SPACE) eqn:E2; [cbn; repeat split; lia|].
  destruct (IH s) as (Hl & Hs & Hn).
  cbn [orb String.length no_space no_nul]. rewrite E1, E2, Hs, Hn.
  repeat split; cbn; lia.
Qed.

Lemma strcpyProtname_loop_name (name rest : string) :
  forall n m,
    no_nul name = true -> no_space name = true ->
    (String.length name <= n)%nat -> (String.length name < m)%nat ->
    strcpyProtname_loop n (take m (name ++ String SPACE rest)) = name.
Proof.
  induction name as [|c name IH]; intros n m Hn Hs Hl Hm.
  - destruct m as [|m]; [cbn in Hm; lia|]. cbn [append take].
    destruct n; [reflexivity|]. cbn [strcpyProtname_loop].
    replace (Ascii.eqb SPACE SPACE) with true by (symmetry; apply Ascii.eqb_refl).
    now rewrite orb_true_r.
  - cbn [no_nul] in Hn. cbn [no_space] in Hs.
    apply andb_true_iff in Hn, Hs. destruct Hn as [Hn1 Hn2], Hs as [Hs1 Hs2].
    apply negb_true_iff in Hn1, Hs1. cbn [String.length] in Hl, Hm.
    destruct n as [|n]; [lia|]. destruct m as [|m]; [lia|].
    cbn [append take strcpyProtname_loop]. rewrite Hn1, Hs1. cbn [orb].
    f_equal. apply IH; try assumption; lia.
Qed.

(** X8.  [strcpyProtname] copies the text up to its end, its first space
    or its eleventh character, whichever comes first: the result has at
    most 11 characters and holds neither a space nor a NUL. *)
Theorem strcpyProtname_spec (signal : string) :
  strcpyProtname signal = upto SPACE (take 11 (cstr signal))
  /\ (String.length (strcpyProtname signal) <= 11)%nat
  /\ no_space (strcpyProtname signal) = true
  /\ no_nul (strcpyProtname signal) = true.
Proof.
  unfold strcpyProtname, cstr.
  change (Z.to_nat (PROTNAME_LEN - 1)) with 11%nat.
  split; [apply strcpyProtname_loop_spec|].
  apply (strcpyProtname_loop_props 11).
Qed.

(** X9.  [strcpyProtname] reads the protocol name back from a text
    ["<name> <codes>"], and so from every sequence text that [parse] hands
    to the callback for a protocol whose name has no space. *)
Theorem strcpyProtname_reads_name (name rest : string) :
  no_nul name = true -> no_space name = true -> (String.length name <= 11)%nat ->
  strcpyProtname (name ++ " " ++ rest) = name
  /\ forall p st, Protocol.name p = name ->
       strcpyProtname (sequence_text p st) = name.
Proof.
  intros Hn Hs Hl. unfold strcpyProtname.
  change (Z.to_nat (PROTNAME_LEN - 1)) with 11%nat. split.
  - rewrite <- (take_all (S (String.length (name ++ " " ++ rest)))
                         (name ++ " " ++ rest)) by lia.
    apply strcpyProtname_loop_name; try assumption.
    rewrite length_append. lia.
  - intros p st Hp. unfold sequence_text, snprintf. rewrite Hp.
    rewrite (cstr_no_nul name Hn).
    apply strcpyProtname_loop_name; try assumption. cbn. lia.
Qed.

Lemma strcpyProtname_reads_name_witness :
  strcpyProtname "it2 s#x" = "it2"%string.
Proof.
  apply (strcpyProtname_reads_name "it2" "s#x"); [reflexivity|reflexivity|].
  cbn. lia.
Defined.

(** * Further properties of the matcher *)

Lemma reset_one_static (c c' : Code) :
  reset_one c = reset_one c' ->
  Code.protId c = Code.protId c' /\ Code.name c = Code.name c'
  /\ Code.type c = Code.type c' /\ midpoints c = midpoints c'.
Proof.
  destruct c, c'. unfold reset_one, code_set_valid, code_set_cnt, midpoints.
  cbn. intros H. injection H as -> -> -> -> -> ->. now repeat split.
Qed.

Lemma map_reset_Forall2 (cs cs' : list Code) :
  map reset_one cs = map reset_one cs' ->
  Forall2 (fun c c' => reset_one c' = reset_one c) cs cs'.
Proof.
  revert cs'. induction cs as [|c cs IH]; intros [|c' cs'] H;
    try discriminate; [constructor|].
  pose proof (f_equal (fun l => hd c l) H : reset_one c = reset_one c') as H1.
  pose proof (f_equal (@tl _) H : map reset_one cs = map reset_one cs') as H2.
  constructor; [now symmetry|now apply IH].
Qed.

Lemma find_midpoints_reset (pid : Z) (ch : ascii) (cs cs' : list Code) :
  map reset_one cs = map reset_one cs' ->
  match find (fun c => (Code.protId c =? pid) && Ascii.eqb (Code.name c) ch) cs with
  | Some c => midpoints c
  | None => []
  end
  = match find (fun c => (Code.protId c =? pid) && Ascii.eqb (Code.name c) ch) cs' with
    | Some c => midpoints c
    | None => []
    end.
Proof.
  revert cs'. induction cs as [|c cs IH]; intros [|c' cs'] H;
    try discriminate; [reflexivity|].
  pose proof (f_equal (fun l => hd c l) H : reset_one c = reset_one c') as H1.
  pose proof (f_equal (@tl _) H : map reset_one cs = map reset_one cs') as H2.
  destruct (reset_one_static _ _ H1) as (Hp & Hn & _ & Hm).
  cbn [find]. rewrite Hp, Hn.
  destruct ((Code.protId c' =? pid) && Ascii.eqb (Code.name c') ch);
    [exact Hm|now apply IH].
Qed.

Lemma compose_loop_reset (a b : SignalParser) (pid : Z) :
  map reset_one (_code a) = map reset_one (_code b) ->
  forall s len, compose_loop a pid s len = compose_loop b pid s len.
Proof.
  intros H. induction s as [|ch s IH]; intros len; [reflexivity|].
  cbn [compose_loop]. destruct (Ascii.eqb ch NUL || (len =? 0)); [reflexivity|].
  unfold _findCode. rewrite (find_midpoints_reset pid ch _ _ H). now rewrite IH.
Qed.

Lemma compose_same_reset (a b : SignalParser) :
  _resetCode true a = _resetCode true b ->
  forall sequence timings len,
    compose a sequence timings len = compose b sequence timings len.
Proof.
  intros H sequence timings len.
  destruct (same_reset _ _ H) as (Hp & Hc & _ & _).
  unfold compose, _findProt_name, deref. rewrite Hp.
  destruct (find_index _ (_protocol b)) as [k|]; [|reflexivity].
  destruct (nth_error (_protocol b) k) as [p|]; [|reflexivity].
  destruct timings; [|reflexivity].
  destruct (after SPACE sequence) as [s|]; [|reflexivity].
  now rewrite (compose_loop_reset a b _ Hc).
Qed.

(** X10.  The matcher never changes the tables: after any run of
    [parse] the protocols, the debug flag and the callback are as before and
    every code differs from its registered entry in its counter and its
    valid flag only, so [compose] and [getSendRepeat] answer as before. *)
Theorem parse_all_keeps_tables (st st' : SignalParser) (ds : list Z)
    (out : list string) :
  parse_all st ds = Done (st', out) ->
  _protocol st' = _protocol st
  /\ _debugMode st' = _debugMode st
  /\ _callbackFunc st' = _callbackFunc st
  /\ Forall2 (fun c c' => reset_one c' = reset_one c) (_code st) (_code st')
  /\ (forall sequence timings len,
        compose st' sequence timings len = compose st sequence timings len)
  /\ (forall name, getSendRepeat st' name = getSendRepeat st name).
Proof.
  intros H. pose proof (parse_all_reset ds st st' out H) as Hr.
  destruct (same_reset _ _ Hr) as (Hp & Hc & Hd & Hcb).
  split; [exact Hp|]. split; [exact Hd|]. split; [exact Hcb|].
  split; [apply map_reset_Forall2; now symmetry|].
  split; [now apply compose_same_reset|].
  intros name. unfold getSendRepeat, _findProt_name, deref. now rewrite Hp.
Qed.

Lemma parse_all_keeps_tables_witness :
  compose (run (it2_parser 20 40) (code_s ++ [286])) "it2 s#x" true 10
  = compose (it2_parser 20 40) "it2 s#x" true 10.
Proof.
  destruct (parse_all_keeps_tables (it2_parser 20 40)
              (run (it2_parser 20 40) (code_s ++ [286])) (code_s ++ [286]) [])
    as (_ & _ & _ & _ & H & _); [vm_compute; reflexivity|].
  apply H.
Defined.

Lemma reset_codelength (st : SignalParser) (n : Z) :
  _resetCode true (set_seq_codelength st n) = _resetCode true st.
Proof. reflexivity. Qed.

Lemma parse_out_cases (st st' : SignalParser) (d : Z) (out : list string) :
  parse st d = Done (st', out) ->
  out = []
  \/ exists t, out = [t] /\ st' = _resetCode true st /\ _callbackFunc st = true.
Proof.
  unfold parse. rewrite parse_fuel_S.
  destruct (_protocol st) as [|p0 ps]; [intros H; left; congruence|].
  destruct (scan_codes st d) as [[st1 loc]| |] eqn:Es; cbn [bind]; try discriminate.
  pose proof (scan_codes_reset _ _ _ _ Es) as Hr.
  destruct (same_reset _ _ Hr) as (_ & _ & _ & Hcb).
  destruct (matched loc) eqn:Em; cbn [negb].
  - destruct (foundCode loc) as [fc|]; [|intros H; left; congruence].
    intros H. apply found_code_cases in H.
    destruct H as [(-> & [->|(_ & Hc & p & _ & _ & _ & ->)])
                  |[(_ & _ & _ & ->)|(_ & _ & _ & _ & _ & ->)]];
      try (left; reflexivity).
    right. eexists. split; [reflexivity|]. rewrite reset_codelength, Hr.
    split; [reflexivity|]. rewrite <- Hcb. exact Hc.
  - destruct (scan_codes_inv _ _ _ _ Es) as (cs & Hscan & Hst1).
    destruct (scan_codes_unmatched _ _ _ _ Es Em) as [Hnf _].
    rewrite Hnf in Hst1. subst st1.
    change (_debugMode (set_code st cs)) with (_debugMode st).
    change (_callbackFunc (set_code st cs)) with (_callbackFunc st).
    change (_seq_length (set_code st cs)) with (_seq_length st).
    cbv zeta.
    destruct (_debugMode st && (_seq_length st >? 10)) eqn:Edbg.
    + destruct (_callbackFunc st) eqn:Ec; cbn [bind]; [|discriminate].
      destruct (retryCandidate loc) eqn:Er.
      * destruct (scan_retry_empty _ _ _ _ _ _ Hscan Er) as [Hf|Hz];
          [discriminate|].
        rewrite Hz in Edbg. now rewrite andb_false_r in Edbg.
      * intros H. injection H as <- <-. right. eexists.
        split; [reflexivity|]. now split.
    + cbn [bind]. destruct (retryCandidate loc).
      * destruct (parse_idle_silent (_resetCode true (set_code st cs)) d
                    eq_refl (reset_counters_zero true _)) as [s3 E3].
        rewrite E3. cbn [bind app]. intros H. left. congruence.
      * intros H. left. congruence.
Qed.

(** X11.  One call of [parse] hands at most one text to the callback, and
    none when no callback is attached; after a call that emits a text the
    parser is in the fully reset state. *)
Theorem parse_emits_once (st st' : SignalParser) (d : Z) (out : list string) :
  parse st d = Done (st', out) ->
  (List.length out <= 1)%nat
  /\ (out <> [] -> _callbackFunc st = true /\ st' = _resetCode true st).
Proof.
  intros H. destruct (parse_out_cases _ _ _ _ H) as [->|(t & -> & Hs & Hc)].
  - split; [cbn; lia|congruence].
  - split; [cbn; lia|]. now intros _.
Qed.

Lemma parse_emits_once_witness :
  let st := run (it2_parser 2 40) (code_s ++ code_high ++ [286]) in
  _callbackFunc st = true /\ it2_parser 2 40 = _resetCode true st.
Proof.
  apply (parse_emits_once (run (it2_parser 2 40) (code_s ++ code_high ++ [286]))
           (it2_parser 2 40) 10000 ["it2 s#x"%string]).
  - vm_compute. reflexivity.
  - discriminate.
Defined.

(** X12.  In debug mode the diagnostic of an aborted attempt is handed to
    the callback without a test of the pointer: with more than 10 codes
    received and no callback attached, [parse] calls the null pointer. *)
Theorem parse_debug_without_callback (st : SignalParser) (d : Z) :
  _protocol st <> [] -> no_match st d = true ->
  _debugMode st = true -> _callbackFunc st = false -> _seq_length st > 10 ->
  parse st d = Fault.
Proof.
  intros Hp Hno Hdbg Hcb Hlen.
  destruct (no_match_inv _ _ Hno) as (st1 & loc & Es & Em).
  unfold parse. rewrite parse_fuel_S.
  destruct (_protocol st) as [|p0 ps]; [congruence|].
  rewrite Es. cbn [bind]. rewrite Em. cbn [negb].
  destruct (scan_codes_unmatched _ _ _ _ Es Em) as [_ [cs Hst1]]. subst st1.
  change (_debugMode (set_code st cs)) with (_debugMode st).
  change (_callbackFunc (set_code st cs)) with (_callbackFunc st).
  change (_seq_length (set_code st cs)) with (_seq_length st).
  rewrite Hdbg, Hcb. cbn [andb].
  replace (_seq_length st >? 10) with true by (symmetry; apply Z.gtb_lt; lia).
  reflexivity.
Qed.

Lemma parse_debug_without_callback_witness :
  let st := run it2_no_callback (code_s ++ times 10 code_high) in
  _seq_length st = 11 /\ parse st 409 = Fault.
Proof.
  split; [vm_compute; reflexivity|].
  apply parse_debug_without_callback.
  - vm_compute. discriminate.
  - vm_compute. reflexivity.
  - vm_compute. reflexivity.
  - vm_compute. reflexivity.
  - vm_compute. reflexivity.
Defined.

Lemma closed_length (st0 : SignalParser) (p : Protocol) (u : list Code) :
  forall k, closed_ok st0 p k u -> (k < 118)%nat ->
            (1 <= List.length u)%nat /\ (k + List.length u <= 118)%nat.
Proof.
  induction u as [|c u IH]; intros k H Hk; [contradiction|].
  destruct u as [|c' u'].
  - cbn [List.length]. lia.
  - destruct H as (_ & _ & _ & Hmax & Hrest).
    change (MAX_SEQUENCE_LENGTH - 2) with 118 in Hmax.
    destruct (IH (S k) Hrest) as [H1 H2]; [lia|].
    cbn [List.length] in *. lia.
Qed.

(** X13.  Every text that a run from a configured parser emits on a
    matching duration is the text of a completed sequence: a start code
    followed by data or end codes of the protocol of the start code, closed
    by an end code or at the maximal length and not below the minimal
    length.  It names between 2 and 118 codes, it is the only text of the
    call, and the parser is back in its configured state. *)
Theorem emitted_text_wellformed (st0 st st' : SignalParser) (ds : list Z)
    (out0 out : list string) (d : Z) (t : string) :
  configured st0 ->
  parse_all st0 ds = Done (st, out0) ->
  parse st d = Done (st', out) -> no_match st d = false -> In t out ->
  exists W,
    sequence_of st0 t W /\ (2 <= List.length W <= 118)%nat
    /\ out = [t] /\ st' = st0.
Proof.
  intros Hcfg Hrun Hparse Hmatch Hin.
  destruct (configured_idle st0 Hcfg) as [Hidle Hreg].
  assert (Htr0 : trace st0 st0 []).
  { destruct (idle_elim _ Hidle) as (H1 & H2 & _). now repeat split. }
  destruct (parse_all_trace st0 ds st0 st out0 [] Hidle (idle_inv _ Hidle Hreg)
              Htr0 Hrun) as (Hr & Hinv & w & Htr).
  destruct (parse_fuel_trace st0 d 2 st st' out w Hr Hinv Htr Hparse)
    as [_ Hemit].
  destruct (Hemit Hmatch t Hin) as (_ & W & HW).
  exists W. split; [exact HW|].
  destruct HW as (kp & p & c1 & u & -> & _ & Hclosed & _).
  destruct (closed_length _ _ _ _ Hclosed) as [H1 H2]; [lia|].
  split; [cbn [List.length]; lia|].
  destruct (parse_out_cases _ _ _ _ Hparse) as [->|(t0 & -> & Hs & _)];
    [contradiction|].
  destruct Hin as [->|[]]. split; [reflexivity|]. now rewrite Hs, Hr.
Qed.

Lemma emitted_text_wellformed_witness :
  exists W,
    sequence_of (it2_parser 2 40) "it2 s#x" W /\ (2 <= List.length W <= 118)%nat
    /\ ["it2 s#x"%string] = ["it2 s#x"%string]
    /\ it2_parser 2 40 = it2_parser 2 40.
Proof.
  apply (emitted_text_wellformed (it2_parser 2 40)
           (run (it2_parser 2 40) (code_s ++ code_high ++ [286]))
           (it2_parser 2 40) (code_s ++ code_high ++ [286]) []
           ["it2 s#x"%string] 10000 "it2 s#x").
  - apply it2_parser_configured. unfold MAX_SEQUENCE_LENGTH. lia.
  - vm_compute. reflexivity.
  - vm_compute. reflexivity.
  - vm_compute. reflexivity.
  - left. reflexivity.
Defined.

Lemma matcher_inv_flags (st st' : SignalParser) :
  _resetCode true st' = _resetCode true st ->
  _debugMode st = false \/ _callbackFunc st = true ->
  _debugMode st' = false \/ _callbackFunc st' = true.
Proof.
  intros H. destruct (same_reset _ _ H) as (_ & _ & -> & ->). tauto.
Qed.

Lemma parse_all_total (ds : list Z) :
  forall st, matcher_inv st ->
    _debugMode st = false \/ _callbackFunc st = true ->
    exists st' out, parse_all st ds = Done (st', out).
Proof.
  induction ds as [|d ds IH]; intros st Hinv Hflags; cbn [parse_all].
  - now exists st, [].
  - destruct (d =? 0); [now exists st, []|].
    destruct (parse_safe st d Hinv Hflags) as (st1 & out1 & E1).
    rewrite E1. cbn [bind].
    destruct (parse_fuel_inv d 2 st st1 out1 Hinv E1) as [Hinv1 _].
    destruct (IH st1 Hinv1
                (matcher_inv_flags _ _ (parse_fuel_reset 2 _ _ _ _ E1) Hflags))
      as (st2 & out2 & E2).
    rewrite E2. cbn [bind]. now eexists; eexists.
Qed.

(** X14.  Without debug mode, or with a callback attached, a run of
    [parse] from a configured parser ends regularly on every list of
    durations: no null pointer is dereferenced or called. *)
Theorem parse_all_safe (st0 : SignalParser) (ds : list Z) :
  configured st0 ->
  _debugMode st0 = false \/ _callbackFunc st0 = true ->
  exists st out, parse_all st0 ds = Done (st, out).
Proof.
  intros Hcfg Hflags. destruct (configured_idle st0 Hcfg) as [Hidle Hreg].
  apply parse_all_total; [now apply idle_inv|exact Hflags].
Qed.

Lemma parse_all_safe_witness :
  exists st out, parse_all (it2_parser 2 40) [283; 5; 283; 2658; 9; 0; 7] = Done (st, out).
Proof.
  apply parse_all_safe.
  - apply it2_parser_configured. unfold MAX_SEQUENCE_LENGTH. lia.
  - right. vm_compute. reflexivity.
Defined.

(** X15.  Feeding in pieces: a run over [ds1 ++ ds2] is the run over
    [ds1] followed by the run over [ds2] from the state reached, when
    [ds1] holds no 0; the durations after a 0 are not read. *)
Theorem parse_all_app (st : SignalParser) (ds1 ds2 : list Z) :
  Forall (fun d => d <> 0) ds1 ->
  parse_all st (ds1 ++ ds2)
  = ('(st1, o1) <- parse_all st ds1 ;;
     '(st2, o2) <- parse_all st1 ds2 ;; Done (st2, o1 ++ o2))
  /\ parse_all st (ds1 ++ 0 :: ds2) = parse_all st ds1.
Proof.
  intros H. revert st. induction H as [|d ds1 Hd _ IH]; intros st.
  - cbn [app parse_all bind]. split; [|reflexivity].
    symmetry. apply bind_done_nil.
  - cbn [app parse_all]. apply Z.eqb_neq in Hd. rewrite Hd.
    destruct (parse st d) as [[s1 o1]| |]; cbn [bind]; try (split; reflexivity).
    destruct (IH s1) as [IH1 IH2]. rewrite IH1, IH2. split; [|reflexivity].
    destruct (parse_all s1 ds1) as [[sa oa]| |]; cbn [bind]; try reflexivity.
    destruct (parse_all sa ds2) as [[sb ob]| |]; cbn [bind]; try reflexivity.
    now rewrite app_assoc.
Qed.

Lemma parse_all_app_witness :
  parse_all (it2_parser 2 40) (code_s ++ 0 :: code_x)
  = parse_all (it2_parser 2 40) code_s.
Proof.
  apply parse_all_app. repeat constructor; discriminate.
Defined.

(** * Further properties of the composer *)

Lemma upto_take_long (name rest : string) :
  no_space name = true ->
  forall n, upto SPACE (take n (name ++ String SPACE rest)) = take n name.
Proof.
  induction name as [|c name IH]; intros Hs n.
  - destruct n; reflexivity.
  - cbn [no_space] in Hs. apply andb_true_iff in Hs. destruct Hs as [Hc Hs].
    apply negb_true_iff in Hc. destruct n as [|n]; [reflexivity|].
    cbn [append take upto]. rewrite Hc. f_equal. now apply IH.
Qed.

(** X16.  For a text ["<name> <codes>"] whose name is that of a
    registered protocol (compared on its first 11 characters, as it is
    stored) and whose codes are codes of that protocol, [compose] writes
    the midpoints of all slots of the codes, in order, and a final 0,
    provided [len] is not below the number of codes. *)
Theorem compose_text (st0 : SignalParser) (name : string) (k : nat)
    (p : Protocol) (w : list Code) (len : Z) :
  table_ok st0 ->
  nth_error (_protocol st0) k = Some p ->
  Protocol.name p = take 11 name -> no_space name = true ->
  Forall (fun c => In c (_code st0) /\ Code.protId c = Protocol.id p) w ->
  Z.of_nat (List.length w) <= len ->
  compose st0 (name ++ " " ++ names w) true len = Done (timings_of w ++ [0]).
Proof.
  intros Htable Hk Hname Hns Hw Hlen.
  change (" " ++ names w)%string with (String SPACE (names w)).
  rewrite (compose_resolved st0 _ (names w) len k p).
  - now rewrite (compose_loop_names st0 (Protocol.id p) w Htable Hw).
  - rewrite (upto_take_long _ _ Hns), <- Hname.
    destruct Htable as (Hnd & _). unfold _findProt_name.
    now apply (find_index_nodup Protocol.name).
  - exact Hk.
  - now apply after_name.
Qed.

Lemma compose_text_witness :
  compose (it2_parser 2 40) ("it2" ++ " " ++ names (_code (it2_parser 2 40))) true 4
  = Done (timings_of (_code (it2_parser 2 40)) ++ [0]).
Proof.
  apply (compose_text (it2_parser 2 40) "it2" 0
           (Protocol.mk 1 "it2" 2 40 25 3 0) (_code (it2_parser 2 40)) 4).
  - exact it2_table_ok.
  - reflexivity.
  - reflexivity.
  - reflexivity.
  - apply Forall_forall. intros c Hc. split; [exact Hc|].
    vm_compute in Hc. destruct Hc as [<-|[<-|[<-|[<-|[]]]]]; reflexivity.
  - vm_compute. discriminate.
Defined.

Lemma after_no_space (s : string) : no_space s = true -> after SPACE s = None.
Proof.
  induction s as [|c s IH]; [reflexivity|]. cbn [no_space after]. intros H.
  apply andb_true_iff in H. destruct H as [Hc Hs].
  apply negb_true_iff in Hc. rewrite Hc. now apply IH.
Qed.

(** X17.  [compose] looks for the codes behind the first space of the text
    without testing that there is one: for a text that is the name of a
    registered protocol and holds no space, it dereferences the null
    pointer. *)
Theorem compose_no_space (st : SignalParser) (sequence : string) (len : Z) :
  _findProt_name st (upto SPACE (take 11 sequence)) <> None ->
  no_space sequence = true ->
  compose st sequence true len = Fault.
Proof.
  intros Hf Hs. unfold compose.
  destruct (_findProt_name st (upto SPACE (take 11 sequence))) as [k|] eqn:E;
    [|congruence].
  destruct (find_index_some _ _ _ E) as (p & Hp & _).
  unfold deref. rewrite Hp. now rewrite (after_no_space _ Hs).
Qed.

Lemma compose_no_space_witness :
  compose (it2_parser 2 40) "it2" true 10 = Fault.
Proof.
  apply compose_no_space; [vm_compute; discriminate|reflexivity].
Defined.

Lemma midpoints_bound (c : Code) :
  code_wf c ->
  Z.of_nat (List.length (midpoints c)) <= MAX_CODELENGTH
  /\ Forall (fun t => 0 <= t < 65536) (midpoints c).
Proof.
  intros (Hl & _). unfold midpoints. split.
  - rewrite length_map, length_seq. lia.
  - apply Forall_forall. intros t Ht. apply in_map_iff in Ht.
    destruct Ht as (k & <- & _). apply uint16_range.
Qed.

Lemma compose_loop_bound (st : SignalParser) (pid : Z) :
  Forall code_wf (_code st) ->
  forall s len,
    Forall (fun t => 0 <= t < 65536) (compose_loop st pid s len)
    /\ Z.of_nat (List.length (compose_loop st pid s len))
       <= MAX_CODELENGTH * Z.of_nat (String.length s)
    /\ (0 <= len ->
        Z.of_nat (List.length (compose_loop st pid s len)) <= MAX_CODELENGTH * len).
Proof.
  intros Hwf. rewrite Forall_forall in Hwf.
  induction s as [|ch s IH]; intros len.
  - cbn [compose_loop List.length String.length]. unfold MAX_CODELENGTH.
    repeat split; [constructor|lia|lia].
  - cbn [compose_loop String.length].
    destruct (Ascii.eqb ch NUL); cbn [orb].
    { unfold MAX_CODELENGTH. cbn [List.length]. repeat split; [constructor|lia|lia]. }
    destruct (len =? 0) eqn:El.
    { unfold MAX_CODELENGTH. cbn [List.length]. repeat split; [constructor|lia|lia]. }
    apply Z.eqb_neq in El. destruct (IH (len - 1)) as (H1 & H2 & H3).
    assert (Hm : Forall (fun t => 0 <= t < 65536)
                   match _findCode st pid ch with
                   | Some c => midpoints c
                   | None => []
                   end
                 /\ Z.of_nat (List.length match _findCode st pid ch with
                                          | Some c => midpoints c
                                          | None => []
                                          end) <= MAX_CODELENGTH).
    { unfold _findCode.
      destruct (find _ (_code st)) as [c|] eqn:Ef.
      - apply find_some in Ef. destruct Ef as [Hin _].
        destruct (midpoints_bound c (Hwf c Hin)) as [Ha Hb]. now split.
      - split; [constructor|]. unfold MAX_CODELENGTH. cbn. lia. }
    destruct Hm as [Hm1 Hm2]. rewrite length_app.
    unfold MAX_CODELENGTH in *.
    split; [apply Forall_app; now split|]. split; [lia|]. intros Hlen.
    specialize (H3 ltac:(lia)). lia.
Qed.

(** X18.  What [compose] writes for a configured table: nothing at all
    when the protocol is unknown, and otherwise 16-bit values followed by
    one 0, at most 8 values for each character of the text and, for a
    non-negative [len], at most [8 * len] values. *)
Theorem compose_bound (st : SignalParser) (sequence : string) (len : Z)
    (ts : list Z) :
  configured st ->
  compose st sequence true len = Done ts ->
  (ts = [] /\ _findProt_name st (upto SPACE (take 11 sequence)) = None)
  \/ exists body,
       ts = body ++ [0]
       /\ Forall (fun t => 0 <= t < 65536) body
       /\ Z.of_nat (List.length body)
          <= MAX_CODELENGTH * Z.of_nat (String.length sequence)
       /\ (0 <= len -> Z.of_nat (List.length body) <= MAX_CODELENGTH * len).
Proof.
  intros Hcfg. pose proof (configured_code_wf st Hcfg) as Hwf.
  unfold compose.
  destruct (_findProt_name st (upto SPACE (take 11 sequence))) as [k|] eqn:E.
  - destruct (find_index_some _ _ _ E) as (p & Hp & _).
    unfold deref. rewrite Hp.
    destruct (after SPACE sequence) as [s|] eqn:Ea; [|discriminate].
    intros H. injection H as <-. right.
    exists (compose_loop st (Protocol.id p) s len).
    destruct (compose_loop_bound st (Protocol.id p) Hwf s len) as (H1 & H2 & H3).
    split; [reflexivity|]. split; [exact H1|]. split; [|exact H3].
    assert (Hlen : (String.length s <= String.length sequence)%nat).
    { clear -Ea. revert s Ea. induction sequence as [|c q IH]; intros s Ea;
        [discriminate|].
      cbn [after] in Ea. destruct (Ascii.eqb c SPACE).
      - injection Ea as <-. cbn. lia.
      - specialize (IH s Ea). cbn [String.length]. lia. }
    unfold MAX_CODELENGTH in *. lia.
  - cbn [deref]. intros H. injection H as <-. now left.
Qed.

Lemma compose_bound_witness :
  (([283; 2658; 286; 1269; 287; 267; 0] : list Z) = []
   /\ _findProt_name (it2_parser 2 40) (upto SPACE (take 11 "it2 s#_")) = None)
  \/ exists body,
       [283; 2658; 286; 1269; 287; 267; 0] = body ++ [0]
       /\ Forall (fun t => 0 <= t < 65536) body
       /\ Z.of_nat (List.length body)
          <= MAX_CODELENGTH * Z.of_nat (String.length "it2 s#_")
       /\ (0 <= 2 -> Z.of_nat (List.length body) <= MAX_CODELENGTH * 2).
Proof.
  apply (compose_bound (it2_parser 2 40) "it2 s#_" 2).
  - apply it2_parser_configured. unfold MAX_SEQUENCE_LENGTH. lia.
  - vm_compute. reflexivity.
Defined.

(** * Further properties of the scan *)

Lemma scan_first_wins (st : SignalParser) (d : Z) (todo : list Code) :
  forall loc cs loc',
    scan st d todo loc = Done (cs, loc') ->
    foundCode loc'
    = match find (would_complete st d) todo with
      | Some c => Some (advance c)
      | None => foundCode loc
      end.
Proof.
  induction todo as [|c rest IH]; intros loc cs loc' H.
  - cbn in H. injection H as _ <-. reflexivity.
  - cbn [scan] in H. cbn [find]. unfold would_complete at 1. unfold accepts.
    destruct (Code.valid c) eqn:Ev; cbn [andb].
    + destruct (check st c d) as [[v r]| |] eqn:Ec; cbn [bind] in H;
        try discriminate.
      cbv zeta in H. destruct v; cbn [andb].
      * destruct (int8 (int8 (Code.cnt c) + 1) =? Code.length c) eqn:Ei.
        -- injection H as _ <-. reflexivity.
        -- destruct (scan st d rest _) as [[rest' loc1]| |] eqn:Er;
             cbn [bind] in H; try discriminate.
           injection H as _ <-. now rewrite (IH _ _ _ Er).
      * destruct (scan st d rest _) as [[rest' loc1]| |] eqn:Er;
          cbn [bind] in H; try discriminate.
        injection H as _ <-. now rewrite (IH _ _ _ Er).
    + destruct (scan st d rest loc) as [[rest' loc1]| |] eqn:Er;
        cbn [bind] in H; try discriminate.
      injection H as _ <-. now rewrite (IH _ _ _ Er).
Qed.

(** X19.  When several codes complete on the same duration, the scan
    finds the one that is first in the code table: the code found is the
    first entry that is valid, accepts the duration and is at its last
    slot, and its name is the character appended to the sequence. *)
Theorem scan_codes_first_wins (st st1 : SignalParser) (d : Z) (loc : Locals) :
  scan_codes st d = Done (st1, loc) ->
  foundCode loc = option_map advance (find (would_complete st d) (_code st))
  /\ match find (would_complete st d) (_code st) with
     | Some c => _seq st1 = snoc (_seq st) (Code.name c)
                 /\ counters_zero (_code st1)
     | None => _seq st1 = _seq st
     end.
Proof.
  intros H. destruct (scan_codes_inv _ _ _ _ H) as (cs & Hscan & Hst1).
  pose proof (scan_first_wins _ _ _ _ _ _ Hscan) as Hf.
  cbn [foundCode locals0] in Hf.
  destruct (find (would_complete st d) (_code st)) as [c|].
  - split; [exact Hf|]. rewrite Hf in Hst1. subst st1.
    split; [reflexivity|apply reset_counters_zero].
  - split; [exact Hf|]. rewrite Hf in Hst1. now subst st1.
Qed.

Lemma scan_codes_first_wins_witness :
  map Code.name (filter (would_complete (run overlap_parser [1000]) 120)
                        (_code (run overlap_parser [1000]))) = ["a"; "b"]%char
  /\ exists st1 loc,
       scan_codes (run overlap_parser [1000]) 120 = Done (st1, loc)
       /\ _seq st1 = "sa"%string.
Proof.
  split; [vm_compute; reflexivity|].
  destruct (scan_codes (run overlap_parser [1000]) 120) as [[st1 loc]| |] eqn:E.
  - exists st1, loc. split; [reflexivity|].
    pose proof (scan_codes_first_wins _ st1 120 loc E) as [_ Hs].
    vm_compute in Hs. exact (proj1 Hs).
  - vm_compute in E. discriminate.
  - vm_compute in E. discriminate.
Defined.

Lemma scan_counters (st : SignalParser) (d : Z) (todo : list Code) :
  forall loc cs loc',
    scan st d todo loc = Done (cs, loc') ->
    Forall counter_in_range todo -> foundCode loc' = None ->
    Forall counter_in_range cs.
Proof.
  induction todo as [|c rest IH]; intros loc cs loc' H Hall Hnone.
  - cbn in H. injection H as <- _. constructor.
  - apply Forall_cons_iff in Hall. destruct Hall as [Hc Hrest].
    cbn [scan] in H. destruct (Code.valid c) eqn:Ev.
    + destruct (check st c d) as [[v r]| |] eqn:Ec; cbn [bind] in H;
        try discriminate.
      cbv zeta in H. destruct v.
      * destruct (int8 (int8 (Code.cnt c) + 1) =? Code.length c) eqn:Ei.
        -- injection H as _ <-. discriminate.
        -- destruct (scan st d rest _) as [[rest' loc1]| |] eqn:Er;
             cbn [bind] in H; try discriminate.
           injection H as <- <-. constructor; [|now apply (IH _ _ _ Er)].
           unfold counter_in_range in *.
           cbn [Code.length Code.cnt code_set_cnt code_set_valid].
           unfold MAX_CODELENGTH in *. intros Hl. specialize (Hc Hl).
           apply Z.eqb_neq in Ei.
           rewrite (int8_small (Code.cnt c)) in Ei |- * by lia.
           rewrite (int8_small (Code.cnt c + 1)) in Ei |- * by lia.
           rewrite uint8_small by lia. lia.
      * destruct (scan st d rest _) as [[rest' loc1]| |] eqn:Er;
          cbn [bind] in H; try discriminate.
        injection H as <- <-. constructor; [exact Hc|now apply (IH _ _ _ Er)].
    + destruct (scan st d rest loc) as [[rest' loc1]| |] eqn:Er;
        cbn [bind] in H; try discriminate.
      injection H as <- <-. constructor; [exact Hc|now apply (IH _ _ _ Er)].
Qed.

Lemma reset_in_range (cs : list Code) : Forall counter_in_range (map reset_one cs).
Proof.
  apply Forall_forall. intros c Hc. apply in_map_iff in Hc.
  destruct Hc as (c0 & <- & _). unfold counter_in_range. cbn. lia.
Qed.

Lemma found_code_codes (st st' : SignalParser) (fc : Code) (out : list string) :
  found_code st fc = Done (st', out) ->
  _code st' = _code st \/ _code st' = map reset_one (_code st).
Proof.
  intros H. apply found_code_cases in H.
  destruct H as [(-> & _)|[(_ & _ & -> & _)|(_ & _ & _ & _ & -> & _)]];
    [right|left|left]; reflexivity.
Qed.

Lemma parse_fuel_counters (fuel : nat) :
  forall st st' d out,
    Forall counter_in_range (_code st) ->
    parse_fuel fuel st d = Done (st', out) ->
    Forall counter_in_range (_code st').
Proof.
  induction fuel as [|fuel IH]; intros st st' d out Hall H; [discriminate|].
  rewrite parse_fuel_S in H.
  destruct (_protocol st) as [|p0 ps]; [injection H as <- _; exact Hall|].
  destruct (scan_codes st d) as [[st1 loc]| |] eqn:Es; cbn [bind] in H;
    try discriminate.
  destruct (scan_codes_inv _ _ _ _ Es) as (cs & Hscan & Hst1).
  destruct (matched loc); cbn [negb] in H.
  - destruct (foundCode loc) as [fc|] eqn:Ef.
    + apply found_code_codes in H. subst st1.
      destruct H as [-> | ->]; apply reset_in_range.
    + injection H as <- _. subst st1. exact (scan_counters _ _ _ _ _ _ Hscan Hall Ef).
  - destruct (if _debugMode st1 && (_seq_length st1 >? 10)
              then if _callbackFunc st1 then Done [diag_text st1] else Fault
              else Done []) as [o1| |]; cbn [bind] in H; try discriminate.
    cbv zeta in H. destruct (retryCandidate loc).
    + destruct (parse_fuel fuel (_resetCode true st1) d) as [[s3 o3]| |] eqn:E3;
        cbn [bind] in H; try discriminate.
      injection H as <- _. apply (IH (_resetCode true st1) _ d o3); [|exact E3].
      exact (reset_in_range (_code st1)).
    + injection H as <- _. exact (reset_in_range (_code st1)).
Qed.

Lemma parse_all_counters (ds : list Z) :
  forall st st' out,
    Forall counter_in_range (_code st) ->
    parse_all st ds = Done (st', out) ->
    Forall counter_in_range (_code st').
Proof.
  induction ds as [|d ds IH]; intros st st' out Hall H; cbn [parse_all] in H.
  - injection H as <- _. exact Hall.
  - destruct (d =? 0); [injection H as <- _; exact Hall|].
    destruct (parse st d) as [[s1 o1]| |] eqn:E1; cbn [bind] in H; try discriminate.
    destruct (parse_all s1 ds) as [[s2 o2]| |] eqn:E2; cbn [bind] in H;
      try discriminate.
    injection H as <- _.
    exact (IH _ _ _ (parse_fuel_counters 2 _ _ _ _ Hall E1) E2).
Qed.

Lemma static_same (cs : list Code) :
  forall cs0,
    map reset_one cs = map reset_one cs0 -> Forall code_wf cs0 ->
    Forall (fun c => 0 <= Code.length c <= MAX_CODELENGTH
                     /\ Z.of_nat (List.length (Code.minTime c)) = Code.length c
                     /\ Z.of_nat (List.length (Code.maxTime c)) = Code.length c) cs.
Proof.
  induction cs as [|c cs IH]; intros [|c0 cs0] H Hwf; try discriminate;
    [constructor|].
  pose proof (f_equal (fun l => hd c l) H : reset_one c = reset_one c0) as H1.
  pose proof (f_equal (@tl _) H : map reset_one cs = map reset_one cs0) as H2.
  apply Forall_cons_iff in Hwf. destruct Hwf as [(Hl & Hmin & Hmax & _) Hwf].
  constructor; [|now apply (IH cs0)].
  destruct c, c0. unfold reset_one, code_set_valid, code_set_cnt in H1.
  cbn in H1. injection H1 as -> -> -> -> -> ->. cbn in *. tauto.
Qed.

Lemma slots_same (cs : list Code) :
  forall cs0,
    map reset_one cs = map reset_one cs0 ->
    Forall (fun c => 1 <= Code.length c) cs0 ->
    Forall (fun c => 1 <= Code.length c) cs.
Proof.
  induction cs as [|c cs IH]; intros [|c0 cs0] H Hl; try discriminate;
    [constructor|].
  pose proof (f_equal (fun l => hd c l) H : reset_one c = reset_one c0) as H1.
  pose proof (f_equal (@tl _) H : map reset_one cs = map reset_one cs0) as H2.
  apply Forall_cons_iff in Hl. destruct Hl as [Hc Hl].
  constructor; [|now apply (IH cs0)].
  destruct c, c0. unfold reset_one, code_set_valid, code_set_cnt in H1.
  cbn in H1. injection H1 as -> -> -> -> -> ->. exact Hc.
Qed.

(** X20.  For a configured table in which every code has at least one
    slot, in every state that a run reaches the slot counter of every code
    is below the number of its slots, and both timing arrays hold that
    many values: the two values that the scan compares a duration with
    are values that [newCode] stored. *)
Theorem parse_slots_in_range (st0 st : SignalParser) (ds : list Z)
    (out : list string) :
  configured st0 -> Forall (fun c => 1 <= Code.length c) (_code st0) ->
  parse_all st0 ds = Done (st, out) ->
  Forall slot_in_range (_code st)
  /\ forall c, In c (_code st) ->
       nth_error (Code.minTime c) (Z.to_nat (int8 (Code.cnt c)))
       = Some (rd (Code.minTime c) (int8 (Code.cnt c)))
       /\ nth_error (Code.maxTime c) (Z.to_nat (int8 (Code.cnt c)))
          = Some (rd (Code.maxTime c) (int8 (Code.cnt c))).
Proof.
  intros Hcfg Hslots H. pose proof (configured_code_wf st0 Hcfg) as Hwf.
  assert (H0 : Forall counter_in_range (_code st0)).
  { eapply Forall_impl; [|exact Hwf]. intros c (Hl & _ & _ & _ & _ & Hc & _).
    unfold counter_in_range. lia. }
  pose proof (parse_all_counters ds _ _ _ H0 H) as Hcnt.
  destruct (same_reset _ _ (parse_all_reset ds _ _ _ H)) as (_ & Hmap & _).
  pose proof (static_same _ _ Hmap Hwf) as Hst.
  pose proof (slots_same _ _ Hmap Hslots) as Hpos.
  assert (Hall : Forall slot_in_range (_code st)).
  { rewrite Forall_forall in *. intros c Hc.
    destruct (Hst c Hc) as (Hl & Hmin & Hmax). specialize (Hpos c Hc).
    pose proof (Hcnt c Hc) as Hr. unfold counter_in_range in Hr.
    specialize (Hr ltac:(lia)). unfold MAX_CODELENGTH in Hl.
    unfold slot_in_range, MAX_CODELENGTH. rewrite int8_small by lia. lia. }
  split; [exact Hall|]. rewrite Forall_forall in Hall.
  intros c Hc. destruct (Hall c Hc) as (Hi & _ & Hmin & Hmax).
  assert (Hrd : forall a, Z.of_nat (List.length a) = Code.length c ->
            nth_error a (Z.to_nat (int8 (Code.cnt c)))
            = Some (rd a (int8 (Code.cnt c)))).
  { intros a Ha. unfold rd.
    replace (int8 (Code.cnt c) <? 0) with false by (symmetry; apply Z.ltb_ge; lia).
    apply nth_error_nth'. lia. }
  split; now apply Hrd.
Qed.

Lemma parse_slots_in_range_witness :
  Forall slot_in_range (_code (run (it2_parser 2 40) (code_s ++ [286]))).
Proof.
  apply (parse_slots_in_range (it2_parser 2 40) _ (code_s ++ [286]) []).
  - apply it2_parser_configured. unfold MAX_SEQUENCE_LENGTH. lia.
  - repeat constructor; vm_compute; discriminate.
  - vm_compute. reflexivity.
Defined.

(** A code registered with all times 0 has no slot: the parser is
    configured, but the slot that the scan compares first, at index 0, is
    not a slot that [newCode] stored. *)
Lemma zero_slot_out_of_range :
  configured zero_slot_parser
  /\ exists c, _code zero_slot_parser = [c] /\ eligible zero_slot_parser c
               /\ Code.length c = 0 /\ Code.minTime c = [] /\ Code.maxTime c = []
               /\ ~ slot_in_range c.
Proof.
  split.
  - change zero_slot_parser
      with (newCode (fst (newProtocol (attachCallback empty_parser true) "z" 2 10 25 3))
                    1 "z" SP_START 0 0 0 0 0 0 0 0).
    repeat constructor.
  - eexists. split; [reflexivity|]. split; [left; split; reflexivity|].
    split; [reflexivity|]. split; [reflexivity|]. split; [reflexivity|].
    unfold slot_in_range. cbn. lia.
Qed.
